(** * The Fuel reconciler ([src/stem.ts]): model and checked properties

    The reconciler works on mutable JavaScript objects that are shared by
    reference: virtual elements, native nodes, the frames of the patch stack
    and the stem itself.  The model keeps every such object in a store and
    passes identities around, so that aliasing is what it is in the source.

    Collaborators that live in other files of the repository ([./difference],
    [./element], [./tree], [./node], [./util], the renderer) are taken as a
    record of functions, see [Collaborators].  Every call the reconciler makes
    to a collaborator with a visible effect, and every call on a native node,
    is appended to a chronological log.

    The file has three parts: the model of the source, the vocabulary in
    which the properties are stated (with the cycles of a render unrolled
    and the concrete stores the properties are run on), and the properties
    with their proofs. *)

From stdpp Require Import gmap strings list fin_maps pretty.
From Stdlib Require Import ZArith Lia.

Local Open Scope string_scope.
Local Open Scope list_scope.
Set Warnings "-register-all".

(** ** Object identities *)

Abbreviation loc := nat (only parsing).      (* a FuelElement object *)
Abbreviation node := nat (only parsing).     (* a native (DOM) node *)
Abbreviation stemref := nat (only parsing).  (* a FuelStem object *)
Abbreviation frameref := nat (only parsing). (* a PatchStackType object *)

(** ** Data model *)

(** [type] of an element: a host tag name or a component constructor.  The
    source only compares types with [===] and [!==]. *)
Inductive ElementType :=
| HostTag (tag : string)
| ComponentClass (ctor : nat).

#[global] Instance ElementType_eq_dec : EqDecision ElementType.
Proof. solve_decision. Defined.

(** [any]-typed payloads (attribute values), told apart by what
    [for ... in] visits on them.  A string is the sequence of its code units
    (8-bit ones here); its enumerable properties are its indices.  A scalar
    stands for a value without enumerable properties (a number, a boolean,
    [null], [undefined], a function).  An object lists its enumerable
    properties in enumeration order. *)
Inductive JsValue :=
| JsString (text : string)
| JsScalar (repr : string)
| JsObject (props : list (string * string)).

(** What reading a property of a key index yields, as far as the matcher
    tells values apart: a [FuelElement], or a truthy value that is none (a
    function, a prototype object, an array, a string); a falsy value is
    [None]. *)
Inductive Found :=
| FoundElement (l : loc)
| FoundOther.

(** The object a plain object inherits from. *)
Inductive Prototype :=
| ObjectPrototype              (* [Object.prototype], as for a literal [{}] *)
| ElementPrototype (e : loc)   (* a [FuelElement]: after [obj.__proto__ = e] *)
| NoPrototype.                 (* [null], as for [Object.create(null)] *)

(** A plain JavaScript object used as a map from key to child: its own
    properties, and where it inherits from. *)
Record KeyIndex := mkIndex {
  entries : gmap string loc;
  inherits : Prototype
}.

(** The [context] argument is a plain object; [{}] is the empty one. *)
Abbreviation Context := (list (string * string)) (only parsing).

Module El.
(** The fields of [FuelElement] that [stem.ts] reads or writes.  [key] is
    [None] when the element has no key.  [children] may hold [null] entries.
    [_keymap] is a plain JavaScript object used as a map from key to
    child. *)
Record t := mk {
  type : ElementType;
  key : option string;
  children : list (option loc);
  dom : option node;
  _stem : option stemref;
  _unmounted : bool;
  _ownerElement : option loc;
  _keymap : option KeyIndex;
  _componentInstance : option nat
}.

Definition set_dom (v : option node) (e : t) : t :=
  mk (type e) (key e) (children e) v (_stem e) (_unmounted e)
     (_ownerElement e) (_keymap e) (_componentInstance e).

Definition set_stem (v : option stemref) (e : t) : t :=
  mk (type e) (key e) (children e) (dom e) v (_unmounted e)
     (_ownerElement e) (_keymap e) (_componentInstance e).

Definition set_ownerElement (v : option loc) (e : t) : t :=
  mk (type e) (key e) (children e) (dom e) (_stem e) (_unmounted e)
     v (_keymap e) (_componentInstance e).

Definition set_keymap (v : option KeyIndex) (e : t) : t :=
  mk (type e) (key e) (children e) (dom e) (_stem e) (_unmounted e)
     (_ownerElement e) v (_componentInstance e).

Definition set_componentInstance (v : option nat) (e : t) : t :=
  mk (type e) (key e) (children e) (dom e) (_stem e) (_unmounted e)
     (_ownerElement e) (_keymap e) v.
End El.

(** [obj[k]] converts [k] to a property name: an absent key reads the
    property called "undefined". *)
Definition property_name (k : option string) : string :=
  match k with
  | Some s => s
  | None => "undefined"
  end.

(** [AttrState], with the numbering the compiled [lib/stem.js] inlines
    (NEW = 1, REMOVED = 2, REPLACED = 3, STYLE_CHANGED = 5). *)
Inductive AttrState := UNCHANGED | NEW | REMOVED | REPLACED | STYLE_CHANGED.

Record AttrEntry := mkAttr {
  attr_key : string;
  attr_value : JsValue;
  attr_state : AttrState
}.

Record Difference := mkDifference {
  flags : Z;
  attr : list AttrEntry
}.

(** [DifferenceBits.REPLACE_ELEMENT]: the compiled [lib/stem.js] inlines it
    as [8]. *)
Definition REPLACE_ELEMENT : Z := 8.

Module Frame.
(** [PatchStackType].  The two child queues are [null] until the frame is
    parsed. *)
Record t := mk {
  context : Context;
  newElement : option loc;
  oldElement : option loc;
  newChildren : option (list (option loc));
  oldChildren : option (list (option loc));
  parsed : bool;
  difference : option Difference;
  root : option loc;
  isKeyedItem : bool
}.

Definition set_newChildren (v : option (list (option loc))) (f : t) : t :=
  mk (context f) (newElement f) (oldElement f) v (oldChildren f)
     (parsed f) (difference f) (root f) (isKeyedItem f).

Definition set_oldChildren (v : option (list (option loc))) (f : t) : t :=
  mk (context f) (newElement f) (oldElement f) (newChildren f) v
     (parsed f) (difference f) (root f) (isKeyedItem f).
End Frame.

Module Batch.
Record t := mk {
  root : option loc;
  parent : option loc;
  newElement : option loc;
  oldElement : option loc;
  isKeyedItem : bool;
  difference : Difference;
  context : Context
}.
End Batch.

(** ** Client code

    The callbacks handed to [render] and [enterUnsafeUpdateZone] are client
    code.  What matters to the stem is which of its methods they call back,
    in which order: a callback is the list of those calls. *)
Inductive Call :=
| CallRender (el : option loc) (callback : list Call)
             (context : Context) (updateOwnwer : bool)
| CallEnterUnsafeUpdateZone (cb : list Call).

Abbreviation Callback := (list Call) (only parsing).

(** The defaults of [render]'s optional parameters. *)
Definition default_callback : Callback := [].
Definition default_context : Context := [].
Definition default_updateOwnwer : bool := true.

(** ** The native tree *)

Record DomNode := mkNode {
  nodeType : Z;
  childNodes : list node;
  parentNode : option node
}.

Definition set_childNodes (v : list node) (n : DomNode) : DomNode :=
  mkNode (nodeType n) v (parentNode n).

Definition set_parentNode (v : option node) (n : DomNode) : DomNode :=
  mkNode (nodeType n) (childNodes n) v.

(** ** The log of outward calls *)
Inductive Event :=
| EvUpdateId
| EvInstantiateComponent (el : loc) (old : option loc)
| EvDiff (old new : option loc)
| EvFastCreateDomTree (ctx : Context) (root el : option loc) (result : node)
| EvCreateDomElement (root el : option loc) (result : node)
| EvAppendChild (parent child : node)
| EvReplaceChild (parent newChild oldChild : node)
| EvRemoveChild (parent child : node)
| EvAttach (d : option node) (el : loc)
| EvSetTextContent (d : node) (text : string)
| EvSetProperty (d : node) (k : string) (v : JsValue)
| EvRemoveAttribute (d : node) (k : string)
| EvSetStyle (d : option node) (k : string) (v : string)
| EvReplaceEvent (handler : nat) (d : option node) (name : string) (v : JsValue)
| EvRemoveEvent (handler : nat) (d : option node) (name : string)
| EvDidMount (el : option loc)
| EvWillUnmount (el : option loc)
| EvDidUpdate (el : option loc)
| EvCleanupTree (el : option loc)
| EvCallback (cb : Callback) (d : option node).

(** ** Program state *)

(** What collaborators can see and change: the element objects, the native
    nodes, and the [sharedEventHandler] field of every stem. *)
Record World := mkWorld {
  heap : gmap loc El.t;
  nodes : gmap node DomNode;
  handlers : gmap stemref nat
}.

Definition set_heap (h : gmap loc El.t) (w : World) : World :=
  mkWorld h (nodes w) (handlers w).

Definition set_nodes (n : gmap node DomNode) (w : World) : World :=
  mkWorld (heap w) n (handlers w).

Definition set_handlers (h : gmap stemref nat) (w : World) : World :=
  mkWorld (heap w) (nodes w) h.

(** The closure stored in [batchCallback] captures [old] and [callback]. *)
Record BatchCallback := mkBatchCallback {
  bc_old : option loc;
  bc_callback : Callback
}.

Module Stem.
(** The fields of the [FuelStem] under study ([this]); [self] is its own
    identity, the value a [_stem] field holds when it points to it. *)
Record t := mk {
  self : stemref;
  tree : option loc;
  _enabled : bool;
  batchs : list Batch.t;
  batchCallback : option BatchCallback;
  lock : bool;
  renderQueue : list (option loc * Callback)
}.

Definition set_tree (v : option loc) (s : t) : t :=
  mk (self s) v (_enabled s) (batchs s) (batchCallback s) (lock s)
     (renderQueue s).

Definition set_enabled (v : bool) (s : t) : t :=
  mk (self s) (tree s) v (batchs s) (batchCallback s) (lock s)
     (renderQueue s).

Definition set_batchs (v : list Batch.t) (s : t) : t :=
  mk (self s) (tree s) (_enabled s) v (batchCallback s) (lock s)
     (renderQueue s).

Definition set_batchCallback (v : option BatchCallback) (s : t) : t :=
  mk (self s) (tree s) (_enabled s) (batchs s) v (lock s) (renderQueue s).

Definition set_lock (v : bool) (s : t) : t :=
  mk (self s) (tree s) (_enabled s) (batchs s) (batchCallback s) v
     (renderQueue s).

Definition set_renderQueue (v : list (option loc * Callback)) (s : t) : t :=
  mk (self s) (tree s) (_enabled s) (batchs s) (batchCallback s) (lock s) v.

(** [new FuelStem(tree)] *)
Definition new (id : stemref) (tree : option loc) : t :=
  mk id tree true [] None false [].
End Stem.

Record State := mkState {
  world : World;
  log : list Event;
  this : Stem.t
}.

Definition set_world (w : World) (s : State) : State :=
  mkState w (log s) (this s).

Definition set_this (t : Stem.t) (s : State) : State :=
  mkState (world s) (log s) t.

Definition emit (e : Event) (s : State) : State :=
  mkState (world s) (log s ++ [e]) (this s).

(** ** Computations: state, exceptions, divergence *)

Inductive JsError :=
| TypeError (what : string)
| Error (message : string).

(** [Throw] keeps the state at the moment of the throw.  [OutOfFuel] is a
    loop or a recursion that did not finish within the budget.  [Dangling] is
    a reference to an object the store does not hold, which no JavaScript
    heap has. *)
Inductive Result (A : Type) :=
| Ok (a : A) (s : State)
| Throw (e : JsError) (s : State)
| OutOfFuel
| Dangling.

Arguments Ok {A} a s.
Arguments Throw {A} e s.
Arguments OutOfFuel {A}.
Arguments Dangling {A}.

Definition M (A : Type) : Type := State → Result A.

Definition ret {A} (a : A) : M A := λ s, Ok a s.

Definition bind {A B} (m : M A) (k : A → M B) : M B :=
  λ s, match m s with
       | Ok a s' => k a s'
       | Throw e s' => Throw e s'
       | OutOfFuel => OutOfFuel
       | Dangling => Dangling
       end.

Declare Scope jsm_scope.
Delimit Scope jsm_scope with jsm.
Notation "x <- m ;; k" := (bind m (λ x, k))
  (at level 100, m at next level, right associativity) : jsm_scope.
Notation "m ;;; k" := (bind m (λ _, k))
  (at level 100, right associativity) : jsm_scope.
Local Open Scope jsm_scope.

Definition throw {A} (e : JsError) : M A := λ s, Throw e s.
Definition get_state : M State := λ s, Ok s s.
Definition modify (f : State → State) : M unit := λ s, Ok tt (f s).
Definition say (e : Event) : M unit := modify (emit e).

(** Field access through a reference. *)
Definition deref (l : loc) : M El.t :=
  λ s, match heap (world s) !! l with
       | Some e => Ok e s
       | None => Dangling
       end.

Definition update_el (l : loc) (f : El.t → El.t) : M unit :=
  modify (λ s, set_world (set_heap (alter f l (heap (world s))) (world s)) s).

Definition deref_node (d : node) : M DomNode :=
  λ s, match nodes (world s) !! d with
       | Some n => Ok n s
       | None => Dangling
       end.

(** Truthiness of a reference: [null] and [undefined] are falsy, every
    object is truthy. *)
Definition truthy {A} (x : option A) : bool :=
  match x with
  | Some _ => true
  | None => false
  end.

(** [x.f] where [x] may be [null]: a [TypeError]. *)
Definition non_null {A} (what : string) (x : option A) : M A :=
  match x with
  | Some a => ret a
  | None => throw (TypeError what)
  end.

(** ** Collaborators

    The functions [stem.ts] imports from the rest of the repository.  Those
    that mutate elements or native nodes return the new [World]; the others
    read it.  They do not call back into the stem under study. *)
Record Collaborators := mkCollaborators {
  (* FuelElementView, from ./element *)
  isComponent : World → loc → bool;
  instantiateComponent :
    Context → loc → option loc → World → (option loc * Context) * World;
  getComponentRenderedTree : World → loc → option loc;
  stripComponent : World → option loc → option loc;
  createDomElement : option loc → option loc → World → node * World;
  attachFuelElementToNode : option node → loc → World → World;
  getTextValueOf : World → loc → string;
  invokeDidMount : option loc → World → World;
  invokeWillUnmount : option loc → World → World;
  invokeDidUpdate : option loc → World → World;
  (* ./difference *)
  diff : World → option loc → option loc → Difference;
  isCreateChildren : Difference → bool;
  isNewElement : Difference → bool;
  isRemoveElement : Difference → bool;
  isReplaceElement : Difference → bool;
  isTextChanged : Difference → bool;
  (* ./tree *)
  fastCreateDomTree : Context → option loc → option loc → World → node * World;
  cleanupTree : option loc → World → World;
  (* DOMEvents, from ./type *)
  DOMEvents : string → bool;
  (* the FuelElement interface, from ./type: what [e[k]] reads on an element,
     own and inherited properties alike *)
  elementProperty : World → loc → string → option Found
}.

(** Modelled from the spec: [invariant] of [./util], which is not among the
    sources.  Spec, sections 3 and 7: the walk is fatal "if the node is
    missing at diff time"; the one call site passes [!oldElement.dom], so the
    assertion fires when its first argument is truthy. *)
Definition invariant (condition : bool) (message : string) : M unit :=
  if condition then throw (Error message) else ret tt.

(** ** Arrays *)

(** [Array.prototype.shift]: [undefined] on an empty array.  The arrays at
    hand hold elements or [null], and the source only tests the result for
    truthiness. *)
Definition shift {A} (q : list (option A)) : option A * list (option A) :=
  match q with
  | [] => (None, [])
  | x :: q' => (x, q')
  end.

(** [Array.prototype.indexOf] for an element reference: the first position
    holding that very object, [None] for [-1]. *)
Fixpoint indexOf (q : list (option loc)) (x : loc) : option nat :=
  match q with
  | [] => None
  | y :: q' => if decide (y = Some x) then Some 0 else S <$> indexOf q' x
  end.

(** [indexOf] for what a key index yielded: a value that is no element is
    in no queue of elements. *)
Definition index_of_found (q : list (option loc)) (x : Found)
  : option (nat * loc) :=
  match x with
  | FoundElement l => (λ i, (i, l)) <$> indexOf q l
  | FoundOther => None
  end.

(** The local variables of [FuelStem.patch].  Frames are objects: [stack]
    and [parent] hold references into [frames].  The head of [stack] is the
    top of the JavaScript array (its last item). *)
Record PatchLocals := mkLocals {
  stack : list frameref;
  frames : list Frame.t;
  parent : option frameref
}.

Definition frame_at (fs : list Frame.t) (r : frameref) : M Frame.t :=
  λ s, match fs !! r with
       | Some f => Ok f s
       | None => Dangling
       end.

Section Reconciler.
Context (C : Collaborators).

Definition call_world (f : World → World) : M unit :=
  modify (λ s, set_world (f (world s)) s).

Definition call_world_ret {A} (f : World → A * World) : M A :=
  λ s, let '(a, w) := f (world s) in Ok a (set_world w s).

Definition read_world {A} (f : World → A) : M A :=
  λ s, Ok (f (world s)) s.

Definition instantiate (context : Context) (el : loc) (old : option loc)
  : M (option loc * Context) :=
  say (EvInstantiateComponent el old);;;
  call_world_ret (instantiateComponent C context el old).

(** *** [patchComponent] *)

(** First loop (lines 273-275): the old element has another type. *)
Fixpoint remount_loop (fuel : nat) (context : Context)
  (newElement : option loc) : M (Context * option loc) :=
  match newElement with
  | None => ret (context, None)
  | Some n =>
    c <- read_world (λ w, isComponent C w n);;
    if c : bool then
      match fuel with
      | 0 => λ _, OutOfFuel
      | S fuel' =>
        r <- instantiate context n None;;
        let '(newElement', context') := r in
        remount_loop fuel' context' newElement'
      end
    else ret (context, newElement)
  end.

(** Second loop (lines 277-289): both sides are unwrapped in lock-step. *)
Fixpoint reuse_loop (fuel : nat) (context : Context)
  (newElement oldElement : option loc) : M (Context * option loc * option loc) :=
  match newElement with
  | None => ret (context, None, oldElement)
  | Some n =>
    c <- read_world (λ w, isComponent C w n);;
    if c : bool then
      match fuel with
      | 0 => λ _, OutOfFuel
      | S fuel' =>
        match oldElement with
        | Some o =>
          ne <- deref n;;
          oe <- deref o;;
          if decide (El.type ne = El.type oe)
          then update_el n (El.set_componentInstance (El._componentInstance oe))
          else ret tt
        | None => ret tt
        end;;;
        revealedOldElement <-
          match oldElement with
          | Some o =>
            co <- read_world (λ w, isComponent C w o);;
            if co : bool
            then read_world (λ w, getComponentRenderedTree C w o)
            else ret oldElement
          | None => ret oldElement
          end;;
        r <- instantiate context n oldElement;;
        let '(stripedNewTree, newContext) := r in
        reuse_loop fuel' newContext stripedNewTree revealedOldElement
      end
    else ret (context, newElement, oldElement)
  end.

Definition patchComponent (fuel : nat) (context : Context)
  (newElement oldElement : option loc) : M (Context * option loc * option loc) :=
  expanded <-
    match newElement with
    | Some n =>
      c <- read_world (λ w, isComponent C w n);;
      if c : bool then
        otherType <-
          match oldElement with
          | Some o =>
            oe <- deref o;;
            ne <- deref n;;
            ret (bool_decide (El.type oe ≠ El.type ne))
          | None => ret false
          end;;
        if otherType : bool then
          r <- remount_loop fuel context newElement;;
          let '(context', newElement') := r in
          ret (context', newElement', oldElement)
        else reuse_loop fuel context newElement oldElement
      else ret (context, newElement, oldElement)
    | None => ret (context, newElement, oldElement)
    end;;
  let '(context, newElement, oldElement) := expanded in
  oldElement <-
    match oldElement with
    | Some o =>
      co <- read_world (λ w, isComponent C w o);;
      if co : bool
      then read_world (λ w, stripComponent C w oldElement)
      else ret oldElement
    | None => ret None
    end;;
  ret (context, newElement, oldElement).

(** *** [createNextStackState] (the Keyed Child Matcher)

    [prev] and [parentState] are references to frames; the two [shift]s and
    the [splice] mutate [prev]'s queues in place.  The fourth parameter of
    the source ([oldElement]) is never read. *)

(** [prev.oldChildren.shift()] *)
Definition shift_oldChildren (prev : frameref) (fs : list Frame.t)
  : M (option loc * list Frame.t) :=
  prevF <- frame_at fs prev;;
  q <- non_null "prev.oldChildren" (Frame.oldChildren prevF);;
  let '(oldChild, q') := shift q in
  ret (oldChild, <[prev := Frame.set_oldChildren (Some q') prevF]> fs).

(** The names every ordinary object inherits from [Object.prototype]
    (ECMAScript, Annex B included).  They hold functions.  [__proto__], an
    accessor, is dealt with apart. *)
Definition object_prototype_names : list string :=
  [ "constructor"; "hasOwnProperty"; "isPrototypeOf"; "propertyIsEnumerable";
    "toLocaleString"; "toString"; "valueOf";
    "__defineGetter__"; "__defineSetter__";
    "__lookupGetter__"; "__lookupSetter__" ].

(** [index[k]]: an own property first, then what is inherited.  Through
    [Object.prototype] (which elements, ordinary objects, inherit from as
    well) the name [__proto__] reads the prototype of [index] itself. *)
Definition read_index (w : World) (index : KeyIndex) (k : string)
  : option Found :=
  match entries index !! k with
  | Some l => Some (FoundElement l)
  | None =>
    match inherits index with
    | ObjectPrototype =>
      if decide (k = "__proto__") then Some FoundOther
      else if decide (k ∈ object_prototype_names) then Some FoundOther
      else None
    | ElementPrototype e =>
      if decide (k = "__proto__") then Some (FoundElement e)
      else elementProperty C w e k
    | NoPrototype => None
    end
  end.

(** [index = {}; index[k] = child] (lines 223-224): an object literal with
    one property of its own, except that assigning to [__proto__] sets the
    prototype and adds no property. *)
Definition literal_with (k : string) (child : loc) : KeyIndex :=
  if decide (k = "__proto__") then mkIndex ∅ (ElementPrototype child)
  else mkIndex {[ k := child ]} ObjectPrototype.

(** The guard of line 220:
    [parentOldElement && parentOldElement._keymap && newChild &&
     parentOldElement._keymap[newChild.key]], as the value it leaves. *)
Definition keyed_match (parentOldElement newChild : option loc)
  : M (option Found) :=
  match parentOldElement with
  | None => ret None
  | Some po =>
    poe <- deref po;;
    match El._keymap poe with
    | None => ret None
    | Some keymap =>
      match newChild with
      | None => ret None
      | Some nc =>
        nce <- deref nc;;
        read_world (λ w, read_index w keymap (property_name (El.key nce)))
      end
    end
  end.

(** Lines 213-241: the new child is popped and its old counterpart chosen.
    The result is [(newChild, oldChild, isKeyedItem)] and the frames after
    the queue updates. *)
Definition pair_children (parentState : option frameref) (prev : frameref)
  (fs : list Frame.t)
  : M (option loc * option loc * bool * list Frame.t) :=
  prevF <- frame_at fs prev;;
  nq <- non_null "prev.newChildren" (Frame.newChildren prevF);;
  let '(newChild, nq') := shift nq in
  let fs := <[prev := Frame.set_newChildren (Some nq') prevF]> fs in
  match parentState with
  | Some ps =>
    parentF <- frame_at fs ps;;
    let parentNewElement := Frame.newElement parentF in
    let parentOldElement := Frame.oldElement parentF in
    hit <- keyed_match parentOldElement newChild;;
    match hit, newChild with
    | Some found, Some nc =>
      match parentNewElement with
      | Some pn =>
        pne <- deref pn;;
        match El._keymap pne with
        | None =>
          nce <- deref nc;;
          update_el pn
            (El.set_keymap (Some (literal_with (property_name (El.key nce)) nc)))
        | Some _ => ret tt
        end
      | None => ret tt
      end;;;
      prevF' <- frame_at fs prev;;
      oq <- non_null "prev.oldChildren" (Frame.oldChildren prevF');;
      match index_of_found oq found with
      | Some (index, oldChild) =>
        ret (newChild, Some oldChild, true,
             <[prev := Frame.set_oldChildren (Some (delete index oq)) prevF']> fs)
      | None =>
        r <- shift_oldChildren prev fs;;
        let '(oldChild', fs') := r in
        ret (newChild, oldChild', false, fs')
      end
    | _, _ =>
      r <- shift_oldChildren prev fs;;
      let '(oldChild, fs') := r in
      ret (newChild, oldChild, false, fs')
    end
  | None =>
    r <- shift_oldChildren prev fs;;
    let '(oldChild, fs') := r in
    ret (newChild, oldChild, false, fs')
  end.

Definition createNextStackState (context : Context)
  (parentState : option frameref) (prev : frameref) (oldElement : option loc)
  (fs : list Frame.t) : M (Frame.t * list Frame.t) :=
  prevF <- frame_at fs prev;;
  paired <- pair_children parentState prev fs;;
  let '(newChild, oldChild, isKeyedItem, fs) := paired in
  let root := Frame.root prevF in
  unwrapped <-
    match newChild with
    | Some nc =>
      nce <- deref nc;;
      if El._unmounted nce then ret (None, root)
      else if truthy (El._stem nce) then ret (newChild, newChild)
      else ret (newChild, root)
    | None => ret (None, root)
    end;;
  let '(newChild, root) := unwrapped in
  match newChild with
  | Some nc =>
    nce <- deref nc;;
    if truthy (El._ownerElement nce) then ret tt
    else
      pn <- non_null "prev.newElement" (Frame.newElement prevF);;
      pne <- deref pn;;
      update_el nc (El.set_ownerElement (El._ownerElement pne))
  | None => ret tt
  end;;;
  ret (Frame.mk context newChild oldChild None None false None root isKeyedItem,
       fs).

(** *** [FuelStem.patch] *)

Definition makeInitialStackState (context : Context)
  (newElement oldElement : option loc) : list Frame.t :=
  [Frame.mk context newElement oldElement None None false None newElement false].

Definition push_batch (b : Batch.t) : M unit :=
  modify (λ s, set_this (Stem.set_batchs (Stem.batchs (this s) ++ [b]) (this s)) s).

Definition children_slice (el : option loc) : M (list (option loc)) :=
  match el with
  | Some l => e <- deref l;; ret (El.children e)
  | None => ret []
  end.

(** Lines 428-463: what the walk does with the pair that component expansion
    left.  [None] is the [continue] of line 429; otherwise the frames after
    the writes to [next] and the values of the locals [context] and
    [oldElement]. *)
Definition visit_pair (L : PatchLocals) (top : frameref) (next : Frame.t)
  (context : Context) (newElement oldElement : option loc)
  : M (option (list Frame.t * Context * option loc)) :=
  match newElement, oldElement with
  | None, None => ret None
  | _, _ =>
    match newElement, oldElement with
    | Some n, Some o =>
      oe <- deref o;;
      update_el n (El.set_stem (El._stem oe))
    | _, _ => ret tt
    end;;;
    let fs :=
      <[top := Frame.mk context newElement oldElement (Frame.newChildren next)
                 (Frame.oldChildren next) (Frame.parsed next)
                 (Frame.difference next) (Frame.root next)
                 (Frame.isKeyedItem next)]> (frames L) in
    rooted <-
      match newElement with
      | Some n => ne <- deref n;; ret (truthy (El._stem ne))
      | None => ret false
      end;;
    let currentRoot := if rooted : bool then newElement else Frame.root next in
    say (EvDiff oldElement newElement);;;
    difference <- read_world (λ w, diff C w oldElement newElement);;
    match oldElement with
    | Some o =>
      oe <- deref o;;
      invariant (negb (truthy (El.dom oe)))
        "Dom element was accidentally removed."
    | None => ret tt
    end;;;
    batchParent <-
      match parent L with
      | Some p => parentF <- frame_at fs p;; ret (Frame.newElement parentF)
      | None => ret None
      end;;
    push_batch
      (Batch.mk currentRoot batchParent newElement oldElement
         (Frame.isKeyedItem next) difference context);;;
    newChildren <- children_slice newElement;;
    oldChildren <- children_slice oldElement;;
    let next' :=
      Frame.mk context newElement oldElement (Some newChildren)
        (Some oldChildren) true (Some difference) (Frame.root next)
        (Frame.isKeyedItem next) in
    ret (Some (<[top := next']> fs, context, oldElement))
  end.

(** Lines 424-464: the body of [if (!next.parsed)]. *)
Definition parse_frame (fuel : nat) (L : PatchLocals) (top : frameref)
  (next : Frame.t) : M (option (list Frame.t * Context * option loc)) :=
  r <- patchComponent fuel (Frame.context next) (Frame.newElement next)
         (Frame.oldElement next);;
  let '(context, newElement, oldElement) := r in
  visit_pair L top next context newElement oldElement.

(** The test of lines 466-469, short-circuits included. *)
Definition wants_children (next : Frame.t) : M bool :=
  nq <- non_null "next.newChildren" (Frame.newChildren next);;
  remaining <-
    match nq with
    | _ :: _ => ret true
    | [] =>
      oq <- non_null "next.oldChildren" (Frame.oldChildren next);;
      ret (match oq with [] => false | _ :: _ => true end)
    end;;
  if remaining : bool then
    ret match Frame.difference next with
        | None => true
        | Some d =>
          bool_decide (flags d = 0%Z) || bool_decide (flags d = REPLACE_ELEMENT)
        end
  else ret false.

(** Lines 466-473. *)
Definition expand_frame (L : PatchLocals) (top : frameref)
  (rest : list frameref) (fs : list Frame.t) (context : Context)
  (oldElement : option loc) : M PatchLocals :=
  next <- frame_at fs top;;
  go <- wants_children next;;
  if go : bool then
    r <- createNextStackState context (parent L) top oldElement fs;;
    let '(child, fs') := r in
    ret (mkLocals (length fs' :: top :: rest) (fs' ++ [child]) (Some top))
  else ret (mkLocals rest fs (parent L)).

(** One turn of the [while (stack.length)] loop, lines 419-473. *)
Definition patch_iteration (fuel : nat) (L : PatchLocals) : M PatchLocals :=
  match stack L with
  | [] => ret L
  | top :: rest =>
    next <- frame_at (frames L) top;;
    if Frame.parsed next then
      expand_frame L top rest (frames L) (Frame.context next)
        (Frame.oldElement next)
    else
      r <- parse_frame fuel L top next;;
      match r with
      | None => ret (mkLocals rest (frames L) (parent L))
      | Some (fs, context, oldElement) =>
        expand_frame L top rest fs context oldElement
      end
  end.

Fixpoint patch_loop (turns fuel : nat) (L : PatchLocals) : M unit :=
  match stack L with
  | [] => ret tt
  | _ :: _ =>
    match turns with
    | 0 => λ _, OutOfFuel
    | S turns' =>
      L' <- patch_iteration fuel L;;
      patch_loop turns' fuel L'
    end
  end.

Definition patch (turns fuel : nat) (newTree : option loc) (context : Context)
  : M unit :=
  modify (λ s, set_this (Stem.set_batchs [] (this s)) s);;;
  s <- get_state;;
  patch_loop turns fuel
    (mkLocals [0] (makeInitialStackState context newTree (Stem.tree (this s)))
       None).

(** *** Native node operations

    The host's tree, as far as [stem.ts] reads it back: node types, child
    lists and parent links.  Calls are logged and take their effect as the
    DOM standard describes it for a call that succeeds; the host's own
    exceptions are outside the model. *)

Definition modify_nodes (f : gmap node DomNode → gmap node DomNode) : M unit :=
  modify (λ s, set_world (set_nodes (f (nodes (world s))) (world s)) s).

(** Taking [c] out of the tree. *)
Definition detach (c : node) (ns : gmap node DomNode) : gmap node DomNode :=
  alter (set_parentNode None) c
    ((λ n, set_childNodes (filter (λ x, x ≠ c) (childNodes n)) n) <$> ns).

Definition dom_appendChild (p c : node) : M unit :=
  say (EvAppendChild p c);;;
  modify_nodes (λ ns,
    alter (λ n, set_childNodes (childNodes n ++ [c]) n) p
      (alter (set_parentNode (Some p)) c (detach c ns))).

Definition dom_removeChild (p c : node) : M unit :=
  say (EvRemoveChild p c);;;
  modify_nodes (detach c).

Definition dom_replaceChild (p newChild oldChild : node) : M unit :=
  say (EvReplaceChild p newChild oldChild);;;
  modify_nodes (λ ns,
    alter (set_parentNode None) oldChild
      (alter (set_parentNode (Some p)) newChild
         (alter (λ n, set_childNodes
                        ((λ x, if decide (x = oldChild) then newChild else x)
                           <$> childNodes n) n) p
            (detach newChild ns)))).

(** [d.children]: the live collection of the child nodes that are elements
    ([nodeType] 1). *)
Definition element_children (ns : gmap node DomNode) (d : node) : list node :=
  match ns !! d with
  | Some n => filter (λ c, nodeType <$> ns !! c = Some 1%Z) (childNodes n)
  | None => []
  end.

(** [key.slice(2).toLowerCase()], on ASCII letters. *)
Definition lower_ascii (c : Ascii.ascii) : Ascii.ascii :=
  let n := Ascii.nat_of_ascii c in
  if decide (65 ≤ n ∧ n ≤ 90)%nat then Ascii.ascii_of_nat (n + 32)%nat else c.

Fixpoint toLowerCase (s : string) : string :=
  match s with
  | EmptyString => EmptyString
  | String c r => String (lower_ascii c) (toLowerCase r)
  end.

Definition slice2 (s : string) : string :=
  match s with
  | String _ (String _ r) => r
  | _ => EmptyString
  end.

(** The indices of a string from [i] on, in decimal, each with the
    one-character string it holds. *)
Fixpoint characters (i : nat) (s : string) : list (string * string) :=
  match s with
  | EmptyString => []
  | String c r => (pretty i, String c EmptyString) :: characters (S i) r
  end.

(** What [for (const k in value)] visits, in order, with [value[k]] beside
    each name. *)
Definition enumerate (value : JsValue) : list (string * string) :=
  match value with
  | JsString text => characters 0 text
  | JsScalar _ => []
  | JsObject props => props
  end.

Fixpoint for_each {A} (f : A → M unit) (l : list A) : M unit :=
  match l with
  | [] => ret tt
  | x :: l' => f x;;; for_each f l'
  end.

(** *** The Batch Applier *)

(** Lines 83-86: [while (children.length) newDom.appendChild(children[0])]. *)
Fixpoint splice_children (fuel : nat) (oldDom newDom : node) : M unit :=
  s <- get_state;;
  match element_children (nodes (world s)) oldDom with
  | [] => ret tt
  | c :: _ =>
    match fuel with
    | 0 => λ _, OutOfFuel
    | S fuel' => dom_appendChild newDom c;;; splice_children fuel' oldDom newDom
    end
  end.

(** [e.dom] for a possibly absent [e] *)
Definition dom_of (what : string) (e : option loc) : M (option node) :=
  l <- non_null what e;;
  x <- deref l;;
  ret (El.dom x).

Definition replaceElement (fuel : nat) (root parent oldElement newElement : option loc)
  (isKeyedItems : bool) : M unit :=
  newDom <- call_world_ret (createDomElement C root newElement);;
  say (EvCreateDomElement root newElement newDom);;;
  oldDom <- dom_of "oldElement" oldElement;;
  od <- non_null "oldDom" oldDom;;
  odn <- deref_node od;;
  (if decide (nodeType odn = 1%Z) then
     ndn <- deref_node newDom;;
     if decide (nodeType ndn = 1%Z) then splice_children fuel od newDom
     else ret tt
   else ret tt);;;
  parentDom <- dom_of "parent" parent;;
  pd <- non_null "parentDom" parentDom;;
  if negb isKeyedItems then dom_replaceChild pd newDom od
  else dom_removeChild pd od;;; dom_appendChild pd newDom.

Definition attach (d : option node) (el : loc) : M unit :=
  say (EvAttach d el);;;
  call_world (attachFuelElementToNode C d el).

Definition copyElementRef (root oldElement newElement : option loc)
  (isKeyedItem : bool) : M unit :=
  n <- non_null "newElement" newElement;;
  oldDom <- dom_of "oldElement" oldElement;;
  update_el n (El.set_dom oldDom);;;
  attach oldDom n;;;
  if isKeyedItem then
    newDom <- dom_of "newElement" newElement;;
    d <- non_null "newElement.dom" newDom;;
    dn <- deref_node d;;
    p <- non_null "newElement.dom.parentNode" (parentNode dn);;
    dom_appendChild p d
  else ret tt.

(** [strippedRoot._stem.getEventHandler()] *)
Definition root_event_handler (strippedRoot : option loc) : M nat :=
  r <- non_null "strippedRoot" strippedRoot;;
  re <- deref r;;
  st <- non_null "strippedRoot._stem" (El._stem re);;
  s <- get_state;;
  non_null "getEventHandler()" (handlers (world s) !! st).

Definition updateElement (diff : Difference) (rootElement newElement : option loc)
  : M unit :=
  domElement <- dom_of "newElement" newElement;;
  strippedRoot <- read_world (λ w, stripComponent C w rootElement);;
  for_each (λ a,
    let key := attr_key a in
    let value := attr_value a in
    match attr_state a with
    | NEW | REPLACED =>
      if DOMEvents C key then
        h <- root_event_handler strippedRoot;;
        say (EvReplaceEvent h domElement (toLowerCase (slice2 key)) value)
      else
        d <- non_null "domElement" domElement;;
        say (EvSetProperty d key value)
    | STYLE_CHANGED =>
      for_each (λ kv, say (EvSetStyle domElement (fst kv) (snd kv)))
        (enumerate value)
    | REMOVED =>
      if DOMEvents C key then
        h <- root_event_handler strippedRoot;;
        say (EvRemoveEvent h domElement (toLowerCase (slice2 key)))
      else
        d <- non_null "domElement" domElement;;
        say (EvRemoveAttribute d key)
    | UNCHANGED => ret tt
    end) (attr diff).

Definition build_tree (context : Context) (root el : option loc) : M node :=
  tree <- call_world_ret (fastCreateDomTree C context root el);;
  say (EvFastCreateDomTree context root el tree);;;
  ret tree.

Definition didMount (el : option loc) : M unit :=
  say (EvDidMount el);;; call_world (invokeDidMount C el).

Definition willUnmount (el : option loc) : M unit :=
  say (EvWillUnmount el);;; call_world (invokeWillUnmount C el).

Definition didUpdate (el : option loc) : M unit :=
  say (EvDidUpdate el);;; call_world (invokeDidUpdate C el).

(** The body of the [for] loop of [update], lines 156-190. *)
Definition apply_batch (fuel : nat) (b : Batch.t) : M unit :=
  let parent := Batch.parent b in
  let newElement := Batch.newElement b in
  let oldElement := Batch.oldElement b in
  let isKeyedItem := Batch.isKeyedItem b in
  let difference := Batch.difference b in
  let root := Batch.root b in
  let context := Batch.context b in
  (if isNewElement C difference then
     if truthy parent then
       parentDom <- dom_of "parent" parent;;
       pd <- non_null "parent.dom" parentDom;;
       tree <- build_tree context root newElement;;
       dom_appendChild pd tree;;;
       didMount newElement
     else
       tree <- build_tree context root newElement;;
       if truthy oldElement then
         parentDom <- dom_of "parent" parent;;
         pd <- non_null "parent.dom" parentDom;;
         dom_appendChild pd tree;;;
         didMount newElement;;;
         willUnmount oldElement
       else ret tt
   else if isRemoveElement C difference then
     willUnmount oldElement;;;
     oldDom <- dom_of "oldElement" oldElement;;
     od <- non_null "oldElement.dom" oldDom;;
     odn <- deref_node od;;
     p <- non_null "oldElement.dom.parentNode" (parentNode odn);;
     dom_removeChild p od;;;
     o <- non_null "oldElement" oldElement;;
     update_el o (El.set_stem None)
   else if isReplaceElement C difference then
     willUnmount oldElement;;;
     replaceElement fuel root parent oldElement newElement isKeyedItem;;;
     didMount newElement
   else if isTextChanged C difference then
     n <- non_null "newElement" newElement;;
     oldDom <- dom_of "oldElement" oldElement;;
     update_el n (El.set_dom oldDom);;;
     attach oldDom n;;;
     text <- read_world (λ w, getTextValueOf C w n);;
     newDom <- dom_of "newElement" newElement;;
     d <- non_null "newElement.dom" newDom;;
     say (EvSetTextContent d text);;;
     didUpdate newElement
   else
     copyElementRef root oldElement newElement isKeyedItem;;;
     updateElement difference root newElement;;;
     didUpdate newElement);;;
  if isCreateChildren C difference then
    _ <- build_tree context root newElement;; ret tt
  else ret tt.

Definition update (fuel : nat) (batches : list Batch.t) : M unit :=
  for_each (apply_batch fuel) batches.

(** *** [FuelStem]

    [budget] bounds each loop of a patch cycle (the walk, the component
    loops, the child splice); [depth] bounds the nesting of calls between the
    stem and client callbacks. *)

Definition modify_this (f : Stem.t → Stem.t) : M unit :=
  modify (λ s, set_this (f (this s)) s).

Definition registerOwner (owner : option loc) : M unit :=
  modify_this (Stem.set_tree owner).

Definition owner : M (option loc) :=
  s <- get_state;; ret (Stem.tree (this s)).

Definition setEventHandler (handler : nat) : M unit :=
  modify (λ s,
    set_world (set_handlers (<[Stem.self (this s) := handler]> (handlers (world s)))
                 (world s)) s).

Definition getEventHandler : M (option nat) :=
  s <- get_state;; ret (handlers (world s) !! Stem.self (this s)).

Definition unmountComponent (fuelElement : option loc) : M unit :=
  say (EvCleanupTree fuelElement);;;
  call_world (cleanupTree C fuelElement).

(** [this.tree.dom] *)
Definition tree_dom : M (option node) :=
  s <- get_state;;
  dom_of "this.tree" (Stem.tree (this s)).

Definition attach_tree (el : option loc) (updateOwner : bool) : M node :=
  domTree <- build_tree [] el el;;
  (if updateOwner then modify_this (Stem.set_tree el) else ret tt);;;
  ret domTree.

Section Stem.
Context (budget : nat).

Fixpoint render (depth : nat) (el : option loc) (callback : Callback)
  (context : Context) (updateOwnwer : bool) {struct depth} : M unit :=
  match depth with
  | 0 => λ _, OutOfFuel
  | S depth' =>
    s <- get_state;;
    if negb (Stem._enabled (this s)) then
      d <- tree_dom;;
      invoke depth' callback d
    else if Stem.lock (this s) then
      modify_this (λ t, Stem.set_renderQueue (Stem.renderQueue t ++ [(el, callback)]) t)
    else
      say EvUpdateId;;;
      if truthy (Stem.tree (this s)) then
        modify_this (Stem.set_lock true);;;
        patch budget budget el context;;;
        s' <- get_state;;
        let old := Stem.tree (this s') in
        (if updateOwnwer then modify_this (Stem.set_tree el) else ret tt);;;
        modify_this (Stem.set_batchCallback (Some (mkBatchCallback old callback)));;;
        renderAtAnimationFrame depth'
      else
        d <- attach_tree el updateOwnwer;;
        invoke depth' callback (Some d)
  end

(** Calling a client callback with one argument. *)
with invoke (depth : nat) (callback : Callback) (arg : option node)
  {struct depth} : M unit :=
  match depth with
  | 0 => λ _, OutOfFuel
  | S depth' =>
    say (EvCallback callback arg);;;
    for_each (λ call,
      match call with
      | CallRender el cb context updateOwnwer =>
        render depth' el cb context updateOwnwer
      | CallEnterUnsafeUpdateZone cb => enterUnsafeUpdateZone depth' cb
      end) callback
  end

with enterUnsafeUpdateZone (depth : nat) (cb : Callback) {struct depth}
  : M unit :=
  match depth with
  | 0 => λ _, OutOfFuel
  | S depth' =>
    modify_this (Stem.set_enabled false);;;
    invoke depth' cb None;;;
    modify_this (Stem.set_enabled true)
  end

with renderAtAnimationFrame (depth : nat) {struct depth} : M unit :=
  match depth with
  | 0 => λ _, OutOfFuel
  | S depth' =>
    s <- get_state;;
    match Stem.batchs (this s) with
    | [] => ret tt
    | _ :: _ =>
      update budget (Stem.batchs (this s));;;
      modify_this (Stem.set_batchs []);;;
      s' <- get_state;;
      match Stem.batchCallback (this s') with
      | Some bc => run_batchCallback depth' bc
      | None => ret tt
      end;;;
      modify_this (Stem.set_batchCallback None)
    end
  end

(** The closure of lines 387-392. *)
with run_batchCallback (depth : nat) (bc : BatchCallback) {struct depth}
  : M unit :=
  match depth with
  | 0 => λ _, OutOfFuel
  | S depth' =>
    say (EvCleanupTree (bc_old bc));;;
    call_world (cleanupTree C (bc_old bc));;;
    d <- tree_dom;;
    invoke depth' (bc_callback bc) d;;;
    modify_this (Stem.set_lock false);;;
    drainRenderQueue depth'
  end

with drainRenderQueue (depth : nat) {struct depth} : M unit :=
  match depth with
  | 0 => λ _, OutOfFuel
  | S depth' =>
    s <- get_state;;
    match Stem.renderQueue (this s) with
    | [] => ret tt
    | (element, cb) :: rest =>
      modify_this (Stem.set_renderQueue rest);;;
      render depth' element cb default_context default_updateOwnwer
    end
  end.

End Stem.

End Reconciler.

(** ** A sample set of collaborators

    Host elements only; one native node per element.  Used to run the model
    on concrete trees.  Of the difference bits only [REPLACE_ELEMENT] is
    known from the sources; the other values here are this sample's own. *)
Module Sample.

Definition NEW_ELEMENT : Z := 1.
Definition REMOVE_ELEMENT : Z := 2.
Definition TEXT_CHANGED : Z := 4.
Definition CREATE_CHILDREN : Z := 16.

Definition has_bit (b : Z) (d : Difference) : bool :=
  negb (Z.land (flags d) b =? 0)%Z.

Definition host_diff (w : World) (old new : option loc) : Difference :=
  match old, new with
  | None, _ => mkDifference NEW_ELEMENT []
  | Some _, None => mkDifference REMOVE_ELEMENT []
  | Some o, Some n =>
    match heap w !! o, heap w !! n with
    | Some oe, Some ne =>
      if decide (El.type oe = El.type ne) then mkDifference 0 []
      else mkDifference REPLACE_ELEMENT []
    | _, _ => mkDifference 0 []
    end
  end.

Definition fresh_node (w : World) : node :=
  map_fold (λ k _ acc, Nat.max (S k) acc) 0%nat (nodes w).

Definition create_node (el : option loc) (w : World) : node * World :=
  let d := fresh_node w in
  (d,
   set_heap
     match el with
     | Some l => alter (El.set_dom (Some d)) l (heap w)
     | None => heap w
     end
     (set_nodes (<[d := mkNode 1 [] None]> (nodes w)) w)).

(** The properties of a sample element: the fields of [El.t] and what
    every object inherits.  [key] and [type] are strings, truthy when not
    empty; [children] is an array. *)
Definition element_property (w : World) (l : loc) (k : string)
  : option Found :=
  match heap w !! l with
  | Some e =>
    if decide (k = "_ownerElement") then FoundElement <$> El._ownerElement e
    else if decide (k = "children") then Some FoundOther
    else if decide (k = "type") then Some FoundOther
    else if decide (k = "key") then
      match El.key e with
      | Some (String _ _) => Some FoundOther
      | _ => None
      end
    else if decide (k = "dom") then (λ _, FoundOther) <$> El.dom e
    else if decide (k = "_stem") then (λ _, FoundOther) <$> El._stem e
    else if decide (k = "_keymap") then (λ _, FoundOther) <$> El._keymap e
    else if decide (k = "_componentInstance")
    then (λ _, FoundOther) <$> El._componentInstance e
    else if decide (k ∈ "__proto__" :: object_prototype_names)
    then Some FoundOther
    else None
  | None => None
  end.

Definition collaborators : Collaborators := {|
  isComponent := λ w l,
    match heap w !! l with
    | Some e => if El.type e is ComponentClass _ then true else false
    | None => false
    end;
  instantiateComponent := λ context _ _ w, ((None, context), w);
  getComponentRenderedTree := λ _ _, None;
  stripComponent := λ _ e, e;
  createDomElement := λ _ el w, create_node el w;
  attachFuelElementToNode := λ _ _ w, w;
  getTextValueOf := λ _ _, "";
  invokeDidMount := λ _ w, w;
  invokeWillUnmount := λ _ w, w;
  invokeDidUpdate := λ _ w, w;
  diff := host_diff;
  isCreateChildren := has_bit CREATE_CHILDREN;
  isNewElement := has_bit NEW_ELEMENT;
  isRemoveElement := has_bit REMOVE_ELEMENT;
  isReplaceElement := has_bit REPLACE_ELEMENT;
  isTextChanged := has_bit TEXT_CHANGED;
  fastCreateDomTree := λ _ _ el w, create_node el w;
  cleanupTree := λ _ w, w;
  DOMEvents := λ k, String.prefix "on" k;
  elementProperty := element_property
|}.

Definition element (t : string) (k : option string) (cs : list (option loc))
  (d : option node) : El.t :=
  El.mk (HostTag t) k cs d None false None None None.

End Sample.

(** * The vocabulary of the properties *)

(** ** Outcomes of computations *)

(** A computation whose every successful run relates its two end states
    by [R]. *)
Definition keeps {A} (R : State → State → Prop) (m : M A) : Prop :=
  ∀ s a s', m s = Ok a s' → R s s'.

(** A computation whose every run that ends, normally or by a throw,
    relates its two end states by [R]. *)
Definition always {A} (R : State → State → Prop) (m : M A) : Prop :=
  ∀ s, match m s with
       | Ok _ s' | Throw _ s' => R s s'
       | OutOfFuel | Dangling => True
       end.

(** A computation that never returns. *)
Definition never_returns {A} (m : M A) : Prop :=
  ∀ s a s', m s ≠ Ok a s'.

(** The log grows, and only by events that satisfy [P]. *)
Definition logs_only (P : Event → Prop) (s s' : State) : Prop :=
  ∃ evs, log s' = log s ++ evs ∧ Forall P evs.

(** [m'] does what [m] does, whenever [m] does not run out of fuel. *)
Definition refines_at {A} (s : State) (m m' : M A) : Prop :=
  m s ≠ OutOfFuel → m' s = m s.

(** ** The patch walker *)

(** The one event component expansion logs. *)
Definition is_instantiation (e : Event) : Prop :=
  ∃ el old, e = EvInstantiateComponent el old.

(** The stem is left as it is, and the log grows by instantiations only. *)
Definition quiet (s s' : State) : Prop :=
  this s' = this s ∧
  ∃ evs, log s' = log s ++ evs ∧ Forall is_instantiation evs.

(** [newElement._stem = stem] (line 433), as a change of the state. *)
Definition inherit_stem (ne : option loc) (stem : option stemref) (s : State)
  : State :=
  match ne with
  | Some n =>
    set_world (set_heap (alter (El.set_stem stem) n (heap (world s))) (world s)) s
  | None => s
  end.

(** [e.children] in the store of [s]; nothing for an absent element. *)
Definition children_in (s : State) (e : option loc) : list (option loc) :=
  match e with
  | Some l => default [] (El.children <$> heap (world s) !! l)
  | None => []
  end.

(** Two frames that differ at most in their child queues. *)
Definition same_core (f f' : Frame.t) : Prop :=
  Frame.context f' = Frame.context f
  ∧ Frame.newElement f' = Frame.newElement f
  ∧ Frame.oldElement f' = Frame.oldElement f
  ∧ Frame.parsed f' = Frame.parsed f
  ∧ Frame.difference f' = Frame.difference f
  ∧ Frame.root f' = Frame.root f
  ∧ Frame.isKeyedItem f' = Frame.isKeyedItem f.

(** Every parsed frame carries its difference. *)
Definition frames_ok (fs : list Frame.t) : Prop :=
  ∀ i f, fs !! i = Some f → Frame.parsed f = true →
         is_Some (Frame.difference f).

(** The walk, as the states its turns go through. *)
Inductive walk_state (C : Collaborators) (fuel : nat)
  : PatchLocals → State → Prop :=
| walk_start context newTree oldTree s :
    walk_state C fuel
      (mkLocals [0%nat] (makeInitialStackState context newTree oldTree) None) s
| walk_turn L s L' s' :
    walk_state C fuel L s →
    patch_iteration C fuel L s = Ok L' s' →
    walk_state C fuel L' s'.

(** ** The keyed child matcher *)

(** A reference that is [null] or points into the heap. *)
Definition valid (w : World) (r : option loc) : Prop :=
  ∀ l, r = Some l → is_Some (heap w !! l).

(** The guard of line 220 as a function of the store: the old child that
    the parent's old key index files under the new child's key. *)
Definition keyed_hit (C : Collaborators) (w : World)
  (parentOld newChild : option loc) : option Found :=
  match parentOld, newChild with
  | Some po, Some nc =>
    match heap w !! po, heap w !! nc with
    | Some poe, Some nce =>
      match El._keymap poe with
      | Some keymap => read_index C w keymap (property_name (El.key nce))
      | None => None
      end
    | _, _ => None
    end
  | _, _ => None
  end.

(** The frame [prev] after the matcher took its share of the queues. *)
Definition with_queues (nq oq : list (option loc)) (f : Frame.t) : Frame.t :=
  Frame.set_oldChildren (Some oq) (Frame.set_newChildren (Some nq) f).

(** A field of the frame [parentState] refers to, if there is one. *)
Definition parent_field (g : Frame.t → option loc) (fs : list Frame.t)
  (parentState : option frameref) : option loc :=
  match parentState with
  | Some p => match fs !! p with Some f => g f | None => None end
  | None => None
  end.

(** The world the matcher leaves: the only write is the creation of the new
    parent's key index (lines 222-225). *)
Definition matcher_world (C : Collaborators) (w : World)
  (parentOld parentNew newChild : option loc) : World :=
  match keyed_hit C w parentOld newChild, parentNew, newChild with
  | Some _, Some pn, Some nc =>
    match heap w !! pn, heap w !! nc with
    | Some pne, Some nce =>
      match El._keymap pne with
      | None =>
        set_heap
          (alter
             (El.set_keymap
                (Some (literal_with (property_name (El.key nce)) nc)))
             pn (heap w)) w
      | Some _ => w
      end
    | _, _ => w
    end
  | _, _, _ => w
  end.

(** [l._keymap], absent also when [l] is not allocated. *)
Definition keymap_of (w : World) (l : loc) : option KeyIndex :=
  match heap w !! l with
  | Some e => El._keymap e
  | None => None
  end.

(** What a stretch of the walk may do to key indexes: leave one as it is, or
    create one from a literal and one assignment where there was none. *)
Definition keymap_step (s s' : State) : Prop :=
  ∀ l, keymap_of (world s') l = keymap_of (world s) l
       ∨ (keymap_of (world s) l = None
          ∧ ∃ k c, keymap_of (world s') l = Some (literal_with k c)).

(** Collaborators that leave every [_keymap] field alone. *)
Definition keymaps_untouched (C : Collaborators) : Prop :=
  ∀ context el old w l,
    keymap_of (instantiateComponent C context el old w).2 l = keymap_of w l.

(** ** The batch applier *)

(** What [replaceElement] may log before it reaches the parent. *)
Definition before_insertion (e : Event) : Prop :=
  match e with
  | EvWillUnmount _ | EvCreateDomElement _ _ _ | EvAppendChild _ _ => True
  | _ => False
  end.

(** ** The stem *)

(** [this.renderQueue.push({element: el, cb: callback})] *)
Definition enqueue (el : option loc) (callback : Callback) (s : State) : State :=
  set_this
    (Stem.set_renderQueue (Stem.renderQueue (this s) ++ [(el, callback)])
       (this s)) s.

(** The nesting of callbacks in a call. *)
Fixpoint call_depth (c : Call) : nat :=
  match c with
  | CallRender _ cb _ _ =>
    S (foldr (λ c' n, Nat.max (call_depth c') n) 0%nat cb)
  | CallEnterUnsafeUpdateZone cb =>
    S (foldr (λ c' n, Nat.max (call_depth c') n) 0%nat cb)
  end.

(** The nesting of callbacks in a callback's script. *)
Definition script_depth (cb : Callback) : nat :=
  foldr (λ c n, Nat.max (call_depth c) n) 0%nat cb.

(** An attached stem with no render in flight, outside an unsafe zone. *)
Definition idle (s : State) : Prop :=
  Stem.lock (this s) = false
  ∧ Stem._enabled (this s) = true
  ∧ is_Some (Stem.tree (this s)).

(** No callback waiting in the queue nests calls deeper than [h]. *)
Definition queue_bound (h : nat) (s : State) : Prop :=
  Forall (λ r : option loc * Callback, (script_depth r.2 ≤ h)%nat)
    (Stem.renderQueue (this s)).

(** A render in flight, outside an unsafe zone. *)
Definition flying (h : nat) (s : State) : Prop :=
  Stem.lock (this s) = true
  ∧ Stem._enabled (this s) = true
  ∧ queue_bound h s.

(** What [submit] keeps: the lock, the owned tree, and the bound on the
    queue. *)
Definition held (h : nat) (t : option loc) (s : State) : Prop :=
  Stem.lock (this s) = true
  ∧ Stem.tree (this s) = t
  ∧ queue_bound h s.

(** The callback of the pending completion nests calls no deeper than [h]. *)
Definition completion_bound (h : nat) (s : State) : Prop :=
  ∀ bc, Stem.batchCallback (this s) = Some bc →
        (script_depth (bc_callback bc) ≤ h)%nat.

(** One call of a callback's script, as [invoke] runs it. *)
Definition run_call (C : Collaborators) (budget : nat) (depth : nat)
  (c : Call) : M unit :=
  match c with
  | CallRender el cb context updateOwnwer =>
    render C budget depth el cb context updateOwnwer
  | CallEnterUnsafeUpdateZone cb => enterUnsafeUpdateZone C budget depth cb
  end.

(** Everything of the stem but its batch list. *)
Definition stem_kept (s s' : State) : Prop :=
  Stem.lock (this s') = Stem.lock (this s)
  ∧ Stem._enabled (this s') = Stem._enabled (this s)
  ∧ Stem.tree (this s') = Stem.tree (this s)
  ∧ Stem.renderQueue (this s') = Stem.renderQueue (this s)
  ∧ Stem.batchCallback (this s') = Stem.batchCallback (this s).

(** ** The cycles of a render, one after the other

    In the source a replayed render runs inside the completion of the render
    before it: [render] calls [renderAtAnimationFrame], which calls the
    completion closure, which calls [drainRenderQueue], which calls
    [render].  [Fifo] is the same code written as one cycle after the other:
    [cycle] is the body of [render] on an idle attached stem, and the calls
    a callback makes while the lock is held are replaced by what [render]
    and [enterUnsafeUpdateZone] do to them then ([submit]).  It is a device
    for induction on the number of cycles, not a specification: [render]
    and [cycle] are shown to agree (lemmas [render_refines_cycle] and
    [cycle_refines_render]), and what is proved of [cycle] is carried over
    to [render]. *)
Module Fifo.
Section Scheduler.
Context (C : Collaborators) (budget : nat).

(** [render] (lines 369-377) and [enterUnsafeUpdateZone] (lines 318-322)
    as they run while the lock is held: a render call is queued at the
    tail, or, in an unsafe update zone, its callback is called at once with
    the current native root; a zone runs its body with reconciliation
    disabled. *)
Fixpoint submit (c : Call) : M unit :=
  match c with
  | CallRender el callback _ _ =>
    s <- get_state;;
    if negb (Stem._enabled (this s)) then
      d <- tree_dom;;
      say (EvCallback callback d);;;
      for_each submit callback
    else
      modify_this
        (λ t, Stem.set_renderQueue (Stem.renderQueue t ++ [(el, callback)]) t)
  | CallEnterUnsafeUpdateZone cb =>
    modify_this (Stem.set_enabled false);;;
    (say (EvCallback cb None);;;
     for_each submit cb);;;
    modify_this (Stem.set_enabled true)
  end.

(** The caller's callback is called while the lock is held. *)
Definition call_back (callback : Callback) (d : option node) : M unit :=
  say (EvCallback callback d);;;
  for_each submit callback.

(** Lines 379-393: the render id is bumped, the lock taken, the walk run
    against the new tree, the owned tree replaced and the completion kept
    for the [tick]. *)
Definition start_cycle (el : option loc) (callback : Callback)
  (context : Context) (updateOwner : bool) (tick : M unit) : M unit :=
  say EvUpdateId;;;
  modify_this (Stem.set_lock true);;;
  patch C budget budget el context;;;
  s <- get_state;;
  let old := Stem.tree (this s) in
  (if updateOwner then modify_this (Stem.set_tree el) else ret tt);;;
  modify_this (Stem.set_batchCallback (Some (mkBatchCallback old callback)));;;
  tick.

(** The body of [renderAtAnimationFrame] (lines 345-354): the batch is
    applied and the completion called.  With no batch pending nothing is
    done, and the cycle stays in flight. *)
Definition flush (complete : BatchCallback → M unit) : M unit :=
  s <- get_state;;
  match Stem.batchs (this s) with
  | [] => ret tt
  | _ :: _ =>
    update C budget (Stem.batchs (this s));;;
    modify_this (Stem.set_batchs []);;;
    s' <- get_state;;
    match Stem.batchCallback (this s') with
    | Some bc => complete bc
    | None => ret tt
    end;;;
    modify_this (Stem.set_batchCallback None)
  end.

(** The completion closure (lines 387-392): the previous tree is cleaned
    up, the caller called back with the new native root, the stem unlocked,
    the queue drained. *)
Definition complete (call_back : Callback → option node → M unit)
  (next : M unit) (bc : BatchCallback) : M unit :=
  say (EvCleanupTree (bc_old bc));;;
  call_world (cleanupTree C (bc_old bc));;;
  d <- tree_dom;;
  call_back (bc_callback bc) d;;;
  modify_this (Stem.set_lock false);;;
  next.

(** [drainRenderQueue] (lines 356-362): the head of the queue, if there is
    one, is taken out and rendered. *)
Definition next_in_line (serve : option loc → Callback → M unit) : M unit :=
  s <- get_state;;
  match Stem.renderQueue (this s) with
  | [] => ret tt
  | (element, cb) :: rest =>
    modify_this (Stem.set_renderQueue rest);;;
    serve element cb
  end.

(** One cycle, and in its completion the cycles of the renders replayed;
    [n] bounds their number. *)
Fixpoint cycle (n : nat) (el : option loc) (callback : Callback)
  (context : Context) (updateOwner : bool) : M unit :=
  match n with
  | 0 => λ _, OutOfFuel
  | S n' =>
    start_cycle el callback context updateOwner
      (flush
         (complete call_back
            (next_in_line
               (λ element cb,
                  cycle n' element cb default_context default_updateOwnwer))))
  end.

End Scheduler.
End Fifo.

(** ** Cycles in the log

    A cycle shows in the log as the bump of the render id, then what the
    walk and the applier call, then the cleanup of the previous tree; the
    callbacks come after the cleanup.  [run_phase] reads a log and refuses
    it when a second cycle starts before the cleanup of the first, or when
    anything of a walk or an applier shows outside a cycle. *)
Inductive Phase := Quiet | InFlight.

(** The next phase, or [None] for an event that is out of place. *)
Definition phase_step (p : Phase) (e : Event) : option Phase :=
  match e, p with
  | EvUpdateId, Quiet => Some InFlight
  | EvUpdateId, InFlight => None
  | EvCleanupTree _, InFlight => Some Quiet
  | EvCleanupTree _, Quiet => None
  | EvCallback _ _, Quiet => Some Quiet
  | EvCallback _ _, InFlight => None
  | _, InFlight => Some InFlight
  | _, Quiet => None
  end.

(** The phase a log ends in when read from [p], if it is accepted. *)
Fixpoint run_phase (p : Phase) (evs : list Event) : option Phase :=
  match evs with
  | [] => Some p
  | e :: evs' =>
    match phase_step p e with
    | Some q => run_phase q evs'
    | None => None
    end
  end.


(** What belongs to a cycle, between its bump and its cleanup. *)
Definition inside_cycle (e : Event) : Prop :=
  phase_step InFlight e = Some InFlight.



(** What the walk and the applier do to the state: the stem keeps all but
    its batch list, and the log grows by events of a cycle. *)
Definition steady (s s' : State) : Prop :=
  stem_kept s s' ∧ logs_only inside_cycle s s'.

(** The log grows by events that take the reader from [p] to [q]. *)
Definition moves (p q : Phase) (s s' : State) : Prop :=
  ∃ evs, log s' = log s ++ evs ∧ run_phase p evs = Some q.

(** A run that returns takes the reader from [p] to [q]; one that throws
    leaves a log the reader accepts. *)
Definition traces {A} (p q : Phase) (m : M A) : Prop :=
  ∀ s, match m s with
       | Ok _ s' => moves p q s s'
       | Throw _ s' => ∃ q', moves p q' s s'
       | OutOfFuel | Dangling => True
       end.


(** ** How a render ends *)

(** From a state that satisfies [P], [m] ends in a state that satisfies [Q]
    when it returns and in one that satisfies [E] when it throws. *)
Definition hoare {A} (P : State → Prop) (m : M A) (Q : A → State → Prop)
  (E : State → Prop) : Prop :=
  ∀ s, P s →
       match m s with
       | Ok a s' => Q a s'
       | Throw _ s' => E s'
       | OutOfFuel | Dangling => True
       end.

(** The lock is held. *)
Definition locked (s : State) : Prop := Stem.lock (this s) = true.


(** Any event but the call of a client callback. *)
Definition not_callback (e : Event) : Prop :=
  match e with
  | EvCallback _ _ => False
  | _ => True
  end.

(** The lock is left as it is. *)
Definition lock_kept (s s' : State) : Prop :=
  Stem.lock (this s') = Stem.lock (this s).


(** ** What a walk leaves behind *)

(** The calls a walk makes: component instantiations and differences. *)
Definition walk_event (e : Event) : Prop :=
  match e with
  | EvInstantiateComponent _ _ | EvDiff _ _ => True
  | _ => False
  end.

(** The pairs (old, new) a log hands to [diff], in order. *)
Fixpoint diffs_of (evs : list Event) : list (option loc * option loc) :=
  match evs with
  | [] => []
  | EvDiff old new :: evs' => (old, new) :: diffs_of evs'
  | _ :: evs' => diffs_of evs'
  end.

(** The pair of a batch entry. *)
Definition pair_of (b : Batch.t) : option loc * option loc :=
  (Batch.oldElement b, Batch.newElement b).

(** Neither the stem nor the log is touched. *)
Definition hushed (s s' : State) : Prop :=
  this s' = this s ∧ log s' = log s.

(** The log grows by calls of a walk and the batch list by one entry for
    each difference, in the same order; the rest of the stem is kept. *)
Definition walked (s s' : State) : Prop :=
  ∃ evs more,
    log s' = log s ++ evs
    ∧ Forall walk_event evs
    ∧ Stem.batchs (this s') = Stem.batchs (this s) ++ more
    ∧ diffs_of evs = pair_of <$> more.

(** An instantiation from scratch: no old element is handed over. *)
Definition is_mount (e : Event) : Prop :=
  ∃ el, e = EvInstantiateComponent el None.

(** ** The calls of [updateElement] *)

(** [strippedRoot._stem.getEventHandler()], when every step is there. *)
Definition handler_of (C : Collaborators) (w : World) (root : option loc)
  : option nat :=
  match stripComponent C w root with
  | Some r =>
    match heap w !! r with
    | Some re =>
      match El._stem re with
      | Some st => handlers w !! st
      | None => None
      end
    | None => None
    end
  | None => None
  end.

(** An entry that goes through the event handler. *)
Definition needs_handler (C : Collaborators) (a : AttrEntry) : bool :=
  match attr_state a with
  | NEW | REPLACED | REMOVED => DOMEvents C (attr_key a)
  | STYLE_CHANGED | UNCHANGED => false
  end.

(** The calls one entry of the difference stands for, on the node [d] and
    with the event handler [h]. *)
Definition attr_calls (C : Collaborators) (h : nat) (d : node) (a : AttrEntry)
  : list Event :=
  match attr_state a with
  | NEW | REPLACED =>
    if DOMEvents C (attr_key a)
    then [EvReplaceEvent h (Some d) (toLowerCase (slice2 (attr_key a)))
            (attr_value a)]
    else [EvSetProperty d (attr_key a) (attr_value a)]
  | STYLE_CHANGED =>
    (λ kv, EvSetStyle (Some d) kv.1 kv.2) <$> enumerate (attr_value a)
  | REMOVED =>
    if DOMEvents C (attr_key a)
    then [EvRemoveEvent h (Some d) (toLowerCase (slice2 (attr_key a)))]
    else [EvRemoveAttribute d (attr_key a)]
  | UNCHANGED => []
  end.

(** The state with more in its log. *)
Definition logged (evs : list Event) (s : State) : State :=
  mkState (world s) (log s ++ evs) (this s).

(** ** Submission order

    The vocabulary of first-in first-out service.  A request is a render
    call that waits its turn: its element and its callback.  What follows
    says which requests a callback makes while a render is in flight, in
    which order a queue served first in, first out gets to them, and which
    completions a log shows.  A render call made in an unsafe update zone is
    no request: there the callback is called at once. *)

(** The calls of a script, one after the other; [enabled] is [_enabled] at
    the start, the second component [_enabled] at the end. *)
Fixpoint thread_calls (f : Call → bool → list (option loc * Callback) * bool)
  (cs : list Call) (enabled : bool) : list (option loc * Callback) * bool :=
  match cs with
  | [] => ([], enabled)
  | c :: cs' =>
    let r := f c enabled in
    let r' := thread_calls f cs' r.2 in
    (r.1 ++ r'.1, r'.2)
  end.

(** The requests one call of a callback makes while the lock is held.  A
    render call is a request, unless it is made in an unsafe update zone:
    then its callback runs at once, in the zone.  A zone runs its body with
    reconciliation disabled; when the body returns reconciliation is
    enabled, also if the zone was entered in another zone. *)
Fixpoint call_requests (c : Call) (enabled : bool)
  : list (option loc * Callback) * bool :=
  match c with
  | CallRender el cb _ _ =>
    if enabled then ([(el, cb)], true)
    else thread_calls call_requests cb false
  | CallEnterUnsafeUpdateZone cb =>
    ((thread_calls call_requests cb false).1, true)
  end.

(** The requests a completion callback makes, in the order of its
    calls. *)
Definition requests (cb : Callback) : list (option loc * Callback) :=
  (thread_calls call_requests cb true).1.

(** First in, first out: the head of the queue is served, and what its
    callback asks for joins the tail.  The result lists the first [n]
    requests served, or all of them if there are fewer. *)
Fixpoint serve_order (n : nat) (q : list (option loc * Callback))
  : list (option loc * Callback) :=
  match n, q with
  | S n', r :: rest => r :: serve_order n' (rest ++ requests r.2)
  | _, _ => []
  end.












(** ** Concrete stores

    The stores and scripts on which the theorems are run. *)

Module Scene.
Import Sample.

(** An old [div] with its native node 100, and two fresh elements. *)
Definition heap0 : gmap loc El.t :=
  {[ 1%nat := element "div" None [] (Some 100%nat);
     2%nat := element "div" None [] None;
     3%nat := element "span" None [] None ]}.

Definition nodes0 : gmap node DomNode :=
  {[ 100%nat := mkNode 1 [] None ]}.

Definition attached : State :=
  mkState (mkWorld heap0 nodes0 ∅) [] (Stem.new 0 (Some 1%nat)).

Definition absent_frame : Frame.t :=
  Frame.mk [] None None None None false None None false.

End Scene.

Module Handover.
(** The old [div] is a subtree root of stem 0; the new [div] is fresh. *)
Definition heap0 : gmap loc El.t :=
  {[ 1%nat := El.mk (HostTag "div") None [] (Some 100%nat) (Some 0%nat) false
                None None None;
     2%nat := Sample.element "div" None [] None ]}.

Definition attached : State :=
  mkState (mkWorld heap0 Scene.nodes0 ∅) [] (Stem.new 0 (Some 1%nat)).

Definition start : PatchLocals :=
  mkLocals [0%nat] (makeInitialStackState [] (Some 2%nat) (Some 1%nat)) None.
End Handover.

Module Family.
(** A keyed list that is reordered: the old [ul] (with its key index) holds
    [li] a then b; the new [ul] holds b then a. *)
Import Sample.

Definition heap0 : gmap loc El.t :=
  {[ 10%nat := El.mk (HostTag "ul") None [Some 11%nat; Some 12%nat]
                 (Some 100%nat) None false None
                 (Some (mkIndex {[ "a" := 11%nat; "b" := 12%nat ]}
                          ObjectPrototype))
                 None;
     11%nat := element "li" (Some "a") [] (Some 101%nat);
     12%nat := element "li" (Some "b") [] (Some 102%nat);
     20%nat := element "ul" None [Some 22%nat; Some 21%nat] None;
     21%nat := element "li" (Some "a") [] None;
     22%nat := element "li" (Some "b") [] None ]}.

Definition nodes0 : gmap node DomNode :=
  {[ 100%nat := mkNode 1 [101%nat; 102%nat] None;
     101%nat := mkNode 1 [] (Some 100%nat);
     102%nat := mkNode 1 [] (Some 100%nat) ]}.

Definition attached : State :=
  mkState (mkWorld heap0 nodes0 ∅) [] (Stem.new 0 (Some 10%nat)).

Definition start : PatchLocals :=
  mkLocals [0%nat] (makeInitialStackState [] (Some 20%nat) (Some 10%nat)) None.

Definition value_of {A} (d : A) (r : Result A) : A :=
  match r with
  | Ok a _ => a
  | _ => d
  end.

Definition state_of {A} (d : State) (r : Result A) : State :=
  match r with
  | Ok _ s | Throw _ s => s
  | _ => d
  end.

(** After the first turn: the root pair is parsed and its first child
    pushed. *)
Definition locals1 : PatchLocals :=
  Eval vm_compute in
    value_of start (patch_iteration collaborators 5 start attached).

Definition state1 : State :=
  Eval vm_compute in
    state_of attached (patch_iteration collaborators 5 start attached).

End Family.

Module Keyed.
(** The moment the reordered list of [Family] is half way: the frame of the
    two [ul] is parsed, the new [li] a is next, the old queue holds b, a. *)
Definition frame0 : Frame.t :=
  Frame.mk [] (Some 20%nat) (Some 10%nat) (Some [Some 21%nat])
    (Some [Some 12%nat; Some 11%nat]) true (Some (mkDifference 0 [])) (Some 20%nat)
    false.
End Keyed.

Module Proto.
(** Lists whose new item has a key that every object inherits: [__proto__]
    or [constructor].  The old [ul] has a key index, the new [ul] has none
    yet. *)
Definition heap0 : gmap loc El.t :=
  {[ 10%nat := El.mk (HostTag "ul") None [Some 11%nat] (Some 100%nat) None
                 false None
                 (Some (mkIndex {[ "a" := 11%nat ]} ObjectPrototype)) None;
     11%nat := Sample.element "li" (Some "a") [] (Some 101%nat);
     20%nat := Sample.element "ul" None [Some 21%nat] None;
     21%nat := Sample.element "li" (Some "__proto__") [] None;
     22%nat := Sample.element "li" (Some "constructor") [] None ]}.

Definition attached : State :=
  mkState (mkWorld heap0 Family.nodes0 ∅) [] (Stem.new 0 (Some 10%nat)).

(** The frame of the two [ul], parsed, with the new [li] next. *)
Definition frame0 : Frame.t :=
  Frame.mk [] (Some 20%nat) (Some 10%nat) (Some [Some 21%nat])
    (Some [Some 11%nat]) true (Some (mkDifference 0 [])) (Some 20%nat) false.

(** The same frame with the [li] keyed [constructor] next. *)
Definition frame1 : Frame.t :=
  Frame.mk [] (Some 20%nat) (Some 10%nat) (Some [Some 22%nat])
    (Some [Some 11%nat]) true (Some (mkDifference 0 [])) (Some 20%nat) false.
End Proto.

Module FamilyWalk.
(** The whole walk over the reordered list of [Family]. *)
Definition final : State :=
  Eval vm_compute in
    Family.state_of Family.attached
      (patch_loop Sample.collaborators 10 5 Family.start Family.attached).
End FamilyWalk.

Module RootBatch.
(** Batch entries of a root pair ([parent] absent) over the old [div] of
    [Scene]. *)
Definition inserted : Batch.t :=
  Batch.mk (Some 2%nat) None (Some 2%nat) (Some 1%nat) false
    (mkDifference Sample.NEW_ELEMENT []) [].

(** The entry the walk emits when the root [div] is rendered as a [span]. *)
Definition replaced : Batch.t :=
  Batch.mk (Some 3%nat) None (Some 3%nat) (Some 1%nat) false
    (mkDifference REPLACE_ELEMENT []) [].
End RootBatch.

Module Nested.
(** A list whose one item changes its type: the old [ul] holds an [li]
    (with a native child of its own), the new [ul] a [span]. *)
Definition heap0 : gmap loc El.t :=
  {[ 10%nat := Sample.element "ul" None [Some 11%nat] (Some 100%nat);
     11%nat := Sample.element "li" None [] (Some 101%nat);
     20%nat := Sample.element "ul" None [Some 23%nat] None;
     23%nat := Sample.element "span" None [] None ]}.

Definition nodes0 : gmap node DomNode :=
  {[ 100%nat := mkNode 1 [101%nat] None;
     101%nat := mkNode 1 [102%nat] (Some 100%nat);
     102%nat := mkNode 1 [] (Some 101%nat) ]}.

Definition attached : State :=
  mkState (mkWorld heap0 nodes0 ∅) [] (Stem.new 0 (Some 10%nat)).
End Nested.

Module Locked.
(** The stem of [Scene] while a render is in flight. *)
Definition state : State :=
  set_this (Stem.set_lock true (this Scene.attached)) Scene.attached.
End Locked.

Module Busy.
(** An attached stem that owns a [div], and three more [div]s to render. *)
Definition heap0 : gmap loc El.t :=
  {[ 1%nat := Sample.element "div" None [] (Some 100%nat);
     2%nat := Sample.element "div" None [] None;
     3%nat := Sample.element "div" None [] None;
     4%nat := Sample.element "div" None [] None ]}.

Definition state : State :=
  mkState (mkWorld heap0 Scene.nodes0 ∅) [] (Stem.new 0 (Some 1%nat)).

(** A callback that asks for two more renders. *)
Definition script : Callback :=
  [CallRender (Some 3%nat) [] [] true; CallRender (Some 4%nat) [] [] true].

End Busy.

Module Mounted.
(** A [div] whose native node 101 sits in a container, node 100; a fresh
    [div]. *)
Definition heap0 : gmap loc El.t :=
  {[ 1%nat := Sample.element "div" None [] (Some 101%nat);
     2%nat := Sample.element "div" None [] None ]}.

Definition nodes0 : gmap node DomNode :=
  {[ 100%nat := mkNode 1 [101%nat] None;
     101%nat := mkNode 1 [] (Some 100%nat) ]}.

Definition attached : State :=
  mkState (mkWorld heap0 nodes0 ∅) [] (Stem.new 0 (Some 1%nat)).

(** The entry the walk emits when nothing is rendered over the [div]. *)
Definition removal : Batch.t :=
  Batch.mk None None None (Some 1%nat) false
    (mkDifference Sample.REMOVE_ELEMENT []) [].
End Mounted.

Module Fresh.
(** A stem that owns no tree yet, and the elements of [Scene]. *)
Definition state : State :=
  mkState (mkWorld Scene.heap0 ∅ ∅) [] (Stem.new 0 None).
End Fresh.

Module Widget.
(** Collaborators with components: a component renders to its first child,
    whatever it was rendered over. *)
Definition rendered (w : World) (l : loc) : option loc :=
  match heap w !! l with
  | Some e => mjoin (head (El.children e))
  | None => None
  end.

Definition collaborators : Collaborators := {|
  isComponent := isComponent Sample.collaborators;
  instantiateComponent := λ context n _ w, ((rendered w n, context), w);
  getComponentRenderedTree := rendered;
  stripComponent := λ w e,
    match e with
    | Some l => if isComponent Sample.collaborators w l then rendered w l else e
    | None => None
    end;
  createDomElement := createDomElement Sample.collaborators;
  attachFuelElementToNode := attachFuelElementToNode Sample.collaborators;
  getTextValueOf := getTextValueOf Sample.collaborators;
  invokeDidMount := invokeDidMount Sample.collaborators;
  invokeWillUnmount := invokeWillUnmount Sample.collaborators;
  invokeDidUpdate := invokeDidUpdate Sample.collaborators;
  diff := diff Sample.collaborators;
  isCreateChildren := isCreateChildren Sample.collaborators;
  isNewElement := isNewElement Sample.collaborators;
  isRemoveElement := isRemoveElement Sample.collaborators;
  isReplaceElement := isReplaceElement Sample.collaborators;
  isTextChanged := isTextChanged Sample.collaborators;
  fastCreateDomTree := fastCreateDomTree Sample.collaborators;
  cleanupTree := cleanupTree Sample.collaborators;
  DOMEvents := DOMEvents Sample.collaborators;
  elementProperty := elementProperty Sample.collaborators
|}.

(** An old [div]; a component (class 7) that renders a component (class 8)
    that renders a [span]. *)
Definition heap0 : gmap loc El.t :=
  {[ 1%nat := Sample.element "div" None [] (Some 100%nat);
     5%nat := El.mk (ComponentClass 7) None [Some 6%nat] None None false None
                None None;
     6%nat := El.mk (ComponentClass 8) None [Some 7%nat] None None false None
                None None;
     7%nat := Sample.element "span" None [] None ]}.

Definition attached : State :=
  mkState (mkWorld heap0 Scene.nodes0 ∅) [] (Stem.new 0 (Some 1%nat)).
End Widget.

Module Wired.
(** The [div] of [Scene] as a subtree root whose stem has the event
    handler 7. *)
Definition heap0 : gmap loc El.t :=
  {[ 1%nat := El.mk (HostTag "div") None [] (Some 100%nat) (Some 0%nat) false
                None None None ]}.

Definition state : State :=
  mkState (mkWorld heap0 Scene.nodes0 {[ 0%nat := 7%nat ]}) []
    (Stem.new 0 (Some 1%nat)).

(** A new [id], a replaced click listener (a function), a style changed
    to an object and one changed to a string, a removed [title]. *)
Definition changes : Difference :=
  mkDifference 0
    [ mkAttr "id" (JsString "main") NEW;
      mkAttr "onClick" (JsScalar "listener") REPLACED;
      mkAttr "style" (JsObject [("color", "red"); ("width", "1px")])
        STYLE_CHANGED;
      mkAttr "style" (JsString "top") STYLE_CHANGED;
      mkAttr "title" (JsScalar "undefined") REMOVED ].

(** A new [id], then a new listener, then a new [title]. *)
Definition listener : Difference :=
  mkDifference 0
    [ mkAttr "id" (JsString "main") NEW;
      mkAttr "onClick" (JsScalar "listener") NEW;
      mkAttr "title" (JsString "hint") NEW ].
End Wired.

Module Relay.
(** An attached stem that owns a [div], and four more [div]s to render. *)
Definition heap0 : gmap loc El.t :=
  {[ 1%nat := Sample.element "div" None [] (Some 100%nat);
     2%nat := Sample.element "div" None [] None;
     3%nat := Sample.element "div" None [] None;
     4%nat := Sample.element "div" None [] None;
     5%nat := Sample.element "div" None [] None ]}.

Definition state : State :=
  mkState (mkWorld heap0 Scene.nodes0 ∅) [] (Stem.new 0 (Some 1%nat)).

(** The callback of the render of 3 asks for 5. *)
Definition then5 : Callback := [CallRender (Some 5%nat) [] [] true].

(** The callback of the first render asks for 3, then for 4. *)
Definition script : Callback :=
  [CallRender (Some 3%nat) then5 [] true; CallRender (Some 4%nat) [] [] true].
End Relay.

Module Stalled.
(** A [div] whose native node 101 sits in a container, and two fresh
    [div]s. *)
Definition heap0 : gmap loc El.t :=
  {[ 1%nat := Sample.element "div" None [] (Some 101%nat);
     2%nat := Sample.element "div" None [] None;
     3%nat := Sample.element "div" None [] None ]}.

Definition nodes0 : gmap node DomNode :=
  {[ 100%nat := mkNode 1 [101%nat] None;
     101%nat := mkNode 1 [] (Some 100%nat) ]}.

Definition state : State :=
  mkState (mkWorld heap0 nodes0 ∅) [] (Stem.new 0 (Some 1%nat)).

(** The callback of the first render asks for nothing to be rendered, then
    for the [div] 3. *)
Definition script : Callback :=
  [CallRender None [] [] true; CallRender (Some 3%nat) [] [] true].

End Stalled.

(** * Properties *)

(** ** Reasoning about computations *)

Lemma bind_Ok {A B} (m : M A) (k : A → M B) s a s' :
  m s = Ok a s' → bind m k s = k a s'.
Proof. unfold bind. by intros ->. Qed.

Lemma bind_Throw {A B} (m : M A) (k : A → M B) s e s' :
  m s = Throw e s' → bind m k s = Throw e s'.
Proof. unfold bind. by intros ->. Qed.

Lemma bind_inv_Ok {A B} (m : M A) (k : A → M B) s b s' :
  bind m k s = Ok b s' → ∃ a s1, m s = Ok a s1 ∧ k a s1 = Ok b s'.
Proof. unfold bind. destruct (m s); naive_solver. Qed.

Section Keeps.
Context (R : State → State → Prop).
Context (R_refl : ∀ s, R s s).
Context (R_trans : ∀ s1 s2 s3, R s1 s2 → R s2 s3 → R s1 s3).

Lemma keeps_ret {A} (a : A) : keeps R (ret a).
Proof using R_refl. intros s a' s' [= _ <-]. apply R_refl. Qed.

Lemma keeps_throw {A} e : keeps R (@throw A e).
Proof. by intros s a s'. Qed.

Lemma keeps_bind {A B} (m : M A) (k : A → M B) :
  keeps R m → (∀ a, keeps R (k a)) → keeps R (bind m k).
Proof using R_trans.
  intros Hm Hk s b s' (a & s1 & H1 & H2)%bind_inv_Ok.
  eapply R_trans; [by eapply Hm | by eapply Hk].
Qed.

Lemma keeps_get_state : keeps R get_state.
Proof using R_refl. intros s a s' [= _ <-]. apply R_refl. Qed.

Lemma keeps_deref l : keeps R (deref l).
Proof using R_refl.
  intros s a s'. unfold deref. destruct (_ !! _); [|done].
  intros [= _ <-]. apply R_refl.
Qed.

Lemma keeps_deref_node d : keeps R (deref_node d).
Proof using R_refl.
  intros s a s'. unfold deref_node. destruct (_ !! _); [|done].
  intros [= _ <-]. apply R_refl.
Qed.

Lemma keeps_frame_at fs r : keeps R (frame_at fs r).
Proof using R_refl.
  intros s a s'. unfold frame_at. destruct (_ !! _); [|done].
  intros [= _ <-]. apply R_refl.
Qed.

Lemma keeps_non_null {A} what (x : option A) : keeps R (non_null what x).
Proof using R_refl. destruct x; [apply keeps_ret | apply keeps_throw]. Qed.

Lemma keeps_read_world {A} (f : World → A) : keeps R (read_world f).
Proof using R_refl. intros s a s' [= _ <-]. apply R_refl. Qed.

Lemma keeps_modify f : (∀ s, R s (f s)) → keeps R (modify f).
Proof. intros H s a s' [= _ <-]. apply H. Qed.

Lemma keeps_for_each {A} (f : A → M unit) l :
  (∀ x, keeps R (f x)) → keeps R (for_each f l).
Proof using R_refl R_trans.
  intros Hf. induction l as [|x l IH]; simpl.
  - apply keeps_ret.
  - apply keeps_bind; [apply Hf | intros _; apply IH].
Qed.

End Keeps.

(** Decomposes a [keeps] goal along the structure of the computation;
    [leaf] is tried first, on every sub-computation. *)
Ltac keeps_with refl trans leaf :=
  repeat first
    [ match goal with |- ∀ _, _ => intro end
    | leaf
    | apply (keeps_ret _ refl)
    | apply keeps_throw
    | apply (keeps_get_state _ refl)
    | apply (keeps_deref _ refl)
    | apply (keeps_deref_node _ refl)
    | apply (keeps_frame_at _ refl)
    | apply (keeps_non_null _ refl)
    | apply (keeps_read_world _ refl)
    | apply (keeps_bind _ trans)
    | apply (keeps_for_each _ refl trans)
    | match goal with
      | |- keeps _ (match ?x with _ => _ end) => destruct x
      end ].

Section PatchFacts.
Context (C : Collaborators).

(** *** Component expansion does not touch the stem and logs nothing but
    component instantiations *)

Lemma quiet_refl s : quiet s s.
Proof. split; [done|]. exists []. by rewrite app_nil_r. Qed.

Lemma quiet_trans s1 s2 s3 : quiet s1 s2 → quiet s2 s3 → quiet s1 s3.
Proof.
  intros [E1 (l1 & L1 & F1)] [E2 (l2 & L2 & F2)]. split; [congruence|].
  exists (l1 ++ l2). rewrite L2, L1, app_assoc. split; [done|].
  by apply Forall_app.
Qed.

Lemma quiet_update_el l f : keeps quiet (update_el l f).
Proof.
  apply keeps_modify. intros s. split; [done|]. exists []. simpl.
  by rewrite app_nil_r.
Qed.

Lemma quiet_instantiate context el old :
  keeps quiet (instantiate C context el old).
Proof.
  intros s r s'. unfold instantiate, say, call_world_ret, modify, bind; simpl.
  destruct (instantiateComponent _ _ _ _ _) as [a w]. intros [= _ <-].
  split; [done|]. exists [EvInstantiateComponent el old]. split; [done|].
  repeat constructor. by eexists _, _.
Qed.

Lemma quiet_remount_loop fuel : ∀ context newElement,
  keeps quiet (remount_loop C fuel context newElement).
Proof.
  induction fuel as [|fuel IH]; intros context [n|]; simpl;
    keeps_with quiet_refl quiet_trans
      ltac:(first [apply quiet_instantiate | apply IH]);
    done.
Qed.

Lemma quiet_reuse_loop fuel : ∀ context newElement oldElement,
  keeps quiet (reuse_loop C fuel context newElement oldElement).
Proof.
  induction fuel as [|fuel IH]; intros context [n|] oldElement; simpl;
    keeps_with quiet_refl quiet_trans
      ltac:(first [apply quiet_instantiate | apply quiet_update_el | apply IH]);
    done.
Qed.

Lemma quiet_patchComponent fuel context newElement oldElement :
  keeps quiet (patchComponent C fuel context newElement oldElement).
Proof.
  unfold patchComponent.
  keeps_with quiet_refl quiet_trans
    ltac:(first [apply quiet_remount_loop | apply quiet_reuse_loop]).
Qed.

(** *** The visit of a pair whose old element is present *)

Lemma visit_pair_old L top next context ne o oeE s1 :
  heap (world s1) !! o = Some oeE →
  (∀ n, ne = Some n → is_Some (heap (world s1) !! n)) →
  (∀ p, parent L = Some p → is_Some (frames L !! p)) →
  let s2 := emit (EvDiff (Some o) ne) (inherit_stem ne (El._stem oeE) s1) in
  let d := diff C (world s2) (Some o) ne in
  let fs1 :=
    <[top := Frame.mk context ne (Some o) (Frame.newChildren next)
               (Frame.oldChildren next) (Frame.parsed next)
               (Frame.difference next) (Frame.root next)
               (Frame.isKeyedItem next)]> (frames L) in
  let b :=
    Batch.mk
      (if match ne with Some _ => truthy (El._stem oeE) | None => false end
       then ne else Frame.root next)
      (match parent L with
       | Some p => default None (Frame.newElement <$> fs1 !! p)
       | None => None
       end)
      ne (Some o) (Frame.isKeyedItem next) d context in
  visit_pair C L top next context ne (Some o) s1 =
    if truthy (El.dom oeE) then
      Ok (Some (<[top := Frame.mk context ne (Some o) (Some (children_in s2 ne))
                          (Some (El.children oeE)) true (Some d)
                          (Frame.root next) (Frame.isKeyedItem next)]> fs1,
                context, Some o))
         (set_this (Stem.set_batchs (Stem.batchs (this s1) ++ [b]) (this s1)) s2)
    else Throw (Error "Dom element was accidentally removed.") s2.
Proof.
  intros Ho Hn Hp s2 d fs1 b.
  assert (Hpar : ∀ s, (match parent L with
            | Some p => parentF <- frame_at fs1 p;; ret (Frame.newElement parentF)
            | None => ret None
            end) s = Ok (Batch.parent b) s).
  { intros s. subst b; simpl. destruct (parent L) as [p|] eqn:E; [|done].
    destruct (Hp p eq_refl) as [f Hf]. apply lookup_lt_Some in Hf.
    assert (is_Some (fs1 !! p)) as [f' Hf'].
    { apply lookup_lt_is_Some. subst fs1. by rewrite length_insert. }
    unfold bind, frame_at. by rewrite Hf'. }
  unfold visit_pair.
  assert (Hdom : ∀ s', heap (world s') !! o = Some oeE ∨ (∃ st, heap (world s') !! o = Some (El.set_stem st oeE)) →
     (oe <- deref o;; invariant (negb (truthy (El.dom oe))) "Dom element was accidentally removed.") s'
     = if truthy (El.dom oeE) then Ok tt s' else Throw (Error "Dom element was accidentally removed.") s').
  { intros s' [H|[st H]]; unfold bind, deref; rewrite H; simpl; by destruct (El.dom oeE). }
  destruct ne as [n|].
  - destruct (Hn n eq_refl) as [neE Hne].
    fold fs1.
    unfold bind at 1. unfold bind at 1. unfold deref at 1. rewrite Ho.
    unfold update_el at 1. unfold modify at 1.
    set (s1' := set_world _ s1).
    assert (Hn' : heap (world s1') !! n = Some (El.set_stem (El._stem oeE) neE)).
    { subst s1'; simpl. by rewrite lookup_alter_eq, Hne. }
    assert (Ho' : heap (world s1') !! o = Some oeE ∨ (∃ st, heap (world s1') !! o = Some (El.set_stem st oeE))).
    { subst s1'; simpl. rewrite lookup_alter. case_decide; [subst; right|by left].
      rewrite Ho. by eexists. }
    unfold bind at 1. unfold bind at 1. unfold deref at 1. rewrite Hn'.
    unfold ret at 1. unfold bind at 1. unfold say, modify at 1.
    unfold bind at 1. unfold read_world at 1.
    unfold bind at 1. rewrite Hdom by done.
    simpl (world (emit _ _)).
    destruct (El.dom oeE) as [dd|]; simpl truthy; cbv iota; [|done].
    unfold bind at 1. rewrite Hpar.
    unfold bind at 1. unfold push_batch, modify at 1.
    unfold children_slice.
    unfold bind at 1. unfold bind at 1. unfold deref at 1.
    simpl (heap _). rewrite lookup_alter_eq, Hne. simpl.
    unfold bind, deref. simpl (heap _).
    subst s2 d b. simpl. rewrite lookup_alter_eq, Hne. simpl.
    destruct Ho' as [H|[st H]]; simpl in H; rewrite H; done.
  - unfold bind at 1. unfold ret at 1.
    unfold bind at 1. unfold ret at 1. unfold bind at 1. unfold say, modify at 1.
    unfold bind at 1. unfold read_world at 1.
    unfold bind at 1. rewrite Hdom by (by left).
    destruct (El.dom oeE) as [dd|]; simpl truthy; cbv iota; [|done].
    unfold bind at 1. rewrite Hpar.
    unfold bind at 1. unfold push_batch, modify at 1.
    unfold children_slice.
    unfold bind at 1. unfold ret at 1.
    unfold bind, deref. simpl. rewrite Ho. done.
Qed.

(** *** Frames whose pair is absent on both sides *)

(** C7.  A popped, unparsed frame whose pair is absent on both sides after
    component expansion is discarded: the turn ends in the very state that
    component expansion left, so no batch entry is pushed and no difference
    is computed (no call to [diff] is logged); the stack is the rest of the
    stack and the frame store is untouched, so no child frame is produced. *)
Theorem absent_pair_is_skipped fuel L top rest next context s s1 :
  stack L = top :: rest →
  frames L !! top = Some next →
  Frame.parsed next = false →
  patchComponent C fuel (Frame.context next) (Frame.newElement next)
    (Frame.oldElement next) s = Ok (context, None, None) s1 →
  patch_iteration C fuel L s = Ok (mkLocals rest (frames L) (parent L)) s1
  ∧ Stem.batchs (this s1) = Stem.batchs (this s)
  ∧ (∀ old new, EvDiff old new ∈ log s1 → EvDiff old new ∈ log s).
Proof.
  intros Hstack Hnext Hparsed Hexp. split; [|split].
  - unfold patch_iteration. rewrite Hstack.
    rewrite (bind_Ok _ _ s next s) by (unfold frame_at; by rewrite Hnext).
    rewrite Hparsed. unfold parse_frame, bind. by rewrite Hexp.
  - apply quiet_patchComponent in Hexp as [-> _]. done.
  - apply quiet_patchComponent in Hexp as [_ (evs & -> & Hevs)].
    intros old new [H|H]%elem_of_app; [done|].
    rewrite Forall_forall in Hevs. destruct (Hevs _ H) as (? & ? & [=]).
Qed.

(** *** The assertion on the old element's native node *)

(** C3.  For an unparsed frame whose pair resolves, after component
    expansion, to a present old element [o]: if [o.dom] is missing when the
    difference has been computed, the walk throws the error of the invariant
    assertion, at once and for good (the turn, and the whole loop, end in
    that throw; no batch entry is pushed); if [o.dom] is present, the frame
    is parsed normally: one batch entry for the pair is pushed and the frame
    is marked parsed.  The polarity of [invariant] is the one of the spec. *)
Theorem missing_native_node_is_fatal fuel L top rest next context ne o oeE s s1 :
  stack L = top :: rest →
  frames L !! top = Some next →
  Frame.parsed next = false →
  patchComponent C fuel (Frame.context next) (Frame.newElement next)
    (Frame.oldElement next) s = Ok (context, ne, Some o) s1 →
  heap (world s1) !! o = Some oeE →
  (∀ n, ne = Some n → is_Some (heap (world s1) !! n)) →
  (∀ p, parent L = Some p → is_Some (frames L !! p)) →
  (El.dom oeE = None →
     ∃ s2,
       parse_frame C fuel L top next s
         = Throw (Error "Dom element was accidentally removed.") s2
       ∧ patch_iteration C fuel L s
         = Throw (Error "Dom element was accidentally removed.") s2
       ∧ (∀ turns, patch_loop C (S turns) fuel L s
         = Throw (Error "Dom element was accidentally removed.") s2)
       ∧ Stem.batchs (this s2) = Stem.batchs (this s))
  ∧ (is_Some (El.dom oeE) →
     ∃ fs b s2 f,
       parse_frame C fuel L top next s = Ok (Some (fs, context, Some o)) s2
       ∧ Stem.batchs (this s2) = Stem.batchs (this s) ++ [b]
       ∧ Batch.newElement b = ne ∧ Batch.oldElement b = Some o
       ∧ fs !! top = Some f ∧ Frame.parsed f = true
       ∧ Frame.newElement f = ne ∧ Frame.oldElement f = Some o).
Proof.
  intros Hstack Hnext Hparsed Hexp Ho Hn Hp.
  pose proof (visit_pair_old L top next context ne o oeE s1 Ho Hn Hp) as Hv.
  cbv zeta in Hv.
  assert (Hparse : parse_frame C fuel L top next s
                   = visit_pair C L top next context ne (Some o) s1).
  { unfold parse_frame, bind. by rewrite Hexp. }
  assert (Hiter : ∀ e s2, parse_frame C fuel L top next s = Throw e s2 →
                  patch_iteration C fuel L s = Throw e s2).
  { intros e s2 H. unfold patch_iteration. rewrite Hstack.
    rewrite (bind_Ok _ _ s next s) by (unfold frame_at; by rewrite Hnext).
    rewrite Hparsed. by apply bind_Throw. }
  pose proof (quiet_patchComponent _ _ _ _ _ _ _ Hexp) as [Hthis _].
  split.
  - intros Hdom. rewrite Hdom in Hv. simpl in Hv. rewrite <- Hparse in Hv.
    eexists. split; [exact Hv|]. split; [by apply Hiter|]. split.
    + intros turns. simpl. rewrite Hstack. by apply bind_Throw, Hiter.
    + simpl. destruct ne; simpl; by rewrite Hthis.
  - intros [d Hdom]. rewrite Hdom in Hv. simpl in Hv. rewrite <- Hparse in Hv.
    eexists _, _, _, _. split; [exact Hv|]. simpl. rewrite Hthis.
    split; [done|]. split; [done|]. split; [done|].
    split.
    { apply list_lookup_insert_eq. rewrite length_insert.
      by eapply lookup_lt_Some. }
    done.
Qed.

(** *** Subtree-root identity travels from old to new *)

(** C8.  For an unparsed frame whose pair resolves, after component
    expansion, to a present new element [n] and a present old element [o]:
    [n._stem] is set to the value [o._stem] had, and the difference of the
    pair is [diff] evaluated in the world where that write has been made
    ([diff] is called once, after the write).  This holds whether the turn
    then passes the native-node assertion or stops at it. *)
Theorem new_element_inherits_stem fuel L top rest next context n o oeE s s1 :
  stack L = top :: rest →
  frames L !! top = Some next →
  Frame.parsed next = false →
  patchComponent C fuel (Frame.context next) (Frame.newElement next)
    (Frame.oldElement next) s = Ok (context, Some n, Some o) s1 →
  heap (world s1) !! o = Some oeE →
  is_Some (heap (world s1) !! n) →
  (∀ p, parent L = Some p → is_Some (frames L !! p)) →
  let s2 := inherit_stem (Some n) (El._stem oeE) s1 in
  let d := diff C (world s2) (Some o) (Some n) in
  El._stem <$> heap (world s2) !! n = Some (El._stem oeE)
  ∧ ∃ s3,
      world s3 = world s2
      ∧ log s3 = log s1 ++ [EvDiff (Some o) (Some n)]
      ∧ (parse_frame C fuel L top next s
           = Throw (Error "Dom element was accidentally removed.") s3
         ∨ ∃ fs b f,
             parse_frame C fuel L top next s
               = Ok (Some (fs, context, Some o)) s3
             ∧ Stem.batchs (this s3) = Stem.batchs (this s) ++ [b]
             ∧ Batch.difference b = d
             ∧ fs !! top = Some f ∧ Frame.difference f = Some d).
Proof.
  intros Hstack Hnext Hparsed Hexp Ho [neE Hne] Hp s2 d.
  assert (Hn : ∀ n0, Some n = Some n0 → is_Some (heap (world s1) !! n0)).
  { intros ? [= <-]. by eexists. }
  pose proof (visit_pair_old L top next context (Some n) o oeE s1 Ho Hn Hp) as Hv.
  cbv zeta in Hv.
  assert (Hparse : parse_frame C fuel L top next s
                   = visit_pair C L top next context (Some n) (Some o) s1).
  { unfold parse_frame, bind. by rewrite Hexp. }
  pose proof (quiet_patchComponent _ _ _ _ _ _ _ Hexp) as [Hthis _].
  rewrite <- Hparse in Hv. split.
  - subst s2. simpl. by rewrite lookup_alter_eq, Hne.
  - destruct (El.dom oeE) as [dd|]; simpl in Hv.
    + eexists. split; [|split; [|right; eexists _, _, _; split; [exact Hv|]]];
        simpl; try done.
      rewrite Hthis. split; [done|]. split; [done|]. split.
      { apply list_lookup_insert_eq. rewrite length_insert.
        by eapply lookup_lt_Some. }
      done.
    + eexists. split; [|split; [|left; exact Hv]]; done.
Qed.

End PatchFacts.

Lemma absent_pair_is_skipped_witness :
  patch_iteration Sample.collaborators 5
    (mkLocals [0%nat] [Scene.absent_frame] None) Scene.attached
  = Ok (mkLocals [] [Scene.absent_frame] None) Scene.attached.
Proof.
  refine (proj1 (absent_pair_is_skipped Sample.collaborators 5
            (mkLocals [0%nat] [Scene.absent_frame] None) 0 []
            Scene.absent_frame [] Scene.attached Scene.attached _ _ _ _));
    reflexivity.
Defined.

Lemma missing_native_node_is_fatal_witness :
  (∃ s2,
     parse_frame Sample.collaborators 5
       (mkLocals [0%nat] (makeInitialStackState [] (Some 2%nat) (Some 3%nat)) None)
       0 (Frame.mk [] (Some 2%nat) (Some 3%nat) None None false None (Some 2%nat) false)
       Scene.attached
     = Throw (Error "Dom element was accidentally removed.") s2)
  ∧ (∃ fs b s2,
     parse_frame Sample.collaborators 5
       (mkLocals [0%nat] (makeInitialStackState [] (Some 2%nat) (Some 1%nat)) None)
       0 (Frame.mk [] (Some 2%nat) (Some 1%nat) None None false None (Some 2%nat) false)
       Scene.attached
     = Ok (Some (fs, [], Some 1%nat)) s2
     ∧ Stem.batchs (this s2) = [b]).
Proof.
  split.
  - destruct (proj1 (missing_native_node_is_fatal Sample.collaborators 5
        (mkLocals [0%nat] (makeInitialStackState [] (Some 2%nat) (Some 3%nat)) None)
        0 [] _ [] (Some 2%nat) 3 (Sample.element "span" None [] None)
        Scene.attached Scene.attached
        eq_refl eq_refl eq_refl eq_refl eq_refl
        (λ n E, ex_intro _ (Sample.element "div" None [] None)
                  (match E in _ = x return
                     (if x is Some k then _ !! k else None) = Some _
                   with eq_refl => eq_refl end))
        (λ p (E : None = Some p), match E with end)) eq_refl)
      as (s2 & H & _).
    exists s2. exact H.
  - destruct (proj2 (missing_native_node_is_fatal Sample.collaborators 5
        (mkLocals [0%nat] (makeInitialStackState [] (Some 2%nat) (Some 1%nat)) None)
        0 [] _ [] (Some 2%nat) 1 (Sample.element "div" None [] (Some 100%nat))
        Scene.attached Scene.attached
        eq_refl eq_refl eq_refl eq_refl eq_refl
        (λ n E, ex_intro _ (Sample.element "div" None [] None)
                  (match E in _ = x return
                     (if x is Some k then _ !! k else None) = Some _
                   with eq_refl => eq_refl end))
        (λ p (E : None = Some p), match E with end))
        (ex_intro _ 100%nat eq_refl))
      as (fs & b & s2 & f & H & Hb & _).
    exists fs, b, s2. split; [exact H|exact Hb].
Defined.

Lemma new_element_inherits_stem_witness :
  El._stem <$> heap (world Handover.attached) !! 2%nat = Some None
  ∧ ∃ fs b s3,
      parse_frame Sample.collaborators 5 Handover.start 0
        (Frame.mk [] (Some 2%nat) (Some 1%nat) None None false None
           (Some 2%nat) false) Handover.attached
      = Ok (Some (fs, [], Some 1%nat)) s3
      ∧ El._stem <$> heap (world s3) !! 2%nat = Some (Some 0%nat)
      ∧ log s3 = [EvDiff (Some 1%nat) (Some 2%nat)]
      ∧ Stem.batchs (this s3) = [b]
      ∧ Batch.difference b
        = diff Sample.collaborators (world s3) (Some 1%nat) (Some 2%nat).
Proof.
  split; [reflexivity|].
  destruct (new_element_inherits_stem Sample.collaborators 5 Handover.start
              0 []
              (Frame.mk [] (Some 2%nat) (Some 1%nat) None None false None
                 (Some 2%nat) false)
              [] 2 1
              (El.mk (HostTag "div") None [] (Some 100%nat) (Some 0%nat) false
                 None None None)
              Handover.attached Handover.attached
              eq_refl eq_refl eq_refl eq_refl eq_refl)
    as (Hstem & s3 & Hw & Hlog & [Hthrow|(fs & b & f & Hparse & Hb & Hd & _)]).
  - by eexists.
  - intros p [=].
  - vm_compute in Hthrow. discriminate.
  - exists fs, b, s3. rewrite Hw. split; [exact Hparse|].
    split; [exact Hstem|]. split; [exact Hlog|]. split; [exact Hb|exact Hd].
Defined.

(** *** Inverting successful runs *)

Lemma ret_inv_Ok {A} (a b : A) s s' : ret a s = Ok b s' → a = b ∧ s = s'.
Proof. by intros [= -> ->]. Qed.

Lemma frame_at_inv fs r s f s' :
  frame_at fs r s = Ok f s' → fs !! r = Some f ∧ s' = s.
Proof. unfold frame_at. destruct (fs !! r); naive_solver. Qed.

Lemma deref_inv l s e s' :
  deref l s = Ok e s' → heap (world s) !! l = Some e ∧ s' = s.
Proof. unfold deref. destruct (_ !! l); naive_solver. Qed.

Lemma non_null_inv {A} what (x : option A) s a s' :
  non_null what x s = Ok a s' → x = Some a ∧ s' = s.
Proof. destruct x; simpl; [by intros [= -> ->]|done]. Qed.

(** Turns a hypothesis [m s = Ok a s'] into facts about the steps of [m]. *)
Ltac ok_inv :=
  repeat match goal with
  | H : bind _ _ _ = Ok _ _ |- _ =>
    let a := fresh "a" in let s := fresh "s" in let H1 := fresh "H" in
    apply bind_inv_Ok in H as (a & s & H1 & H)
  | H : ret _ _ = Ok _ _ |- _ => apply ret_inv_Ok in H as [? ?]; subst
  | H : frame_at _ _ _ = Ok _ _ |- _ => apply frame_at_inv in H as [H ?]; subst
  | H : deref _ _ = Ok _ _ |- _ => apply deref_inv in H as [H ?]; subst
  | H : non_null _ _ _ = Ok _ _ |- _ => apply non_null_inv in H as [? ?]; subst
  | H : throw _ _ = Ok _ _ |- _ => discriminate H
  | H : OutOfFuel = Ok _ _ |- _ => discriminate H
  | H : Dangling = Ok _ _ |- _ => discriminate H
  | H : Throw _ _ = Ok _ _ |- _ => discriminate H
  | H : Ok _ _ = Ok _ _ |- _ => simplify_eq
  | H : (let '(_, _) := ?x in _) _ = Ok _ _ |- _ => destruct x eqn:?
  | H : (let '(_, _) := ?x in _) = Ok _ _ |- _ => destruct x eqn:?
  | H : (match ?x with _ => _ end) _ = Ok _ _ |- _ => destruct x eqn:?
  | H : (match ?x with _ => _ end) = Ok _ _ |- _ => destruct x eqn:?
  | H : (_, _) = (_, _) |- _ => simplify_eq
  end.

Section WalkFacts.
Context (C : Collaborators).

Lemma same_core_refl f : same_core f f.
Proof. by repeat split. Qed.

Lemma same_core_trans f1 f2 f3 :
  same_core f1 f2 → same_core f2 f3 → same_core f1 f3.
Proof.
  intros (?&?&?&?&?&?&?) (?&?&?&?&?&?&?). repeat split; congruence.
Qed.

Lemma same_core_insert fs i f f' :
  fs !! i = Some f → same_core f f' → Forall2 same_core fs (<[i := f']> fs).
Proof.
  intros Hi Hc. apply Forall2_same_length_lookup. split.
  - by rewrite length_insert.
  - intros j x y Hx Hy. destruct (decide (i = j)) as [->|Hne].
    + rewrite list_lookup_insert_eq in Hy by (by eapply lookup_lt_Some).
      congruence.
    + rewrite list_lookup_insert_ne in Hy by done.
      assert (x = y) as -> by congruence. apply same_core_refl.
Qed.

Lemma Forall2_same_core_trans fs1 fs2 fs3 :
  Forall2 same_core fs1 fs2 → Forall2 same_core fs2 fs3 →
  Forall2 same_core fs1 fs3.
Proof.
  intros H12 H23. eapply Forall2_trans; [|done..].
  intros; by eapply same_core_trans.
Qed.

Lemma shift_oldChildren_core prev fs s oc fs' s' :
  shift_oldChildren prev fs s = Ok (oc, fs') s' →
  Forall2 same_core fs fs' ∧ s' = s.
Proof.
  unfold shift_oldChildren. intros H. ok_inv. split; [|done].
  eapply same_core_insert; [done|]. by repeat split.
Qed.

Ltac core_steps :=
  repeat match goal with
  | H : shift_oldChildren _ _ _ = Ok _ _ |- _ =>
    apply shift_oldChildren_core in H as [H ?]; subst
  end;
  match goal with
  | |- Forall2 same_core ?fs (<[?i := _]> (<[?i := ?y]> ?fs)) =>
    apply (Forall2_same_core_trans _ (<[i := y]> fs));
    (eapply same_core_insert; [eassumption | by repeat split])
  | H : Forall2 same_core (<[?i := ?y]> ?fs) ?fs'
    |- Forall2 same_core ?fs ?fs' =>
    apply (Forall2_same_core_trans _ (<[i := y]> fs)); [|exact H];
    (eapply same_core_insert; [eassumption | by repeat split])
  end.

Lemma pair_children_core ps prev fs s nc oc k fs' s' :
  pair_children C ps prev fs s = Ok (nc, oc, k, fs') s' →
  Forall2 same_core fs fs'.
Proof. unfold pair_children. intros H. ok_inv; core_steps. Qed.

Lemma createNextStackState_core context ps prev oe fs s child fs' s' :
  createNextStackState C context ps prev oe fs s = Ok (child, fs') s' →
  Forall2 same_core fs fs'
  ∧ Frame.parsed child = false
  ∧ Frame.difference child = None.
Proof.
  unfold createNextStackState. intros H.
  apply bind_inv_Ok in H as (prevF & s1 & _ & H).
  apply bind_inv_Ok in H as ([[[nc oc] k] fs1] & s2 & Hp & H).
  apply pair_children_core in Hp.
  ok_inv; done.
Qed.

Lemma frames_ok_core fs fs' :
  Forall2 same_core fs fs' → frames_ok fs → frames_ok fs'.
Proof.
  intros Hc Hok i f' Hi Hp.
  destruct (Forall2_lookup_r _ _ _ _ _ Hc Hi) as (f & Hf & Hcore).
  destruct Hcore as (_ & _ & _ & Hpar & Hdiff & _).
  rewrite Hdiff. apply (Hok i f Hf). congruence.
Qed.

Lemma frames_ok_snoc fs child :
  frames_ok fs → Frame.parsed child = false → frames_ok (fs ++ [child]).
Proof.
  intros Hok Hc i f Hi Hp. apply lookup_snoc_Some in Hi as [[_ Hi]|[_ <-]].
  - by eapply Hok.
  - congruence.
Qed.

Lemma frames_ok_insert fs i f :
  frames_ok fs → (Frame.parsed f = true → is_Some (Frame.difference f)) →
  frames_ok (<[i := f]> fs).
Proof.
  intros Hok Hf j g Hj Hp.
  apply list_lookup_insert_Some in Hj as [(-> & -> & _)|[_ Hj]]; [auto|].
  by eapply Hok.
Qed.

Lemma wants_children_inv next s b s' :
  wants_children next s = Ok b s' →
  s' = s ∧
  (b = true →
   (Frame.difference next = None
    ∨ ∃ d, Frame.difference next = Some d
           ∧ (flags d = 0%Z ∨ flags d = REPLACE_ELEMENT))
   ∧ ∃ nq, Frame.newChildren next = Some nq
           ∧ (nq ≠ [] ∨ ∃ oq, Frame.oldChildren next = Some oq ∧ oq ≠ [])).
Proof.
  unfold wants_children. intros H. ok_inv; (split; [done|]); try done.
  all: intros Hb; split;
    [ destruct (Frame.difference next) as [d|]; [right; exists d; split; [done|]|by left];
      apply orb_true_iff in Hb as [?%bool_decide_eq_true|?%bool_decide_eq_true];
      auto
    | eexists; split; [done|] ].
  - right. eexists; split; [done|]. by destruct a0.
  - by left.
Qed.

Lemma expand_frame_inv L top rest fs context oe s L' s' :
  expand_frame C L top rest fs context oe s = Ok L' s' →
  (L' = mkLocals rest fs (parent L) ∧ s' = s)
  ∨ ∃ next child fs',
      fs !! top = Some next
      ∧ (Frame.difference next = None
         ∨ ∃ d, Frame.difference next = Some d
                ∧ (flags d = 0%Z ∨ flags d = REPLACE_ELEMENT))
      ∧ (∃ nq, Frame.newChildren next = Some nq
               ∧ (nq ≠ [] ∨ ∃ oq, Frame.oldChildren next = Some oq ∧ oq ≠ []))
      ∧ createNextStackState C context (parent L) top oe fs s = Ok (child, fs') s'
      ∧ L' = mkLocals (length fs' :: top :: rest) (fs' ++ [child]) (Some top).
Proof.
  unfold expand_frame. intros H.
  apply bind_inv_Ok in H as (next & s1 & [Hnext ->]%frame_at_inv & H).
  apply bind_inv_Ok in H as (go & s2 & [-> Hgo]%wants_children_inv & H).
  destruct go; [|left; by ok_inv].
  right. destruct (Hgo eq_refl) as [Hd Hq].
  apply bind_inv_Ok in H as ([child fs'] & s3 & Hc & H). ok_inv.
  by eexists _, _, _.
Qed.

Lemma visit_pair_inv L top next context ne oe s r s' :
  visit_pair C L top next context ne oe s = Ok r s' →
  r = None
  ∨ ∃ f d fs0,
      r = Some (<[top := f]> fs0, context, oe)
      ∧ length fs0 = length (frames L)
      ∧ (∀ i, i ≠ top → fs0 !! i = frames L !! i)
      ∧ Frame.parsed f = true ∧ Frame.difference f = Some d
      ∧ Frame.newElement f = ne ∧ Frame.oldElement f = oe.
Proof.
  unfold visit_pair. intros H.
  destruct ne as [n|]; destruct oe as [o|]; try (left; by ok_inv); right.
  all: ok_inv; eexists _, _, _.
  all: split; [reflexivity|].
  all: rewrite length_insert.
  all: split; [reflexivity|].
  all: split; [|done].
  all: intros i Hi; by rewrite list_lookup_insert_ne.
Qed.

Lemma patch_iteration_frames_ok fuel L s L' s' :
  frames_ok (frames L) →
  patch_iteration C fuel L s = Ok L' s' →
  frames_ok (frames L').
Proof.
  intros Hok. unfold patch_iteration.
  destruct (stack L) as [|top rest]; [intros; by ok_inv|]. intros H.
  apply bind_inv_Ok in H as (next & s1 & [Hnext ->]%frame_at_inv & H).
  assert (Hexp : ∀ fs context oe s0,
            frames_ok fs →
            expand_frame C L top rest fs context oe s0 = Ok L' s' →
            frames_ok (frames L')).
  { intros fs context oe s0 Hfs [[-> _]|(nx & child & fs' & _ & _ & _ & Hc & ->)]%expand_frame_inv;
      [done|].
    apply createNextStackState_core in Hc as (Hcore & Hpar & _). simpl.
    apply frames_ok_snoc; [|done]. by eapply frames_ok_core. }
  destruct (Frame.parsed next); [by eapply Hexp|].
  apply bind_inv_Ok in H as (r & s2 & Hp & H).
  unfold parse_frame in Hp.
  apply bind_inv_Ok in Hp as ([[context ne] oe] & s3 & _ & Hv).
  apply visit_pair_inv in Hv as [->|(f & d & fs0 & -> & Hlen & Hsame & Hpar & Hd & _)].
  - by ok_inv.
  - eapply Hexp; [|exact H]. intros j g Hj Hg.
    apply list_lookup_insert_Some in Hj as [(-> & -> & _)|[Hne Hj]];
      [by rewrite Hd|].
    rewrite Hsame in Hj by done. by eapply Hok.
Qed.

Lemma walk_state_frames_ok fuel L s :
  walk_state C fuel L s → frames_ok (frames L).
Proof.
  induction 1 as [context newTree oldTree s|L s L' s' _ IH Hturn].
  - intros i f Hi Hp. destruct i; simpl in Hi; [|done].
    injection Hi as <-. done.
  - by eapply patch_iteration_frames_ok.
Qed.

(** *** When the walk descends into children *)

(** C4.  In every turn of the walk, child work is pushed (the frame
    re-pushed, followed by exactly one new, unparsed frame) only for a frame
    that is parsed and whose difference has [flags] equal to 0 or to
    [REPLACE_ELEMENT]; otherwise the turn pushes nothing.  Hence a frame whose
    difference has any other flags, such as a pure removal or a pure new
    insertion (one bit other than [REPLACE_ELEMENT]), never gets a child
    frame.  The [!next.difference] disjunct of the source never decides:
    along a walk every parsed frame carries its difference. *)
Theorem children_only_under_unchanged_or_replaced fuel L s top rest L' s' :
  walk_state C fuel L s →
  stack L = top :: rest →
  patch_iteration C fuel L s = Ok L' s' →
  ((stack L' = rest ∧ length (frames L') = length (frames L))
   ∨ (∃ next d child,
        frames L' !! top = Some next ∧ Frame.parsed next = true
        ∧ Frame.difference next = Some d
        ∧ (flags d = 0%Z ∨ flags d = REPLACE_ELEMENT)
        ∧ stack L' = length (frames L) :: top :: rest
        ∧ frames L' !! length (frames L) = Some child
        ∧ length (frames L') = S (length (frames L))
        ∧ Frame.parsed child = false))
  ∧ (∀ next d,
       frames L' !! top = Some next → Frame.difference next = Some d →
       flags d ≠ 0%Z → flags d ≠ REPLACE_ELEMENT →
       stack L' = rest ∧ length (frames L') = length (frames L)).
Proof.
  intros Hwalk Hstack Hturn.
  pose proof (walk_state_frames_ok _ _ _ Hwalk) as Hok.
  assert (Hmain :
    (stack L' = rest ∧ length (frames L') = length (frames L))
    ∨ (∃ next d child,
        frames L' !! top = Some next ∧ Frame.parsed next = true
        ∧ Frame.difference next = Some d
        ∧ (flags d = 0%Z ∨ flags d = REPLACE_ELEMENT)
        ∧ stack L' = length (frames L) :: top :: rest
        ∧ frames L' !! length (frames L) = Some child
        ∧ length (frames L') = S (length (frames L))
        ∧ Frame.parsed child = false)).
  { unfold patch_iteration in Hturn. rewrite Hstack in Hturn.
    apply bind_inv_Ok in Hturn as (next & s1 & [Hnext ->]%frame_at_inv & H).
    assert (Hexp : ∀ fs context oe s0 f,
              length fs = length (frames L) →
              fs !! top = Some f → Frame.parsed f = true →
              is_Some (Frame.difference f) →
              expand_frame C L top rest fs context oe s0 = Ok L' s' →
              (stack L' = rest ∧ length (frames L') = length (frames L))
              ∨ (∃ next d child,
                  frames L' !! top = Some next ∧ Frame.parsed next = true
                  ∧ Frame.difference next = Some d
                  ∧ (flags d = 0%Z ∨ flags d = REPLACE_ELEMENT)
                  ∧ stack L' = length (frames L) :: top :: rest
                  ∧ frames L' !! length (frames L) = Some child
                  ∧ length (frames L') = S (length (frames L))
                  ∧ Frame.parsed child = false)).
    { intros fs context oe s0 f Hlen Hf Hfp [d0 Hfd]
        [[-> _]|(nx & child & fs' & Hnx & Hd & _ & Hc & ->)]%expand_frame_inv;
        [by left|right].
      assert (nx = f) as -> by congruence.
      destruct Hd as [Hd|(d & Hd & Hflags)]; [congruence|].
      apply createNextStackState_core in Hc as (Hcore & Hpar & _).
      pose proof (Forall2_length _ _ _ Hcore) as Hlen'.
      destruct (Forall2_lookup_l _ _ _ _ _ Hcore Hf) as (f' & Hf' & Hsc).
      destruct Hsc as (_ & _ & _ & Hp' & Hd' & _).
      exists f', d, child. simpl.
      split; [rewrite lookup_app_l; [done|by eapply lookup_lt_Some]|].
      split; [congruence|]. split; [congruence|]. split; [done|].
      split; [by rewrite <- Hlen', Hlen|].
      split; [rewrite <- Hlen, Hlen'; by apply list_lookup_middle|].
      split; [rewrite length_app; simpl; lia|done]. }
    destruct (Frame.parsed next) eqn:Hparsed.
    - eapply Hexp; [done|exact Hnext|done| |exact H]. by eapply Hok.
    - apply bind_inv_Ok in H as (r & s2 & Hp & H).
      unfold parse_frame in Hp.
      apply bind_inv_Ok in Hp as ([[context ne] oe] & s3 & _ & Hv).
      apply visit_pair_inv in Hv
        as [->|(f & d & fs0 & -> & Hlen & Hsame & Hpar & Hd & _)].
      + left. by ok_inv.
      + eapply (Hexp _ _ _ _ f); [by rewrite length_insert| |done|by rewrite Hd|exact H].
        apply list_lookup_insert_eq. rewrite Hlen. by eapply lookup_lt_Some. }
  split; [exact Hmain|].
  intros next d Hnext Hd Hn0 Hn8.
  destruct Hmain as [?|(next' & d' & child & Hnext' & _ & Hd' & Hflags & _)];
    [done|].
  assert (d' = d) as -> by congruence. by destruct Hflags.
Qed.

End WalkFacts.

Lemma children_only_under_unchanged_or_replaced_witness :
  (stack Family.locals1 = [] ∧ length (frames Family.locals1) = 1%nat)
  ∨ (∃ next d child,
       frames Family.locals1 !! 0%nat = Some next ∧ Frame.parsed next = true
       ∧ Frame.difference next = Some d
       ∧ (flags d = 0%Z ∨ flags d = REPLACE_ELEMENT)
       ∧ stack Family.locals1 = [1%nat; 0%nat]
       ∧ frames Family.locals1 !! 1%nat = Some child
       ∧ length (frames Family.locals1) = 2%nat
       ∧ Frame.parsed child = false).
Proof.
  refine (proj1 (children_only_under_unchanged_or_replaced
    Sample.collaborators 5 Family.start Family.attached 0 []
    Family.locals1 Family.state1 _ _ _)).
  - apply walk_start.
  - reflexivity.
  - vm_compute. reflexivity.
Defined.

(** ** The Keyed Child Matcher *)

Section Matcher.
Context (C : Collaborators).

Lemma frame_at_Ok fs r f s : fs !! r = Some f → frame_at fs r s = Ok f s.
Proof. unfold frame_at. by intros ->. Qed.

Lemma deref_Ok l e s : heap (world s) !! l = Some e → deref l s = Ok e s.
Proof. unfold deref. by intros ->. Qed.

Lemma keyed_match_eval parentOld newChild s :
  valid (world s) parentOld → valid (world s) newChild →
  keyed_match C parentOld newChild s
  = Ok (keyed_hit C (world s) parentOld newChild) s.
Proof.
  intros Hpo Hnc. unfold keyed_match, keyed_hit.
  destruct parentOld as [po|]; [|done].
  destruct (Hpo po eq_refl) as [poe Hpoe].
  rewrite (bind_Ok _ _ _ _ _ (deref_Ok _ _ _ Hpoe)), Hpoe.
  destruct newChild as [nc|]; [|by destruct (El._keymap poe)].
  destruct (Hnc nc eq_refl) as [nce Hnce]. rewrite Hnce.
  destruct (El._keymap poe); [|done].
  by rewrite (bind_Ok _ _ _ _ _ (deref_Ok _ _ _ Hnce)).
Qed.

Lemma shift_oldChildren_eval prev fs f oq s :
  fs !! prev = Some f → Frame.oldChildren f = Some oq →
  shift_oldChildren prev fs s
  = Ok ((shift oq).1, <[prev := Frame.set_oldChildren (Some (shift oq).2) f]> fs) s.
Proof.
  intros Hf Hq. unfold shift_oldChildren.
  rewrite (bind_Ok _ _ _ _ _ (frame_at_Ok _ _ _ _ Hf)), Hq. simpl.
  unfold bind, ret. by destruct (shift oq).
Qed.

Lemma indexOf_lookup q x i : indexOf q x = Some i → q !! i = Some (Some x).
Proof.
  revert i. induction q as [|y q IH]; intros i; simpl; [done|].
  case_decide as Hy; [by intros [= <-]; subst|].
  destruct (indexOf q x) as [j|]; simpl; [|done].
  intros [= <-]. by apply IH.
Qed.

Lemma pair_children_eval parentState prev fs s prevF nq oq :
  fs !! prev = Some prevF →
  Frame.newChildren prevF = Some nq →
  Frame.oldChildren prevF = Some oq →
  (∀ p, parentState = Some p → is_Some (fs !! p)) →
  let newChild := (shift nq).1 in
  let parentOld := parent_field Frame.oldElement fs parentState in
  let parentNew := parent_field Frame.newElement fs parentState in
  valid (world s) newChild →
  valid (world s) parentOld →
  valid (world s) parentNew →
  ∃ oldChild isKeyedItem oq' s',
    pair_children C parentState prev fs s
    = Ok (newChild, oldChild, isKeyedItem,
          <[prev := with_queues (shift nq).2 oq' prevF]> fs) s'
    ∧ match keyed_hit C (world s) parentOld newChild with
      | Some (FoundElement m) =>
        match indexOf oq m with
        | Some i =>
          oldChild = Some m ∧ isKeyedItem = true
          ∧ oq !! i = Some (Some m) ∧ oq' = delete i oq
        | None =>
          oldChild = (shift oq).1 ∧ isKeyedItem = false ∧ oq' = (shift oq).2
        end
      | Some FoundOther | None =>
        oldChild = (shift oq).1 ∧ isKeyedItem = false ∧ oq' = (shift oq).2
      end
    ∧ (∀ l, is_Some (heap (world s') !! l) ↔ is_Some (heap (world s) !! l))
    ∧ world s' = matcher_world C (world s) parentOld parentNew newChild.
Proof.
  intros Hprev Hnq Hoq Hps newChild parentOld parentNew Hnc Hpo Hpn.
  assert (Hlt : prev < length fs) by (by eapply lookup_lt_Some).
  set (fs1 := <[prev := Frame.set_newChildren (Some (shift nq).2) prevF]> fs).
  assert (Hprev1 : fs1 !! prev
                   = Some (Frame.set_newChildren (Some (shift nq).2) prevF)).
  { by apply list_lookup_insert_eq. }
  assert (Hpos : ∀ s0,
    shift_oldChildren prev fs1 s0
    = Ok ((shift oq).1, <[prev := with_queues (shift nq).2 (shift oq).2 prevF]> fs) s0).
  { intros s0. rewrite (shift_oldChildren_eval _ _ _ oq _ Hprev1) by done.
    subst fs1. by rewrite list_insert_insert_eq. }
  unfold pair_children.
  rewrite (bind_Ok _ _ _ _ _ (frame_at_Ok _ _ _ _ Hprev)), Hnq. simpl non_null.
  unfold bind at 1, ret at 1.
  destruct (shift nq) as [nc nq'] eqn:Hshift. simpl in *. fold fs1.
  subst newChild.
  assert (Hfallback : ∀ s0 : State,
    (r <- shift_oldChildren prev fs1;;
     (let '(oldChild0, fs') := r in ret (nc, oldChild0, false, fs'))) s0
    = Ok (nc, (shift oq).1, false,
          <[prev := with_queues nq' (shift oq).2 prevF]> fs) s0).
  { intros s0. by rewrite (bind_Ok _ _ _ _ _ (Hpos s0)). }
  destruct parentState as [p|]; simpl in *;
    [|eexists _, _, _, _; split; [apply Hfallback|done]].
  unfold matcher_world.
  destruct (Hps p eq_refl) as [parentF HparentF].
  assert (∃ parentF', fs1 !! p = Some parentF'
            ∧ Frame.oldElement parentF' = Frame.oldElement parentF
            ∧ Frame.newElement parentF' = Frame.newElement parentF)
    as (parentF' & HparentF' & Hold & Hnew).
  { subst fs1. destruct (decide (prev = p)) as [->|Hne].
    - rewrite list_lookup_insert_eq by done. eexists. split; [done|].
      assert (parentF = prevF) as -> by congruence. done.
    - rewrite list_lookup_insert_ne by done. by eexists. }
  subst parentOld parentNew. rewrite HparentF in *.
  rewrite (bind_Ok _ _ _ _ _ (frame_at_Ok _ _ _ _ HparentF')).
  rewrite Hold, Hnew.
  rewrite (bind_Ok _ _ _ _ _ (keyed_match_eval _ _ _ Hpo Hnc)).
  destruct (keyed_hit C (world s) (Frame.oldElement parentF) nc)
    as [found|] eqn:Hhit;
    [|eexists _, _, _, _; split; [apply Hfallback|done]].
  destruct nc as [nc0|]; [|by destruct (Frame.oldElement parentF)].
  destruct (Hnc nc0 eq_refl) as [nce Hnce]. rewrite Hnce.
  assert (∃ s1,
    (match Frame.newElement parentF with
     | Some pn =>
       pne <- deref pn;;
       match El._keymap pne with
       | Some _ => ret ()
       | None =>
         nce <- deref nc0;;
         update_el pn
           (El.set_keymap
              (Some (literal_with (property_name (El.key nce)) nc0)))
       end
     | None => ret ()
     end) s = Ok tt s1
    ∧ (∀ l, is_Some (heap (world s1) !! l) ↔ is_Some (heap (world s) !! l))
    ∧ world s1
      = match Frame.newElement parentF with
        | Some pn =>
          match heap (world s) !! pn with
          | Some pne =>
            match El._keymap pne with
            | None =>
              set_heap
                (alter (El.set_keymap
                          (Some (literal_with (property_name (El.key nce))
                                   nc0)))
                   pn (heap (world s))) (world s)
            | Some _ => world s
            end
          | None => world s
          end
        | None => world s
        end)
    as (s1 & Hs1 & Hdom & Hworld).
  { destruct (Frame.newElement parentF) as [pn|]; [|by eexists].
    destruct (Hpn pn eq_refl) as [pne Hpne].
    rewrite (bind_Ok _ _ _ _ _ (deref_Ok _ _ _ Hpne)), Hpne.
    destruct (El._keymap pne); [by eexists|].
    rewrite (bind_Ok _ _ _ _ _ (deref_Ok _ _ _ Hnce)).
    eexists. split; [done|]. split; [|done].
    intros l. simpl. apply lookup_alter_is_Some. }
  rewrite (bind_Ok _ _ _ _ _ Hs1).
  rewrite (bind_Ok _ _ _ _ _ (frame_at_Ok _ _ _ _ Hprev1)). simpl.
  rewrite Hoq. simpl non_null. unfold bind at 1, ret at 1.
  destruct found as [m|]; unfold index_of_found;
    [|eexists _, _, _, _; split; [apply Hfallback|done]].
  destruct (indexOf oq m) as [i|] eqn:Hidx; simpl.
  - eexists _, _, _, _. split; [|split; [|split; [exact Hdom|exact Hworld]]].
    + unfold ret. subst fs1. rewrite list_insert_insert_eq. reflexivity.
    + split; [done|]. split; [done|]. split; [|done]. by apply indexOf_lookup.
  - eexists _, _, _, _. split; [apply Hfallback|done].
Qed.

(** C6.  Every invocation of the matcher on a live store pops the next new
    child and pairs it as follows.  When the old element of [parentState]
    has a key index that files an old child [m] under the new child's key:
    if [m] is still in [prev]'s old-children queue, [m] is the paired old
    child, it is spliced out of the queue (at its first position) and the
    pairing is keyed; if [m] is no longer in the queue, the next old child
    is dequeued and the pairing is not keyed.  In every other case (no key
    index, no new child, nothing under the key, or a value that is no
    element, read from a name the index inherits) the next old child is
    dequeued and the pairing is not keyed.  The frame
    [createNextStackState] returns carries exactly that old child and that
    flag. *)
Theorem keyed_child_matcher parentState prev fs s prevF nq oq :
  fs !! prev = Some prevF →
  Frame.newChildren prevF = Some nq →
  Frame.oldChildren prevF = Some oq →
  (∀ p, parentState = Some p → is_Some (fs !! p)) →
  let newChild := (shift nq).1 in
  let parentOld := parent_field Frame.oldElement fs parentState in
  let parentNew := parent_field Frame.newElement fs parentState in
  valid (world s) newChild →
  valid (world s) parentOld →
  valid (world s) parentNew →
  ∃ oldChild isKeyedItem oq' s',
    pair_children C parentState prev fs s
    = Ok (newChild, oldChild, isKeyedItem,
          <[prev := with_queues (shift nq).2 oq' prevF]> fs) s'
    ∧ match keyed_hit C (world s) parentOld newChild with
      | Some (FoundElement m) =>
        match indexOf oq m with
        | Some i =>
          oldChild = Some m ∧ isKeyedItem = true
          ∧ oq !! i = Some (Some m) ∧ oq' = delete i oq
        | None =>
          oldChild = (shift oq).1 ∧ isKeyedItem = false ∧ oq' = (shift oq).2
        end
      | Some FoundOther | None =>
        oldChild = (shift oq).1 ∧ isKeyedItem = false ∧ oq' = (shift oq).2
      end
    ∧ (∀ context oldElement,
         valid (world s) (Frame.newElement prevF) →
         (newChild = None ∨ is_Some (Frame.newElement prevF)) →
         ∃ child s'',
           createNextStackState C context parentState prev oldElement fs s
           = Ok (child, <[prev := with_queues (shift nq).2 oq' prevF]> fs) s''
           ∧ Frame.oldElement child = oldChild
           ∧ Frame.isKeyedItem child = isKeyedItem
           ∧ Frame.parsed child = false).
Proof.
  intros Hprev Hnq Hoq Hps newChild parentOld parentNew Hnc Hpo Hpn.
  assert (Hrest : ∀ oldChild isKeyedItem fs' s',
    pair_children C parentState prev fs s
      = Ok (newChild, oldChild, isKeyedItem, fs') s' →
    (∀ l, is_Some (heap (world s') !! l) ↔ is_Some (heap (world s) !! l)) →
    ∀ context oldElement,
      valid (world s) (Frame.newElement prevF) →
      (newChild = None ∨ is_Some (Frame.newElement prevF)) →
      ∃ child s'',
        createNextStackState C context parentState prev oldElement fs s
        = Ok (child, fs') s''
        ∧ Frame.oldElement child = oldChild
        ∧ Frame.isKeyedItem child = isKeyedItem
        ∧ Frame.parsed child = false).
  { intros oldChild isKeyedItem fs' s' Hpair Hdom context oldElement Hvn Hown.
    unfold createNextStackState.
    rewrite (bind_Ok _ _ _ _ _ (frame_at_Ok _ _ _ _ Hprev)).
    rewrite (bind_Ok _ _ _ _ _ Hpair).
    destruct newChild as [nc|] eqn:Hnc'; [|by eexists _, _].
    assert (is_Some (heap (world s') !! nc)) as [nce Hnce]
      by (apply Hdom; by apply Hnc).
    unfold bind at 1. unfold bind at 1. rewrite (deref_Ok _ _ _ Hnce).
    destruct (El._unmounted nce); [by eexists _, _|].
    assert (Hown' : ∀ root', ∃ s'',
      (match Some nc with
       | Some nc0 =>
         nce <- deref nc0;;
         if truthy (El._ownerElement nce) then ret ()
         else
           pn <- non_null "prev.newElement" (Frame.newElement prevF);;
           pne <- deref pn;;
           update_el nc0 (El.set_ownerElement (El._ownerElement pne))
       | None => ret ()
       end;;;
       ret (Frame.mk context (Some nc) oldChild None None false None root'
              isKeyedItem, fs')) s'
      = Ok (Frame.mk context (Some nc) oldChild None None false None root'
              isKeyedItem, fs') s'').
    { intros root'. unfold bind at 1.
      rewrite (bind_Ok _ _ _ _ _ (deref_Ok _ _ _ Hnce)).
      destruct (truthy (El._ownerElement nce)); [by eexists|].
      destruct Hown as [?|[pn Hpn']]; [done|]. rewrite Hpn'. simpl non_null.
      unfold bind at 1, ret at 1.
      assert (is_Some (heap (world s') !! pn)) as [pne Hpne]
        by (apply Hdom; by apply Hvn).
      rewrite (bind_Ok _ _ _ _ _ (deref_Ok _ _ _ Hpne)). by eexists. }
    destruct (truthy (El._stem nce)); unfold ret at 1; cbv beta iota.
    - destruct (Hown' (Some nc)) as [s'' Hs'']. by eexists _, _.
    - destruct (Hown' (Frame.root prevF)) as [s'' Hs'']. by eexists _, _. }
  destruct (pair_children_eval parentState prev fs s prevF nq oq
              Hprev Hnq Hoq Hps Hnc Hpo Hpn)
    as (oldChild & isKeyedItem & oq' & s' & Hpair & Hcase & Hdom & _).
  exists oldChild, isKeyedItem, oq', s'. split; [done|]. split; [done|].
  intros context oldElement. by eapply Hrest.
Qed.

End Matcher.

Lemma keyed_child_matcher_witness :
  ∃ s',
    pair_children Sample.collaborators (Some 0%nat) 0 [Keyed.frame0]
      Family.attached
    = Ok (Some 21%nat, Some 11%nat, true,
          [with_queues [] [Some 12%nat] Keyed.frame0]) s'.
Proof.
  destruct (keyed_child_matcher Sample.collaborators (Some 0%nat) 0
              [Keyed.frame0] Family.attached
              Keyed.frame0 [Some 21%nat] [Some 12%nat; Some 11%nat]
              eq_refl eq_refl eq_refl)
    as (oldChild & isKeyedItem & oq' & s' & Hpair & Hcase & _).
  - intros p [= <-]. by eexists.
  - intros l [= <-]. by eexists.
  - intros l [= <-]. by eexists.
  - intros l [= <-]. by eexists.
  - vm_compute in Hcase. destruct Hcase as (-> & -> & _ & ->).
    exists s'. exact Hpair.
Defined.

(** The matcher inside a walk.  [patch] passes as [parentState] the frame it
    expanded last (lines 470-472: the call comes before [parent = next]),
    which for the first child of a frame is not that frame.  On the
    reordered list of [Family] the first new child (b) finds no parent state
    and is paired with the first old child (a); the second (a) finds its
    keyed match already consumed and is paired with what is left (b). *)
Example keyed_reorder_in_a_walk :
  (λ b, (Batch.newElement b, Batch.oldElement b, Batch.isKeyedItem b))
    <$> Stem.batchs (this FamilyWalk.final)
  = [ (Some 20%nat, Some 10%nat, false);
      (Some 22%nat, Some 11%nat, false);
      (Some 21%nat, Some 12%nat, false) ].
Proof. by vm_compute. Qed.

(** ** Key indexes created by the matcher *)

Lemma keymap_step_refl s : keymap_step s s.
Proof. intros l. by left. Qed.

Lemma keymap_step_trans s1 s2 s3 :
  keymap_step s1 s2 → keymap_step s2 s3 → keymap_step s1 s3.
Proof.
  intros H12 H23 l. destruct (H12 l) as [E12|[N1 (k & c & E2)]];
    destruct (H23 l) as [E23|[N2 (k' & c' & E3)]].
  - left. congruence.
  - right. split; [congruence|]. by eexists _, _.
  - right. split; [done|]. exists k, c. congruence.
  - congruence.
Qed.

Lemma keymap_step_same_world s s' : world s' = world s → keymap_step s s'.
Proof. intros E l. left. by rewrite E. Qed.

Lemma keymap_of_alter f l0 h n w l :
  (∀ e, El._keymap (f e) = El._keymap e) →
  keymap_of (mkWorld (alter f l0 h) n w) l = keymap_of (mkWorld h n w) l.
Proof.
  intros Hf. unfold keymap_of; simpl. rewrite lookup_alter.
  case_decide; [subst|done]. destruct (h !! l); simpl; [apply Hf|done].
Qed.

Lemma keymap_step_update_el l f :
  (∀ e, El._keymap (f e) = El._keymap e) →
  keeps keymap_step (update_el l f).
Proof.
  intros Hf. apply keeps_modify. intros s l'. left.
  destruct s as [[h n w] lg t]. simpl. by apply keymap_of_alter.
Qed.

Lemma keymap_step_modify_this f :
  keeps keymap_step (modify (λ s, set_this (f s) s)).
Proof. apply keeps_modify. intros s. by apply keymap_step_same_world. Qed.

Lemma keymap_step_say e : keeps keymap_step (say e).
Proof. apply keeps_modify. intros s. by apply keymap_step_same_world. Qed.

Ltac keymap_leaf :=
  first
    [ apply keymap_step_say
    | apply keymap_step_modify_this
    | apply keymap_step_update_el; by intros [] ].

Section MatcherWrites.
Context (C : Collaborators).

(** The only write of the matcher to a key index: on the new parent, when
    that element has none, a fresh index made of a literal and the
    assignment of the new child. *)
Lemma pair_children_world ps prev fs s r s' :
  pair_children C ps prev fs s = Ok r s' →
  world s' = world s
  ∨ ∃ pn pne nc nce,
      parent_field Frame.newElement fs ps = Some pn
      ∧ heap (world s) !! pn = Some pne ∧ El._keymap pne = None
      ∧ r.1.1.1 = Some nc ∧ heap (world s) !! nc = Some nce
      ∧ world s'
        = set_heap
            (alter
               (El.set_keymap
                  (Some (literal_with (property_name (El.key nce)) nc)))
               pn (heap (world s)))
            (world s).
Proof.
  unfold pair_children. intros H.
  apply bind_inv_Ok in H as (prevF & s1 & [Hprev ->]%frame_at_inv & H).
  apply bind_inv_Ok in H as (nq & s1 & [Hnq ->]%non_null_inv & H).
  destruct (shift nq) as [newChild nq'].
  destruct ps as [p|]; [|left; ok_inv;
    match goal with
    | H : shift_oldChildren _ _ _ = Ok _ _ |- _ =>
      by apply shift_oldChildren_core in H as [_ ->]
    end].
  apply bind_inv_Ok in H as (parentF & s1 & [HparentF ->]%frame_at_inv & H).
  assert (Hpn : parent_field Frame.newElement fs (Some p)
                = Frame.newElement parentF).
  { simpl. destruct (decide (prev = p)) as [->|Hne].
    - rewrite list_lookup_insert_eq in HparentF
        by (by eapply lookup_lt_Some).
      injection HparentF as <-. by rewrite Hprev.
    - rewrite list_lookup_insert_ne in HparentF by done. by rewrite HparentF. }
  rewrite Hpn. clear Hpn.
  apply bind_inv_Ok in H as (hit & s1 & Hhit & H).
  assert (s1 = s) as ->.
  { unfold keyed_match, read_world in Hhit. by ok_inv. }
  clear Hhit.
  destruct hit as [m|], newChild as [nc|];
    try (left; ok_inv;
         match goal with
         | H : shift_oldChildren _ _ _ = Ok _ _ |- _ =>
           by apply shift_oldChildren_core in H as [_ ->]
         end).
  apply bind_inv_Ok in H as ([] & s1 & Hk & H).
  assert (Hs' : s' = s1).
  { clear Hk. ok_inv; try done.
    all: match goal with
         | H : shift_oldChildren _ _ _ = Ok _ _ |- _ =>
           by apply shift_oldChildren_core in H as [_ ->]
         end. }
  assert (Hr : r.1.1.1 = Some nc).
  { clear Hk. ok_inv; try done.
    all: match goal with
         | H : shift_oldChildren _ _ _ = Ok _ _ |- _ =>
           by apply shift_oldChildren_core in H as [_ ->]
         end. }
  subst s'. clear H.
  destruct (Frame.newElement parentF) as [pn|]; [|left; by ok_inv].
  apply bind_inv_Ok in Hk as (pne & s2 & [Hpne ->]%deref_inv & Hk).
  destruct (El._keymap pne) eqn:Hkm; [left; by ok_inv|].
  apply bind_inv_Ok in Hk as (nce & s2 & [Hnce ->]%deref_inv & Hk).
  right. exists pn, pne, nc, nce. repeat (split; [done|]).
  unfold update_el, modify in Hk. by injection Hk as <-.
Qed.

Lemma keymap_step_pair_children ps prev fs :
  keeps keymap_step (pair_children C ps prev fs).
Proof.
  intros s r s' [E|(pn & pne & nc & nce & _ & Hpne & Hkm & _ & _ & E)]%pair_children_world.
  - by apply keymap_step_same_world.
  - intros l. unfold keymap_of. rewrite E. simpl. rewrite lookup_alter.
    case_decide; [subst|by left]. rewrite Hpne. simpl. right.
    split; [done|]. by eexists _, _.
Qed.

Lemma keymap_step_createNextStackState context ps prev oe fs :
  keeps keymap_step (createNextStackState C context ps prev oe fs).
Proof.
  unfold createNextStackState.
  keeps_with keymap_step_refl keymap_step_trans
    ltac:(first [apply keymap_step_pair_children | keymap_leaf]).
Qed.

End MatcherWrites.

Section KeymapFacts.
Context (C : Collaborators).
Context (Hcollab : keymaps_untouched C).

Lemma keymap_step_instantiate context el old :
  keeps keymap_step (instantiate C context el old).
Proof using Hcollab.
  intros s r s'. unfold instantiate, say, call_world_ret, modify, bind; simpl.
  destruct (instantiateComponent C context el old (world s)) as [a w] eqn:E.
  intros [= _ <-]. intros l. left. simpl.
  specialize (Hcollab context el old (world s) l). by rewrite E in Hcollab.
Qed.

Lemma keymap_step_remount_loop fuel : ∀ context newElement,
  keeps keymap_step (remount_loop C fuel context newElement).
Proof using Hcollab.
  induction fuel as [|fuel IH]; intros context [n|]; simpl;
    keeps_with keymap_step_refl keymap_step_trans
      ltac:(first [apply keymap_step_instantiate | apply IH | keymap_leaf]);
    done.
Qed.

Lemma keymap_step_reuse_loop fuel : ∀ context newElement oldElement,
  keeps keymap_step (reuse_loop C fuel context newElement oldElement).
Proof using Hcollab.
  induction fuel as [|fuel IH]; intros context [n|] oldElement; simpl;
    keeps_with keymap_step_refl keymap_step_trans
      ltac:(first [apply keymap_step_instantiate | apply IH | keymap_leaf]);
    done.
Qed.

Lemma keymap_step_patchComponent fuel context newElement oldElement :
  keeps keymap_step (patchComponent C fuel context newElement oldElement).
Proof using Hcollab.
  unfold patchComponent.
  keeps_with keymap_step_refl keymap_step_trans
    ltac:(first [apply keymap_step_remount_loop | apply keymap_step_reuse_loop]).
Qed.

Lemma keymap_step_visit_pair L top next context ne oe :
  keeps keymap_step (visit_pair C L top next context ne oe).
Proof.
  unfold visit_pair, invariant, push_batch, children_slice.
  keeps_with keymap_step_refl keymap_step_trans ltac:(keymap_leaf).
Qed.

Lemma keymap_step_patch_iteration fuel L :
  keeps keymap_step (patch_iteration C fuel L).
Proof using Hcollab.
  unfold patch_iteration, parse_frame, expand_frame, wants_children.
  keeps_with keymap_step_refl keymap_step_trans
    ltac:(first [ apply keymap_step_patchComponent
                | apply keymap_step_visit_pair
                | apply keymap_step_createNextStackState
                | keymap_leaf ]).
Qed.

Lemma keymap_step_patch_loop turns fuel : ∀ L,
  keeps keymap_step (patch_loop C turns fuel L).
Proof using Hcollab.
  induction turns as [|turns IH]; intros L; simpl;
    keeps_with keymap_step_refl keymap_step_trans
      ltac:(first [apply keymap_step_patch_iteration | apply IH]);
    done.
Qed.

End KeymapFacts.


(** A literal with one assignment has one entry of its own, unless the
    assignment was to [__proto__]. *)
Lemma literal_with_entries k c :
  entries (literal_with k c)
  = (if decide (k = "__proto__") then ∅ else {[ k := c ]}).
Proof. unfold literal_with. by case_decide. Qed.

Lemma literal_with_size k c :
  size (entries (literal_with k c))
  = (if decide (k = "__proto__") then 0 else 1)%nat.
Proof.
  rewrite literal_with_entries. case_decide; [done|].
  apply map_size_singleton.
Qed.

(** C10 (as amended).  (1) When the matcher's keyed lookup yields a truthy
    value and the new parent element has no [_keymap], the matcher creates
    one from an empty literal and assigns the popped child under its key:
    the index has exactly one entry of its own, the popped child, unless the
    key is [__proto__], for which the assignment sets the prototype and the
    index has no entry of its own.  (2) When the new parent already has a
    [_keymap], the matcher leaves it as it is: the popped child is never
    added.  No other element's [_keymap] changes.  (3) In a whole walk with
    collaborators that do not write [_keymap] fields themselves, a key index
    that exists survives unchanged, and a key index that did not exist
    before and exists at the end is such a literal: it has one entry of its
    own, or none when the key was [__proto__], whatever the number of keyed
    children. *)
Theorem matcher_key_index_is_written_once (C : Collaborators) :
  (∀ parentState prev fs s prevF nq oq pn found,
     fs !! prev = Some prevF →
     Frame.newChildren prevF = Some nq →
     Frame.oldChildren prevF = Some oq →
     (∀ p, parentState = Some p → is_Some (fs !! p)) →
     let newChild := (shift nq).1 in
     let parentOld := parent_field Frame.oldElement fs parentState in
     valid (world s) newChild →
     valid (world s) parentOld →
     parent_field Frame.newElement fs parentState = Some pn →
     is_Some (heap (world s) !! pn) →
     keyed_hit C (world s) parentOld newChild = Some found →
     ∃ r s',
       pair_children C parentState prev fs s = Ok r s'
       ∧ (keymap_of (world s) pn = None →
          ∃ nc nce index,
            newChild = Some nc ∧ heap (world s) !! nc = Some nce
            ∧ keymap_of (world s') pn = Some index
            ∧ let k := property_name (El.key nce) in
              if decide (k = "__proto__")
              then index = mkIndex ∅ (ElementPrototype nc)
              else index = mkIndex {[ k := nc ]} ObjectPrototype)
       ∧ (∀ km, keymap_of (world s) pn = Some km →
                keymap_of (world s') pn = Some km)
       ∧ (∀ l, l ≠ pn → keymap_of (world s') l = keymap_of (world s) l))
  ∧ (∀ turns fuel L s s',
       keymaps_untouched C →
       patch_loop C turns fuel L s = Ok tt s' →
       ∀ l,
         (∀ km, keymap_of (world s) l = Some km →
                keymap_of (world s') l = Some km)
         ∧ (∀ km, keymap_of (world s) l = None →
                  keymap_of (world s') l = Some km →
                  (∃ k c, k ≠ "__proto__"
                          ∧ km = mkIndex {[ k := c ]} ObjectPrototype
                          ∧ size (entries km) = 1%nat)
                  ∨ (∃ c, km = mkIndex ∅ (ElementPrototype c)
                          ∧ size (entries km) = 0%nat))).
Proof.
  split.
  - intros parentState prev fs s prevF nq oq pn found Hprev Hnq Hoq Hps
      newChild parentOld Hnc Hpo Hpn [pne Hpne] Hhit.
    assert (Hvn : valid (world s)
                    (parent_field Frame.newElement fs parentState)).
    { rewrite Hpn. intros ? [= <-]. by eexists. }
    destruct (pair_children_eval C parentState prev fs s prevF nq oq
                Hprev Hnq Hoq Hps Hnc Hpo Hvn)
      as (oldChild & isKeyedItem & oq' & s' & Hpair & _ & _ & Hworld).
    eexists _, s'. split; [exact Hpair|].
    unfold matcher_world in Hworld. fold newChild parentOld in Hworld.
    rewrite Hhit, Hpn in Hworld.
    destruct newChild as [nc|] eqn:Hnc'.
    2:{ unfold keyed_hit in Hhit. by destruct parentOld. }
    destruct (Hnc nc eq_refl) as [nce Hnce].
    rewrite Hpne, Hnce in Hworld.
    unfold keymap_of. rewrite Hworld, Hpne. split; [|split].
    + intros Hnone. simpl in Hnone. rewrite Hnone. simpl.
      exists nc, nce, (literal_with (property_name (El.key nce)) nc).
      split; [done|]. split; [done|].
      split; [by rewrite lookup_alter_eq, Hpne|].
      unfold literal_with. by case_decide.
    + intros km Hkm. simpl in Hkm. rewrite Hkm. by rewrite Hpne.
    + intros l Hl. destruct (El._keymap pne); [done|]. simpl.
      by rewrite lookup_alter_ne.
  - intros turns fuel L s s' Hcollab Hloop l.
    pose proof (keymap_step_patch_loop C Hcollab turns fuel L s tt s' Hloop l)
      as [E|[Hnone (k & c & E)]].
    + split; [intros km Hkm; congruence|]. intros km Hnone Hkm. congruence.
    + split; [intros km Hkm; congruence|]. intros km _ Hkm.
      assert (km = literal_with k c) as -> by congruence.
      unfold literal_with. case_decide.
      * right. by exists c.
      * left. exists k, c. split; [done|]. split; [done|].
        apply map_size_singleton.
Qed.

Lemma sample_keymaps_untouched : keymaps_untouched Sample.collaborators.
Proof. by intros context el old w l. Qed.

Lemma matcher_key_index_is_written_once_witness :
  (∃ r s',
     pair_children Sample.collaborators (Some 0%nat) 0 [Keyed.frame0]
       Family.attached = Ok r s'
     ∧ keymap_of (world s') 20
       = Some (mkIndex {[ "a" := 21%nat ]} ObjectPrototype))
  ∧ (∃ km, keymap_of (world FamilyWalk.final) 20 = Some km
           ∧ inherits km = ObjectPrototype
           ∧ size (entries km) = 1%nat).
Proof.
  split.
  - destruct (proj1 (matcher_key_index_is_written_once Sample.collaborators)
                (Some 0%nat) 0 [Keyed.frame0] Family.attached Keyed.frame0
                [Some 21%nat] [Some 12%nat; Some 11%nat] 20%nat
                (FoundElement 11%nat) eq_refl eq_refl eq_refl)
      as (r & s' & Hpair & Hcreate & _).
    + intros p [= <-]. by eexists.
    + intros l [= <-]. by eexists.
    + intros l [= <-]. by eexists.
    + reflexivity.
    + by eexists.
    + reflexivity.
    + destruct (Hcreate eq_refl) as (nc & nce & index & [= <-] & [= <-] & Hk & Hi).
      exists r, s'. split; [exact Hpair|]. rewrite Hk. f_equal. exact Hi.
  - assert (Hkm : keymap_of (world FamilyWalk.final) 20
                  = Some (mkIndex {[ "a" := 21%nat ]} ObjectPrototype))
      by (vm_compute; reflexivity).
    eexists. split; [exact Hkm|]. split; [reflexivity|].
    destruct (proj2 (proj2 (matcher_key_index_is_written_once
                Sample.collaborators) 10 5 Family.start Family.attached
                FamilyWalk.final sample_keymaps_untouched eq_refl 20%nat)
                _ eq_refl Hkm)
      as [(k & c & _ & _ & Hsize)|(c & Hproto & _)];
      [exact Hsize|discriminate Hproto].
Defined.

(** The claim as it was stated fails for the key [__proto__].  On a list
    whose old parent has a key index and whose new child is keyed
    [__proto__], the lookup yields [Object.prototype], a truthy value, so
    the matcher creates the new parent's index; the assignment sets its
    prototype, and the index has no entry. *)
Lemma key_index_for_proto_key_has_no_entry :
  keyed_hit Sample.collaborators (world Proto.attached) (Some 10%nat)
    (Some 21%nat) = Some FoundOther
  ∧ keymap_of (world Proto.attached) 20 = None
  ∧ ∃ r s' index,
      pair_children Sample.collaborators (Some 0%nat) 0 [Proto.frame0]
        Proto.attached = Ok r s'
      ∧ keymap_of (world s') 20 = Some index
      ∧ size (entries index) = 0%nat
      ∧ ¬ (∃ k c, entries index = {[ k := c ]}).
Proof.
  split; [reflexivity|]. split; [reflexivity|].
  eexists _, _, _. split; [vm_compute; reflexivity|].
  split; [vm_compute; reflexivity|]. split; [reflexivity|].
  intros (k & c & H). apply (f_equal size) in H.
  rewrite map_size_singleton in H. vm_compute in H. discriminate.
Qed.

(** A key that is a name every object inherits is a hit as well: the
    lookup yields a function, which is in no queue, so the pairing is by
    position; but the new parent gets its index, with the child filed under
    that name. *)
Example inherited_name_is_a_hit :
  keyed_hit Sample.collaborators (world Proto.attached) (Some 10%nat)
    (Some 22%nat) = Some FoundOther
  ∧ ∃ s',
      pair_children Sample.collaborators (Some 0%nat) 0 [Proto.frame1]
        Proto.attached
      = Ok (Some 22%nat, Some 11%nat, false,
            [with_queues [] [] Proto.frame1]) s'
      ∧ keymap_of (world s') 20
        = Some (mkIndex {[ "constructor" := 22%nat ]} ObjectPrototype).
Proof.
  split; [reflexivity|]. eexists. split; vm_compute; reflexivity.
Qed.

(** ** The Batch Applier *)

Lemma logs_only_refl P s : logs_only P s s.
Proof. exists []. by rewrite app_nil_r. Qed.

Lemma logs_only_trans P s1 s2 s3 :
  logs_only P s1 s2 → logs_only P s2 s3 → logs_only P s1 s3.
Proof.
  intros (l1 & L1 & F1) (l2 & L2 & F2). exists (l1 ++ l2).
  rewrite L2, L1, app_assoc. split; [done|]. by apply Forall_app.
Qed.

Section Always.
Context (R : State → State → Prop).
Context (R_refl : ∀ s, R s s).
Context (R_trans : ∀ s1 s2 s3, R s1 s2 → R s2 s3 → R s1 s3).

Lemma always_ret {A} (a : A) : always R (ret a).
Proof using R_refl. intros s. apply R_refl. Qed.

Lemma always_throw {A} e : always R (@throw A e).
Proof using R_refl. intros s. apply R_refl. Qed.

Lemma always_bind {A B} (m : M A) (k : A → M B) :
  always R m → (∀ a, always R (k a)) → always R (bind m k).
Proof using R_trans.
  intros Hm Hk s. unfold bind. specialize (Hm s).
  destruct (m s) as [a s1|e s1| |]; try done.
  specialize (Hk a s1). destruct (k a s1); try done; by eapply R_trans.
Qed.

Lemma always_bind_never {A B} (m : M A) (k : A → M B) :
  never_returns m → always R m → always R (bind m k).
Proof.
  intros Hn Hm s. unfold bind. specialize (Hm s). specialize (Hn s).
  destruct (m s) as [a s1|e s1| |]; try done. by destruct (Hn a s1).
Qed.

Lemma always_get_state : always R get_state.
Proof using R_refl. intros s. apply R_refl. Qed.

Lemma always_deref l : always R (deref l).
Proof using R_refl.
  intros s. unfold deref. destruct (_ !! _); [apply R_refl|done].
Qed.

Lemma always_deref_node d : always R (deref_node d).
Proof using R_refl.
  intros s. unfold deref_node. destruct (_ !! _); [apply R_refl|done].
Qed.

Lemma always_non_null {A} what (x : option A) : always R (non_null what x).
Proof using R_refl. destruct x; [apply always_ret | apply always_throw]. Qed.

Lemma always_modify f : (∀ s, R s (f s)) → always R (modify f).
Proof. intros H s. apply H. Qed.

Lemma always_Ok {A} (m : M A) s a s' : always R m → m s = Ok a s' → R s s'.
Proof. intros H E. specialize (H s). by rewrite E in H. Qed.

Lemma always_Throw {A} (m : M A) s e s' :
  always R m → m s = Throw e s' → R s s'.
Proof. intros H E. specialize (H s). by rewrite E in H. Qed.

End Always.

Ltac always_with refl trans leaf :=
  repeat first
    [ match goal with |- ∀ _, _ => intro end
    | leaf
    | apply (always_ret _ refl)
    | apply (always_throw _ refl)
    | apply (always_get_state _ refl)
    | apply (always_deref _ refl)
    | apply (always_deref_node _ refl)
    | apply (always_non_null _ refl)
    | apply (always_bind _ trans)
    | match goal with
      | |- always _ (match ?x with _ => _ end) => destruct x
      end ].

Lemma never_returns_dom_of_null what : never_returns (dom_of what None).
Proof. by intros s a s'. Qed.

Lemma never_returns_bind_l {A B} (m : M A) (k : A → M B) :
  never_returns m → never_returns (bind m k).
Proof.
  intros Hm s b s' (a & s1 & H & _)%bind_inv_Ok. by destruct (Hm s a s1).
Qed.

Lemma never_returns_bind_r {A B} (m : M A) (k : A → M B) :
  (∀ a, never_returns (k a)) → never_returns (bind m k).
Proof.
  intros Hk s b s' (a & s1 & _ & H)%bind_inv_Ok. by destruct (Hk a s1 b s').
Qed.

Section ApplierFacts.
Context (C : Collaborators).

Lemma logs_only_say (P : Event → Prop) e : P e → always (logs_only P) (say e).
Proof.
  intros He. apply always_modify. intros s. exists [e]. split; [done|].
  by repeat constructor.
Qed.

Lemma logs_only_same_log (P : Event → Prop) f :
  (∀ s, log (f s) = log s) → always (logs_only P) (modify f).
Proof.
  intros Hf. apply always_modify. intros s. exists []. rewrite Hf.
  by rewrite app_nil_r.
Qed.

Lemma logs_only_call_world_ret {A} (P : Event → Prop) (f : World → A * World) :
  always (logs_only P) (call_world_ret f).
Proof.
  intros s. unfold call_world_ret. destruct (f (world s)). simpl.
  exists []. simpl. by rewrite app_nil_r.
Qed.

Ltac log_leaf :=
  first
    [ apply logs_only_say; by eauto
    | apply logs_only_call_world_ret
    | apply logs_only_same_log; by intros [] ].

(** *** A new element without a parent, over an old element *)

(** C2 (the code at the failing input).  For a batch entry classified as a
    new element, without parent reference and with an old element, the
    applier builds the native subtree and then throws a [TypeError] on
    [parent.dom]: nothing is appended, and neither the "did mount" hook of
    the new element nor the "will unmount" hook of the old one is invoked.
    The whole [update] stops there. *)
Theorem new_without_parent_over_old_throws fuel b rest s :
  isNewElement C (Batch.difference b) = true →
  Batch.parent b = None →
  is_Some (Batch.oldElement b) →
  let built :=
    fastCreateDomTree C (Batch.context b) (Batch.root b) (Batch.newElement b)
      (world s) in
  let s' :=
    emit (EvFastCreateDomTree (Batch.context b) (Batch.root b)
            (Batch.newElement b) built.1)
      (set_world built.2 s) in
  apply_batch C fuel b s = Throw (TypeError "parent") s'
  ∧ update C fuel (b :: rest) s = Throw (TypeError "parent") s'
  ∧ log s' = log s ++ [EvFastCreateDomTree (Batch.context b) (Batch.root b)
                         (Batch.newElement b) built.1].
Proof.
  intros Hnew Hparent [o Hold] built s'.
  assert (H : apply_batch C fuel b s = Throw (TypeError "parent") s').
  { unfold apply_batch. rewrite Hnew, Hparent, Hold. simpl truthy. cbv iota.
    unfold build_tree, call_world_ret, say, modify, bind, ret. simpl.
    subst s' built.
    by destruct (fastCreateDomTree C (Batch.context b) (Batch.root b)
                   (Batch.newElement b) (world s)). }
  split; [done|]. split; [|done].
  unfold update. simpl. by apply bind_Throw.
Qed.

(** *** A replaced element *)

Lemma logs_only_appendChild (P : Event → Prop) p c :
  P (EvAppendChild p c) → always (logs_only P) (dom_appendChild p c).
Proof.
  intros HP. unfold dom_appendChild, modify_nodes.
  always_with (logs_only_refl P) (logs_only_trans P) ltac:(log_leaf).
Qed.

Lemma logs_only_splice_children (P : Event → Prop) fuel oldDom newDom :
  (∀ c, P (EvAppendChild newDom c)) →
  always (logs_only P) (splice_children fuel oldDom newDom).
Proof.
  intros HP. induction fuel as [|fuel IH]; simpl;
    always_with (logs_only_refl P) (logs_only_trans P)
      ltac:(first [by apply logs_only_appendChild | apply IH]);
    by intros ?.
Qed.

Lemma replaceElement_without_parent fuel root oldElement newElement keyed :
  never_returns (replaceElement C fuel root None oldElement newElement keyed)
  ∧ always (logs_only before_insertion)
      (replaceElement C fuel root None oldElement newElement keyed).
Proof.
  unfold replaceElement. split.
  - repeat match goal with
           | |- never_returns (bind (dom_of _ None) _) =>
             apply never_returns_bind_l, never_returns_dom_of_null
           | |- never_returns (bind _ _) =>
             apply never_returns_bind_r; intros ?
           end.
  - unfold dom_of at 1.
    always_with (logs_only_refl before_insertion)
      (logs_only_trans before_insertion)
      ltac:(first
        [ match goal with
          | |- always _ (bind (dom_of _ None) _) =>
            apply always_bind_never; [apply never_returns_dom_of_null|]
          end
        | by apply logs_only_splice_children
        | log_leaf ]).
Qed.

(** C5 (the code at the failing input).  For a batch entry classified as a
    replaced element whose parent reference is absent, as the entry of the
    root pair always is, the applier never completes: it invokes "will
    unmount" on the old element, builds the new native node, may splice
    children onto it, and throws a [TypeError] on [parent.dom].  In no
    outcome is "did mount" invoked or the new node put into the tree by
    [replaceChild] or by remove-then-append. *)
Theorem replace_without_parent_never_mounts fuel b s :
  isNewElement C (Batch.difference b) = false →
  isRemoveElement C (Batch.difference b) = false →
  isReplaceElement C (Batch.difference b) = true →
  Batch.parent b = None →
  (∀ r s', apply_batch C fuel b s ≠ Ok r s')
  ∧ (∀ e s', apply_batch C fuel b s = Throw e s' →
             logs_only before_insertion s s').
Proof.
  intros Hnew Hremove Hreplace Hparent.
  destruct (replaceElement_without_parent fuel (Batch.root b)
              (Batch.oldElement b) (Batch.newElement b) (Batch.isKeyedItem b))
    as [Hnever Halways].
  assert (Hbody : apply_batch C fuel b
    = bind (bind (willUnmount C (Batch.oldElement b))
              (λ _, bind (replaceElement C fuel (Batch.root b) None
                            (Batch.oldElement b) (Batch.newElement b)
                            (Batch.isKeyedItem b))
                      (λ _, didMount C (Batch.newElement b))))
        (λ _, if isCreateChildren C (Batch.difference b)
              then bind (build_tree C (Batch.context b) (Batch.root b)
                           (Batch.newElement b)) (λ _, ret tt)
              else ret tt)).
  { unfold apply_batch. by rewrite Hnew, Hremove, Hreplace, Hparent. }
  rewrite Hbody. clear Hbody.
  assert (Hn : never_returns
    (bind (willUnmount C (Batch.oldElement b))
       (λ _, bind (replaceElement C fuel (Batch.root b) None
                     (Batch.oldElement b) (Batch.newElement b)
                     (Batch.isKeyedItem b))
               (λ _, didMount C (Batch.newElement b))))).
  { apply never_returns_bind_r. intros _. by apply never_returns_bind_l. }
  split.
  - intros r s'. by apply never_returns_bind_l.
  - intros e s'. apply always_Throw.
    apply always_bind_never; [done|].
    apply (always_bind _ (logs_only_trans before_insertion)).
    + unfold willUnmount, call_world.
      always_with (logs_only_refl before_insertion)
        (logs_only_trans before_insertion) ltac:(log_leaf).
    + intros _. by apply always_bind_never.
Qed.

End ApplierFacts.

Lemma new_without_parent_over_old_throws_witness :
  ∃ s',
    update Sample.collaborators 5 [RootBatch.inserted] Scene.attached
    = Throw (TypeError "parent") s'
    ∧ log s' = [EvFastCreateDomTree [] (Some 2%nat) (Some 2%nat) 101%nat].
Proof.
  destruct (new_without_parent_over_old_throws Sample.collaborators 5
              RootBatch.inserted [] Scene.attached eq_refl eq_refl
              (ex_intro _ 1%nat eq_refl)) as (_ & Hupdate & Hlog).
  eexists. split; [exact Hupdate|]. rewrite Hlog. vm_compute. reflexivity.
Defined.

Lemma replace_without_parent_never_mounts_witness :
  ∃ s',
    apply_batch Sample.collaborators 5 RootBatch.replaced Scene.attached
    = Throw (TypeError "parent") s'
    ∧ logs_only before_insertion Scene.attached s'.
Proof.
  eexists. split; [vm_compute; reflexivity|].
  apply (proj2 (replace_without_parent_never_mounts Sample.collaborators 5
                  RootBatch.replaced Scene.attached
                  eq_refl eq_refl eq_refl eq_refl) (TypeError "parent")).
  vm_compute. reflexivity.
Defined.

(** The root [div] rendered as a [span], from the public entry point: the
    walk emits the entry [RootBatch.replaced], the applier throws on it, and
    the stem is left locked. *)
Lemma root_type_change_throws :
  ∃ s',
    render Sample.collaborators 20 10 (Some 3%nat) [] [] true Scene.attached
    = Throw (TypeError "parent") s'
    ∧ Stem.batchs (this s') = [RootBatch.replaced]
    ∧ Stem.lock (this s') = true
    ∧ log s' = [EvUpdateId; EvDiff (Some 1%nat) (Some 3%nat);
                EvWillUnmount (Some 1%nat);
                EvCreateDomElement (Some 3%nat) (Some 3%nat) 101%nat].
Proof. eexists. vm_compute. repeat split. Qed.

(** *** A replaced element under a parent *)

Section ReplacedWithParent.
Context (C : Collaborators).

Lemma splice_children_log fuel od nd : ∀ s r s',
  splice_children fuel od nd s = Ok r s' →
  heap (world s') = heap (world s)
  ∧ ∃ spliced, log s' = log s ++ (EvAppendChild nd <$> spliced).
Proof.
  induction fuel as [|fuel IH]; intros s r s' H; simpl in H.
  - unfold bind at 1, get_state in H.
    destruct (element_children _ _); [|done].
    injection H as _ <-. split; [done|]. exists []. by rewrite app_nil_r.
  - unfold bind at 1, get_state in H.
    destruct (element_children _ _) as [|c cs].
    + injection H as _ <-. split; [done|]. exists []. by rewrite app_nil_r.
    + apply bind_inv_Ok in H as (u & s1 & H1 & H).
      apply IH in H as (Hh & spliced & Hl).
      unfold dom_appendChild, modify_nodes, say, modify, bind in H1.
      injection H1 as _ <-. split; [by rewrite Hh|].
      exists (c :: spliced). rewrite Hl. simpl. by rewrite <- app_assoc.
Qed.

(** A replaced element under a parent: "will unmount" on the old element,
    the new native node, the splice of the old node's element children
    (none unless both nodes have [nodeType] 1), the insertion by
    [replaceChild] for a positional pair and by [removeChild] then
    [appendChild] for a keyed one, "did mount" on the new element. *)
Lemma replace_with_parent_in_order fuel b p s r s' :
  isNewElement C (Batch.difference b) = false →
  isRemoveElement C (Batch.difference b) = false →
  isReplaceElement C (Batch.difference b) = true →
  Batch.parent b = Some p →
  apply_batch C fuel b s = Ok r s' →
  let created :=
    createDomElement C (Batch.root b) (Batch.newElement b)
      (invokeWillUnmount C (Batch.oldElement b) (world s)) in
  let newDom := created.1 in
  ∃ od pd spliced tail,
    log s' = log s
      ++ [EvWillUnmount (Batch.oldElement b);
          EvCreateDomElement (Batch.root b) (Batch.newElement b) newDom]
      ++ (EvAppendChild newDom <$> spliced)
      ++ (if Batch.isKeyedItem b
          then [EvRemoveChild pd od; EvAppendChild pd newDom]
          else [EvReplaceChild pd newDom od])
      ++ [EvDidMount (Batch.newElement b)] ++ tail
    ∧ (spliced ≠ [] →
       nodeType <$> nodes created.2 !! od = Some 1%Z
       ∧ nodeType <$> nodes created.2 !! newDom = Some 1%Z)
    ∧ (∃ o oe, Batch.oldElement b = Some o
               ∧ heap created.2 !! o = Some oe ∧ El.dom oe = Some od)
    ∧ (∃ pe, heap created.2 !! p = Some pe ∧ El.dom pe = Some pd)
    ∧ (tail = [] ∨ ∃ d, tail = [EvFastCreateDomTree (Batch.context b)
                                  (Batch.root b) (Batch.newElement b) d]).
Proof.
  intros Hnew Hremove Hreplace Hparent H created newDom.
  unfold apply_batch in H. rewrite Hnew, Hremove, Hreplace, Hparent in H.
  apply bind_inv_Ok in H as (u0 & s4 & H & Htail).
  apply bind_inv_Ok in H as (u1 & s1 & Hwill & H).
  apply bind_inv_Ok in H as (u2 & s3 & Hrep & Hdid).
  unfold willUnmount, call_world, say, modify, bind in Hwill.
  injection Hwill as _ <-.
  unfold didMount, call_world, say, modify, bind in Hdid.
  injection Hdid as _ <-.
  unfold replaceElement in Hrep.
  apply bind_inv_Ok in Hrep as (nd0 & s5 & Hcreate & Hrep).
  unfold call_world_ret in Hcreate. simpl in Hcreate.
  fold created in Hcreate. destruct created as [nd w1] eqn:Ecreated.
  injection Hcreate as <- <-. simpl in newDom. subst newDom.
  apply bind_inv_Ok in Hrep as (u3 & s6 & Hsay & Hrep).
  injection Hsay as _ <-.
  apply bind_inv_Ok in Hrep as (oldDom & s7 & Hod & Hrep).
  unfold dom_of in Hod.
  apply bind_inv_Ok in Hod as (o & s8 & Ho & Hod).
  apply non_null_inv in Ho as [Ho ->].
  apply bind_inv_Ok in Hod as (oe & s9 & Hoe & Hod).
  apply deref_inv in Hoe as [Hoe ->]. injection Hod as <- <-.
  apply bind_inv_Ok in Hrep as (od & s10 & Hodn & Hrep).
  apply non_null_inv in Hodn as [Hodn ->].
  apply bind_inv_Ok in Hrep as (odn & s11 & Hnode & Hrep).
  unfold deref_node in Hnode. simpl in Hnode.
  destruct (nodes w1 !! od) as [odn'|] eqn:Eod; [|done].
  injection Hnode as <- <-.
  apply bind_inv_Ok in Hrep as (u4 & s12 & Hsplice & Hrep).
  assert (Hspliced : heap (world s12) = heap w1
    ∧ ∃ spliced,
        log s12 = log s ++ [EvWillUnmount (Batch.oldElement b);
                            EvCreateDomElement (Batch.root b)
                              (Batch.newElement b) nd]
                  ++ (EvAppendChild nd <$> spliced)
        ∧ (spliced ≠ [] → nodeType odn' = 1%Z
                          ∧ nodeType <$> nodes w1 !! nd = Some 1%Z)).
  { destruct (decide (nodeType odn' = 1%Z)) as [Hone|].
    - apply bind_inv_Ok in Hsplice as (ndn & s13 & Hnd & Hsplice).
      unfold deref_node in Hnd. simpl in Hnd.
      destruct (nodes w1 !! nd) as [ndn'|] eqn:End; [|done].
      injection Hnd as <- <-.
      destruct (decide (nodeType ndn' = 1%Z)) as [Hone'|].
      + apply splice_children_log in Hsplice as (Hh & spliced & Hl).
        split; [done|]. exists spliced. split.
        * rewrite Hl. simpl. by rewrite <- !app_assoc.
        * intros _. split; [done|]. simpl. by rewrite Hone'.
      + injection Hsplice as _ <-. split; [done|]. exists [].
        split; [simpl; by rewrite <- app_assoc|done].
    - injection Hsplice as _ <-. split; [done|]. exists [].
      split; [simpl; by rewrite <- app_assoc|done]. }
  destruct Hspliced as (Hheap & spliced & Hlog & Hcont).
  apply bind_inv_Ok in Hrep as (parentDom & s14 & Hpd & Hrep).
  unfold dom_of in Hpd.
  apply bind_inv_Ok in Hpd as (p' & s15 & Hp & Hpd).
  apply non_null_inv in Hp as [[= <-] ->].
  apply bind_inv_Ok in Hpd as (pe & s16 & Hpe & Hpd).
  apply deref_inv in Hpe as [Hpe ->]. injection Hpd as <- <-.
  apply bind_inv_Ok in Hrep as (pd & s17 & Hpdn & Hrep).
  apply non_null_inv in Hpdn as [Hpdn ->].
  assert (Hins : log s3 = log s12
            ++ (if Batch.isKeyedItem b
                then [EvRemoveChild pd od; EvAppendChild pd nd]
                else [EvReplaceChild pd nd od])).
  { destruct (Batch.isKeyedItem b); simpl in Hrep.
    - unfold dom_removeChild, dom_appendChild, modify_nodes, say, modify, bind
        in Hrep.
      injection Hrep as _ <-. simpl. by rewrite <- app_assoc.
    - unfold dom_replaceChild, modify_nodes, say, modify, bind in Hrep.
      by injection Hrep as _ <-. }
  assert (Htl : ∃ tail, log s' = log s3 ++ [EvDidMount (Batch.newElement b)]
                                 ++ tail
            ∧ (tail = [] ∨ ∃ d, tail = [EvFastCreateDomTree (Batch.context b)
                                  (Batch.root b) (Batch.newElement b) d])).
  { destruct (isCreateChildren C (Batch.difference b)).
    - unfold build_tree, call_world_ret, say, modify, bind, ret in Htail.
      simpl in Htail.
      destruct (fastCreateDomTree C _ _ _ _) as [d w] eqn:Ebuilt.
      injection Htail as _ <-. exists [EvFastCreateDomTree (Batch.context b)
                                  (Batch.root b) (Batch.newElement b) d].
      split; [simpl; by rewrite <- app_assoc|]. right. by exists d.
    - injection Htail as _ <-. exists []. split; [done|by left]. }
  destruct Htl as (tail & Htl & Htail').
  exists od, pd, spliced, tail. repeat split.
  - rewrite Htl, Hins, Hlog. by rewrite <- !app_assoc.
  - simpl. rewrite Eod. simpl. f_equal. by apply Hcont.
  - by apply Hcont.
  - exists o, oe. by rewrite Hodn.
  - exists pe. simpl. rewrite <- Hheap. by rewrite Hpdn.
  - done.
Qed.

End ReplacedWithParent.

(** The claim at work under a parent: the [li] of a list rendered as a
    [span].  The old node's child 102 moves to the new node 103, which takes
    the place of 101 under 100. *)
Example child_type_change_is_replaced :
  ∃ s',
    render Sample.collaborators 20 10 (Some 20%nat) [] [] true Nested.attached
    = Ok tt s'
    ∧ log s'
      = [ EvUpdateId; EvDiff (Some 10%nat) (Some 20%nat);
          EvDiff (Some 11%nat) (Some 23%nat);
          EvAttach (Some 100%nat) 20; EvDidUpdate (Some 20%nat);
          EvWillUnmount (Some 11%nat);
          EvCreateDomElement (Some 20%nat) (Some 23%nat) 103%nat;
          EvAppendChild 103%nat 102%nat;
          EvReplaceChild 100%nat 103%nat 101%nat;
          EvDidMount (Some 23%nat); EvCleanupTree (Some 10%nat);
          EvCallback [] (Some 100%nat) ]
    ∧ childNodes <$> nodes (world s') !! 100%nat = Some [103%nat]
    ∧ childNodes <$> nodes (world s') !! 103%nat = Some [102%nat].
Proof. eexists. split; [vm_compute; reflexivity|]. by vm_compute. Qed.

(** ** The stem: queueing and replay *)

Section StemFacts.
Context (C : Collaborators) (budget : nat).

Lemma render_locked depth el callback context updateOwnwer s :
  Stem._enabled (this s) = true →
  Stem.lock (this s) = true →
  render C budget (S depth) el callback context updateOwnwer s
  = Ok tt (enqueue el callback s).
Proof.
  intros He Hl. simpl. unfold bind, get_state. by rewrite He, Hl.
Qed.

(** C9.  A render call that arrives while the stem is locked leaves no
    trace of its [context] and [updateOwnwer] arguments: the outcome of the
    call does not depend on them, and (outside an unsafe update zone) its
    only effect is one more queue entry, the pair of the element and the
    callback.  When [drainRenderQueue] replays the head of the queue, it
    is [render] with that element and callback, the default context [{}]
    and [updateOwnwer = true]. *)
Theorem queued_render_forgets_context_and_owner depth el callback s :
  Stem.lock (this s) = true →
  (∀ context updateOwnwer context' updateOwnwer',
     render C budget depth el callback context updateOwnwer s
     = render C budget depth el callback context' updateOwnwer' s)
  ∧ (Stem._enabled (this s) = true →
     ∀ context updateOwnwer,
       render C budget (S depth) el callback context updateOwnwer s
       = Ok tt (enqueue el callback s))
  ∧ (∀ rest s0,
       Stem.renderQueue (this s0) = (el, callback) :: rest →
       drainRenderQueue C budget (S depth) s0
       = render C budget depth el callback [] true
           (set_this (Stem.set_renderQueue rest (this s0)) s0)).
Proof.
  intros Hl. split; [|split].
  - intros context updateOwnwer context' updateOwnwer'.
    destruct depth as [|depth]; [done|]. simpl. unfold bind, get_state.
    rewrite Hl. by destruct (Stem._enabled (this s)).
  - intros He context updateOwnwer. by apply render_locked.
  - intros rest s0 Hq. simpl. unfold bind at 1, get_state at 1. by rewrite Hq.
Qed.

End StemFacts.

Lemma queued_render_forgets_context_and_owner_witness :
  render Sample.collaborators 10 1 (Some 2%nat) [] [("theme", "dark")] false
    Locked.state
  = Ok tt (enqueue (Some 2%nat) [] Locked.state).
Proof.
  refine (proj1 (proj2 (queued_render_forgets_context_and_owner
    Sample.collaborators 10 0 (Some 2%nat) [] Locked.state _)) _ _ _);
    reflexivity.
Defined.

(** ** The stem: one render at a time *)

(** *** What the walk and the applier leave alone *)

Lemma stem_kept_refl s : stem_kept s s.
Proof. by repeat split. Qed.

Lemma stem_kept_trans s1 s2 s3 :
  stem_kept s1 s2 → stem_kept s2 s3 → stem_kept s1 s3.
Proof.
  intros (?&?&?&?&?) (?&?&?&?&?). repeat split; congruence.
Qed.

Lemma steady_refl s : steady s s.
Proof. split; [apply stem_kept_refl|apply logs_only_refl]. Qed.

Lemma steady_trans s1 s2 s3 : steady s1 s2 → steady s2 s3 → steady s1 s3.
Proof.
  intros [K1 L1] [K2 L2].
  split; [by eapply stem_kept_trans|by eapply logs_only_trans].
Qed.

Section AlwaysMore.
Context (R : State → State → Prop).
Context (R_refl : ∀ s, R s s).
Context (R_trans : ∀ s1 s2 s3, R s1 s2 → R s2 s3 → R s1 s3).

Lemma always_frame_at fs r : always R (frame_at fs r).
Proof using R_refl.
  intros s. unfold frame_at. destruct (_ !! _); [apply R_refl|done].
Qed.

Lemma always_read_world {A} (f : World → A) : always R (read_world f).
Proof using R_refl. intros s. apply R_refl. Qed.

Lemma always_out_of_fuel {A} : always R (λ _, @OutOfFuel A).
Proof. by intros s. Qed.

Lemma always_for_each {A} (f : A → M unit) l :
  (∀ x, always R (f x)) → always R (for_each f l).
Proof using R_refl R_trans.
  intros Hf. induction l as [|x l IH]; simpl.
  - by apply always_ret.
  - apply always_bind; [done|apply Hf|intros _; apply IH].
Qed.

Lemma always_keeps {A} (m : M A) : always R m → keeps R m.
Proof. intros H s a s' E. specialize (H s). by rewrite E in H. Qed.

End AlwaysMore.

Ltac always_more refl trans leaf :=
  repeat first
    [ match goal with |- ∀ _, _ => intro end
    | leaf
    | apply (always_ret _ refl)
    | apply (always_throw _ refl)
    | apply (always_get_state _ refl)
    | apply (always_deref _ refl)
    | apply (always_deref_node _ refl)
    | apply (always_frame_at _ refl)
    | apply (always_non_null _ refl)
    | apply (always_read_world _ refl)
    | apply always_out_of_fuel
    | apply (always_bind _ trans)
    | apply (always_for_each _ refl trans)
    | match goal with
      | |- always _ (match ?x with _ => _ end) => destruct x
      end ].

(** A step that touches neither the log nor the kept fields of the stem, or
    logs one event of a cycle. *)
Ltac steady_leaf :=
  apply always_modify; intros [? ? []]; split;
    [ by repeat split
    | first [ exists []; split; [by rewrite app_nil_r|by constructor]
            | eexists [_]; split; [reflexivity|by repeat constructor] ] ].

Section Steady.
Context (C : Collaborators).

Lemma steady_call_world_ret {A} (f : World → A * World) :
  always steady (call_world_ret f).
Proof.
  intros s. unfold call_world_ret. destruct (f (world s)).
  destruct s as [? ? []]. split; [by repeat split|].
  exists []. split; [by rewrite app_nil_r|by constructor].
Qed.

Lemma steady_remount_loop fuel : ∀ context newElement,
  always steady (remount_loop C fuel context newElement).
Proof.
  induction fuel as [|fuel IH]; intros context [n|]; simpl;
    unfold instantiate, say;
    always_more steady_refl steady_trans
      ltac:(first [apply IH | apply steady_call_world_ret | steady_leaf]).
Qed.

Lemma steady_reuse_loop fuel : ∀ context newElement oldElement,
  always steady (reuse_loop C fuel context newElement oldElement).
Proof.
  induction fuel as [|fuel IH]; intros context [n|] oldElement; simpl;
    unfold instantiate, say, update_el;
    always_more steady_refl steady_trans
      ltac:(first [apply IH | apply steady_call_world_ret | steady_leaf]).
Qed.

Lemma steady_patchComponent fuel context ne oe :
  always steady (patchComponent C fuel context ne oe).
Proof.
  unfold patchComponent.
  always_more steady_refl steady_trans
    ltac:(first [apply steady_remount_loop | apply steady_reuse_loop]).
Qed.

Lemma steady_patch_iteration fuel L :
  always steady (patch_iteration C fuel L).
Proof.
  unfold patch_iteration, parse_frame, visit_pair, expand_frame,
    wants_children, createNextStackState, pair_children, shift_oldChildren,
    keyed_match, invariant, push_batch, children_slice, update_el, say.
  always_more steady_refl steady_trans
    ltac:(first [apply steady_patchComponent | steady_leaf]).
Qed.

Lemma steady_patch_loop turns fuel : ∀ L,
  always steady (patch_loop C turns fuel L).
Proof.
  induction turns as [|turns IH]; intros L; simpl;
    always_more steady_refl steady_trans
      ltac:(first [apply steady_patch_iteration | apply IH]).
Qed.

Lemma steady_patch turns fuel newTree context :
  always steady (patch C turns fuel newTree context).
Proof.
  unfold patch.
  always_more steady_refl steady_trans
    ltac:(first [apply steady_patch_loop | steady_leaf]).
Qed.

Lemma steady_splice_children fuel oldDom newDom :
  always steady (splice_children fuel oldDom newDom).
Proof.
  induction fuel as [|fuel IH]; simpl;
    unfold dom_appendChild, modify_nodes, say;
    always_more steady_refl steady_trans
      ltac:(first [apply IH | steady_leaf]).
Qed.

Lemma steady_apply_batch fuel b :
  always steady (apply_batch C fuel b).
Proof.
  unfold apply_batch, replaceElement, copyElementRef, updateElement,
    root_event_handler, build_tree, didMount, willUnmount, didUpdate, attach,
    dom_of, dom_appendChild, dom_removeChild, dom_replaceChild, modify_nodes,
    call_world, update_el, say.
  always_more steady_refl steady_trans
    ltac:(first [ apply steady_splice_children
                | apply steady_call_world_ret
                | steady_leaf ]).
Qed.

Lemma steady_update fuel batches :
  always steady (update C fuel batches).
Proof.
  unfold update. apply (always_for_each _ steady_refl steady_trans).
  intros b. apply steady_apply_batch.
Qed.

Lemma stem_kept_patch turns fuel newTree context :
  keeps stem_kept (patch C turns fuel newTree context).
Proof.
  intros s a s' H.
  by destruct (always_keeps _ _ (steady_patch turns fuel newTree context)
                 s a s' H).
Qed.

Lemma stem_kept_update fuel batches :
  keeps stem_kept (update C fuel batches).
Proof.
  intros s a s' H.
  by destruct (always_keeps _ _ (steady_update fuel batches) s a s' H).
Qed.

End Steady.

(** *** Refinement, step by step *)

Lemma refines_at_refl {A} (m : M A) s : refines_at s m m.
Proof. by intros _. Qed.

Lemma refines_at_trans {A} (m1 m2 m3 : M A) s :
  refines_at s m1 m2 → refines_at s m2 m3 → refines_at s m1 m3.
Proof.
  intros H12 H23 Hne. rewrite <- (H12 Hne). apply H23.
  by rewrite (H12 Hne).
Qed.

Lemma refines_at_eq {A} (m m' : M A) s : m' s = m s → refines_at s m m'.
Proof. by intros E _. Qed.

Lemma bind_refines {A B} (m m' : M A) (k k' : A → M B) s :
  refines_at s m m' →
  (∀ a s1, m s = Ok a s1 → refines_at s1 (k a) (k' a)) →
  refines_at s (bind m k) (bind m' k').
Proof.
  intros Hm Hk Hne. unfold refines_at in Hm. unfold bind in *.
  destruct (m s) as [a s1| | |] eqn:E; try done.
  - rewrite Hm by done. by apply Hk.
  - by rewrite Hm.
  - by rewrite Hm.
Qed.

Lemma bind_refines_k {A B} (m : M A) (k k' : A → M B) s :
  (∀ a s1, m s = Ok a s1 → refines_at s1 (k a) (k' a)) →
  refines_at s (bind m k) (bind m k').
Proof. apply bind_refines, refines_at_refl. Qed.

Lemma bind_refines_m {A B} (m m' : M A) (k : A → M B) s :
  refines_at s m m' → refines_at s (bind m k) (bind m' k).
Proof. intros H. apply bind_refines; [done|]. intros. apply refines_at_refl. Qed.

Lemma for_each_inv {A} (I : State → Prop) (f : A → M unit) (l : list A) :
  (∀ x s a s', x ∈ l → I s → f x s = Ok a s' → I s') →
  ∀ s a s', I s → for_each f l s = Ok a s' → I s'.
Proof.
  induction l as [|x l IH]; intros Hf s a s' HI H; simpl in H.
  - by apply ret_inv_Ok in H as [_ <-].
  - apply bind_inv_Ok in H as (u & s1 & H1 & H).
    eapply IH; [|by eapply (Hf x); [left|..]|done].
    intros y ? ? ? Hy. apply Hf. by right.
Qed.

(** Two loop bodies that agree on every element, from every state that
    satisfies [I], where either [Q] holds of the element or the first body
    does not run out of fuel. *)
Lemma for_each_agree {A} (I : State → Prop) (Q : A → Prop) (f g : A → M unit)
    (l : list A) :
  (∀ x s, x ∈ l → I s → Q x ∨ f x s ≠ OutOfFuel → f x s = g x s) →
  (∀ x s a s', x ∈ l → I s → g x s = Ok a s' → I s') →
  ∀ s, I s → Forall Q l ∨ for_each f l s ≠ OutOfFuel →
       for_each f l s = for_each g l s.
Proof.
  induction l as [|x l IH]; intros Hfg Hg s HI Hor; [done|]. simpl.
  assert (E : f x s = g x s).
  { apply Hfg; [by left|done|]. destruct Hor as [HQ|Hne].
    - left. by inversion HQ.
    - right. intros E. apply Hne. simpl. unfold bind. by rewrite E. }
  unfold bind. rewrite <- E. destruct (f x s) as [u s1| | |] eqn:Ef; try done.
  apply IH.
  - intros y ? Hy. apply Hfg. by right.
  - intros y ? ? ? Hy. apply Hg. by right.
  - eapply Hg; [by left|done|]. by rewrite <- E.
  - destruct Hor as [HQ|Hne].
    + left. by inversion HQ.
    + right. intros E'. apply Hne. simpl. unfold bind. by rewrite Ef.
Qed.

(** *** What a callback may do while a render is in flight *)

Lemma Call_nested_ind (P : Call → Prop) :
  (∀ el cb context u, Forall P cb → P (CallRender el cb context u)) →
  (∀ cb, Forall P cb → P (CallEnterUnsafeUpdateZone cb)) →
  ∀ c, P c.
Proof.
  intros Hr Hz. fix IH 1. intros [el cb context u|cb].
  - apply Hr. induction cb as [|c cb IHcb]; constructor; [apply IH|done].
  - apply Hz. induction cb as [|c cb IHcb]; constructor; [apply IH|done].
Qed.

Lemma call_depth_script_depth c cb :
  c ∈ cb → (call_depth c ≤ script_depth cb)%nat.
Proof.
  unfold script_depth. induction cb as [|c' cb IH]; intros Hin.
  - by apply elem_of_nil in Hin.
  - simpl. apply elem_of_cons in Hin as [->|Hin]; [lia|].
    specialize (IH Hin). lia.
Qed.

Lemma call_depth_render el cb context u :
  call_depth (CallRender el cb context u) = S (script_depth cb).
Proof. done. Qed.

Lemma call_depth_zone cb :
  call_depth (CallEnterUnsafeUpdateZone cb) = S (script_depth cb).
Proof. done. Qed.

Lemma tree_dom_inv s d s' :
  tree_dom s = Ok d s' → s' = s ∧ is_Some (Stem.tree (this s)).
Proof.
  unfold tree_dom, dom_of. intros H.
  destruct (Stem.tree (this s)) as [l|] eqn:E.
  - split; [|by eexists]. unfold bind, get_state in H. rewrite E in H.
    simpl in H. unfold bind in H.
    destruct (deref l s) eqn:Ed; try done.
    apply deref_inv in Ed as [_ ->]. by injection H as _ ->.
  - unfold bind, get_state in H. by rewrite E in H.
Qed.

Section SubmitFacts.
Context (C : Collaborators).

Lemma submit_held h t c :
  (call_depth c ≤ S h)%nat →
  ∀ s a s', held h t s → Fifo.submit c s = Ok a s' → held h t s'.
Proof.
  revert c. apply (Call_nested_ind
    (λ c, (call_depth c ≤ S h)%nat →
          ∀ s a s', held h t s → Fifo.submit c s = Ok a s' → held h t s')).
  - intros el cb context u IH Hd s a s' Hs H. simpl in H.
    rewrite call_depth_render in Hd.
    unfold bind at 1, get_state in H.
    destruct (negb (Stem._enabled (this s))).
    + apply bind_inv_Ok in H as (d & s1 & Htd & H).
      apply tree_dom_inv in Htd as [-> _].
      apply bind_inv_Ok in H as (u1 & s2 & Hsay & H).
      injection Hsay as _ <-.
      revert H. apply for_each_inv.
      * intros x ? ? ? Hx. rewrite Forall_forall in IH. apply IH; [done|].
        pose proof (call_depth_script_depth _ _ Hx). lia.
      * by destruct s.
    + injection H as _ <-. destruct Hs as (Hl & Ht & Hq). destruct s as [w l th].
      destruct th. simpl in *. repeat split; try done.
      unfold queue_bound. simpl. apply Forall_app. split; [done|].
      repeat constructor. simpl. lia.
  - intros cb IH Hd s a s' Hs H. simpl in H.
    rewrite call_depth_zone in Hd.
    apply bind_inv_Ok in H as (u1 & s1 & H1 & H). injection H1 as _ <-.
    apply bind_inv_Ok in H as (u2 & s2 & H2 & H). injection H as _ <-.
    apply bind_inv_Ok in H2 as (u3 & s3 & H3 & H2). injection H3 as _ <-.
    assert (Hs2 : held h t s2).
    { revert H2. apply for_each_inv.
      - intros x ? ? ? Hx. rewrite Forall_forall in IH. apply IH; [done|].
        pose proof (call_depth_script_depth _ _ Hx). lia.
      - destruct Hs as (Hl & Ht & Hq). destruct s as [w l th]. by destruct th. }
    destruct Hs2 as (Hl & Ht & Hq). destruct s2 as [w l th]. by destruct th.
Qed.

Lemma submit_enabled c s a s' :
  Stem._enabled (this s) = true → Fifo.submit c s = Ok a s' →
  Stem._enabled (this s') = true.
Proof.
  destruct c as [el cb context u|cb]; intros He H; simpl in H.
  - unfold bind at 1, get_state in H. rewrite He in H. simpl in H.
    injection H as _ <-. destruct s as [w l th]. by destruct th.
  - apply bind_inv_Ok in H as (u1 & s1 & _ & H).
    apply bind_inv_Ok in H as (u2 & s2 & _ & H). injection H as _ <-.
    destruct s2 as [w l th]. by destruct th.
Qed.

Lemma call_back_held h t cb d s a s' :
  (script_depth cb ≤ h)%nat → held h t s →
  Fifo.call_back cb d s = Ok a s' → held h t s'.
Proof.
  intros Hd Hs H. unfold Fifo.call_back in H.
  apply bind_inv_Ok in H as (u1 & s1 & H1 & H). injection H1 as _ <-.
  revert H. apply for_each_inv.
  - intros x ? ? ? Hx. apply submit_held.
    pose proof (call_depth_script_depth _ _ Hx). lia.
  - by destruct s.
Qed.

Lemma call_back_enabled cb d s a s' :
  Stem._enabled (this s) = true → Fifo.call_back cb d s = Ok a s' →
  Stem._enabled (this s') = true.
Proof.
  intros He H. unfold Fifo.call_back in H.
  apply bind_inv_Ok in H as (u1 & s1 & H1 & H). injection H1 as _ <-.
  revert H. apply (for_each_inv (λ s, Stem._enabled (this s) = true)).
  - intros x ? ? ? _. apply submit_enabled.
  - by destruct s.
Qed.

End SubmitFacts.

Lemma submit_lock c :
  ∀ s a s', Stem.lock (this s) = true → Fifo.submit c s = Ok a s' →
            Stem.lock (this s') = true.
Proof.
  revert c. apply (Call_nested_ind
    (λ c, ∀ s a s', Stem.lock (this s) = true → Fifo.submit c s = Ok a s' →
                    Stem.lock (this s') = true)).
  - intros el cb context u IH s a s' Hs H. simpl in H.
    unfold bind at 1, get_state in H.
    destruct (negb (Stem._enabled (this s))).
    + apply bind_inv_Ok in H as (d & s1 & Htd & H).
      apply tree_dom_inv in Htd as [-> _].
      apply bind_inv_Ok in H as (u1 & s2 & Hsay & H).
      injection Hsay as _ <-.
      revert H. apply (for_each_inv (λ s, Stem.lock (this s) = true)).
      * intros x ? ? ? Hx. rewrite Forall_forall in IH. by apply IH.
      * by destruct s.
    + injection H as _ <-. destruct s as [w l th]. by destruct th.
  - intros cb IH s a s' Hs H. simpl in H.
    apply bind_inv_Ok in H as (u1 & s1 & H1 & H). injection H1 as _ <-.
    apply bind_inv_Ok in H as (u2 & s2 & H2 & H). injection H as _ <-.
    apply bind_inv_Ok in H2 as (u3 & s3 & H3 & H2). injection H3 as _ <-.
    assert (Hs2 : Stem.lock (this s2) = true).
    { revert H2. apply (for_each_inv (λ s, Stem.lock (this s) = true)).
      - intros x ? ? ? Hx. rewrite Forall_forall in IH. by apply IH.
      - destruct s as [w l th]. by destruct th. }
    destruct s2 as [w l th]. by destruct th.
Qed.

Section Refinement.
Context (C : Collaborators) (budget : nat).

Lemma invoke_S d cb arg :
  invoke C budget (S d) cb arg
  = (say (EvCallback cb arg);;; for_each (run_call C budget d) cb).
Proof. reflexivity. Qed.

Lemma enterUnsafeUpdateZone_S d cb :
  enterUnsafeUpdateZone C budget (S d) cb
  = (modify_this (Stem.set_enabled false);;;
     invoke C budget d cb None;;;
     modify_this (Stem.set_enabled true)).
Proof. reflexivity. Qed.

Lemma renderAtAnimationFrame_S d :
  renderAtAnimationFrame C budget (S d)
  = Fifo.flush C budget (run_batchCallback C budget d).
Proof. reflexivity. Qed.

Lemma run_batchCallback_S d bc :
  run_batchCallback C budget (S d) bc
  = Fifo.complete C (invoke C budget d) (drainRenderQueue C budget d) bc.
Proof. reflexivity. Qed.

Lemma drainRenderQueue_S d :
  drainRenderQueue C budget (S d)
  = Fifo.next_in_line
      (λ element cb,
         render C budget d element cb default_context default_updateOwnwer).
Proof. reflexivity. Qed.

Lemma render_disabled d el cb context u s :
  Stem._enabled (this s) = false →
  render C budget (S d) el cb context u s
  = (dom <- tree_dom;; invoke C budget d cb dom) s.
Proof. intros He. simpl. unfold bind at 1, get_state. by rewrite He. Qed.

(** An idle stem starts a cycle. *)
Lemma render_idle d el cb context u s :
  idle s →
  render C budget (S d) el cb context u s
  = Fifo.start_cycle C budget el cb context u
      (renderAtAnimationFrame C budget d) s.
Proof.
  intros (Hl & He & [t Ht]). simpl render. unfold bind at 1, get_state at 1.
  rewrite He, Hl, Ht. reflexivity.
Qed.

(** While the lock is held, whatever a callback calls on the stem is what
    [Fifo.submit] files: no cycle is started. *)
Lemma locked_calls d :
  (∀ c s, Stem.lock (this s) = true →
          (2 * call_depth c ≤ d)%nat ∨ run_call C budget d c s ≠ OutOfFuel →
          run_call C budget d c s = Fifo.submit c s)
  ∧ (∀ cb arg s, Stem.lock (this s) = true →
          (2 * script_depth cb + 1 ≤ d)%nat
          ∨ invoke C budget d cb arg s ≠ OutOfFuel →
          invoke C budget d cb arg s = Fifo.call_back cb arg s).
Proof.
  induction d as [|d [IHc IHi]].
  - split.
    + intros c s _ [Hd|Hne]; [destruct c; simpl in Hd; lia|by destruct c].
    + intros cb arg s _ [Hd|Hne]; [lia|done].
  - split.
    + intros [el cb context u|cb] s Hl Hor.
      * unfold run_call in Hor |- *.
        destruct (Stem._enabled (this s)) eqn:He.
        -- rewrite render_locked by done. simpl. unfold bind, get_state.
           by rewrite He.
        -- rewrite render_disabled in * by done.
           change (Fifo.submit (CallRender el cb context u))
             with (s0 <- get_state;;
                   if negb (Stem._enabled (this s0)) then
                     dom <- tree_dom;; Fifo.call_back cb dom
                   else modify_this (λ t, Stem.set_renderQueue
                          (Stem.renderQueue t ++ [(el, cb)]) t)).
           unfold bind at 2, get_state. rewrite He.
           change (negb false) with true. cbv iota.
           unfold bind in *. destruct (tree_dom s) as [dom s1| | |] eqn:Etd;
             try done.
           apply tree_dom_inv in Etd as [-> _]. apply IHi; [done|].
           destruct Hor as [Hd|Hne]; [left|by right].
           rewrite call_depth_render in Hd. lia.
      * unfold run_call in Hor |- *. rewrite enterUnsafeUpdateZone_S in *.
        change (Fifo.submit (CallEnterUnsafeUpdateZone cb))
          with (modify_this (Stem.set_enabled false);;;
                Fifo.call_back cb None;;;
                modify_this (Stem.set_enabled true)).
        unfold bind, modify_this, modify in Hor |- *.
        rewrite (IHi cb None); [done|by destruct s as [w l []]|].
        destruct Hor as [Hd|Hne]; [left|right].
        -- rewrite call_depth_zone in Hd. lia.
        -- intros E. apply Hne. by rewrite E.
    + intros cb arg s Hl Hor. rewrite invoke_S in *. unfold Fifo.call_back.
      unfold bind at 1 2. unfold bind at 1 in Hor. unfold say, modify in *.
      apply (for_each_agree (λ s, Stem.lock (this s) = true)
               (λ c, (2 * call_depth c ≤ d)%nat)).
      * intros x s0 _. apply IHc.
      * intros x s0 a s' _. apply submit_lock.
      * by destruct s.
      * destruct Hor as [Hd|Hne]; [left|by right].
        apply Forall_forall. intros x Hx.
        pose proof (call_depth_script_depth _ _ Hx). lia.
Qed.

Lemma invoke_locked d cb arg s :
  Stem.lock (this s) = true →
  refines_at s (invoke C budget d cb arg) (Fifo.call_back cb arg).
Proof.
  intros Hl Hne. symmetry. apply locked_calls; [done|by right].
Qed.

Lemma invoke_enough d cb arg s :
  Stem.lock (this s) = true → (2 * script_depth cb + 1 ≤ d)%nat →
  invoke C budget d cb arg s = Fifo.call_back cb arg s.
Proof. intros Hl Hd. apply locked_calls; [done|by left]. Qed.

End Refinement.

(** *** The four stages of a cycle *)

Lemma refines_at_change_l {A} (m1 m1' m2 : M A) s :
  m1 s = m1' s → refines_at s m1' m2 → refines_at s m1 m2.
Proof. unfold refines_at. by intros ->. Qed.

Lemma refines_at_change_r {A} (m1 m2 m2' : M A) s :
  m2 s = m2' s → refines_at s m1 m2' → refines_at s m1 m2.
Proof. unfold refines_at. by intros ->. Qed.

Lemma refines_at_out_of_fuel {A} (m : M A) s :
  refines_at s (λ _, OutOfFuel) m.
Proof. by intros Hne. Qed.

Section Stages.
Context (C : Collaborators) (budget : nat) (h : nat).

Lemma start_cycle_refines el cb context u (tick1 tick2 : M unit) s :
  Stem._enabled (this s) = true →
  queue_bound h s →
  (script_depth cb ≤ h)%nat →
  (∀ s1, flying h s1 → completion_bound h s1 → refines_at s1 tick1 tick2) →
  refines_at s (Fifo.start_cycle C budget el cb context u tick1)
    (Fifo.start_cycle C budget el cb context u tick2).
Proof.
  intros He Hq Hcb Htick. unfold Fifo.start_cycle.
  apply bind_refines_k. intros ? s1 [= _ <-].
  apply bind_refines_k. intros ? s2 [= _ <-].
  apply bind_refines_k. intros ? s3 (Hl3 & He3 & Ht3 & Hq3 & Hb3)%stem_kept_patch.
  apply bind_refines_k. intros ? s4 [= <- <-].
  apply bind_refines_k. intros ? s5 H5.
  apply bind_refines_k. intros ? s6 [= _ <-].
  assert (H35 : Stem.lock (this s5) = Stem.lock (this s3)
                ∧ Stem._enabled (this s5) = Stem._enabled (this s3)
                ∧ Stem.renderQueue (this s5) = Stem.renderQueue (this s3)).
  { destruct u; injection H5 as _ <-; [|done]. by destruct s3 as [w l []]. }
  destruct H35 as (Hl5 & He5 & Hq5).
  assert (Hl : Stem.lock (this s5) = true).
  { rewrite Hl5, Hl3. by destruct s as [w l []]. }
  assert (Hen : Stem._enabled (this s5) = true).
  { rewrite He5, He3. by destruct s as [w l []]. }
  assert (Hqu : Stem.renderQueue (this s5) = Stem.renderQueue (this s)).
  { rewrite Hq5, Hq3. by destruct s as [w l []]. }
  apply Htick.
  - unfold flying, queue_bound in *. destruct s5 as [w l []]. simpl in *.
    by rewrite Hqu.
  - intros bc. destruct s5 as [w l []]. simpl. by intros [= <-].
Qed.

Lemma flush_refines (c1 c2 : BatchCallback → M unit) s :
  flying h s → completion_bound h s →
  (∀ bc s1, flying h s1 → (script_depth (bc_callback bc) ≤ h)%nat →
            refines_at s1 (c1 bc) (c2 bc)) →
  refines_at s (Fifo.flush C budget c1) (Fifo.flush C budget c2).
Proof.
  intros (Hl & He & Hq) Hb Hc. unfold Fifo.flush.
  apply bind_refines_k. intros ? ? [= <- <-].
  destruct (Stem.batchs (this s)) as [|b0 bs]; [apply refines_at_refl|].
  apply bind_refines_k. intros ? s1 (Hl1 & He1 & Ht1 & Hq1 & Hb1)%stem_kept_update.
  apply bind_refines_k. intros ? s2 [= _ <-].
  apply bind_refines_k. intros ? ? [= <- <-].
  apply bind_refines_m.
  destruct (Stem.batchCallback _) as [bc|] eqn:Ebc; [|apply refines_at_refl].
  apply Hc.
  - unfold flying, queue_bound in *. destruct s1 as [w l []]. simpl in *.
    by rewrite Hl1, He1, Hq1.
  - apply Hb. rewrite <- Hb1. by destruct s1 as [w l []].
Qed.

Lemma complete_refines (cbk1 cbk2 : Callback → option node → M unit)
    (next1 next2 : M unit) bc s :
  flying h s →
  (∀ d s1, Stem.lock (this s1) = true →
           refines_at s1 (cbk1 (bc_callback bc) d) (cbk2 (bc_callback bc) d)) →
  (∀ d t s1 a s2, held h t s1 → Stem._enabled (this s1) = true →
                  cbk1 (bc_callback bc) d s1 = Ok a s2 →
                  held h t s2 ∧ Stem._enabled (this s2) = true) →
  (∀ s1, idle s1 → queue_bound h s1 → refines_at s1 next1 next2) →
  refines_at s (Fifo.complete C cbk1 next1 bc) (Fifo.complete C cbk2 next2 bc).
Proof.
  intros (Hl & He & Hq) Hcbk Hpost Hnext. unfold Fifo.complete.
  apply bind_refines_k. intros ? s1 [= _ <-].
  apply bind_refines_k. intros ? s2 [= _ <-].
  apply bind_refines_k. intros d ? [-> [t Ht]]%tree_dom_inv.
  assert (Hheld : held h (Some t)
            (set_world (cleanupTree C (bc_old bc)
               (world (emit (EvCleanupTree (bc_old bc)) s)))
               (emit (EvCleanupTree (bc_old bc)) s))).
  { by destruct s. }
  apply bind_refines.
  { apply Hcbk. by destruct s. }
  intros ? s3 H3. eapply Hpost in H3 as [(Hl3 & Ht3 & Hq3) He3];
    [|exact Hheld|by destruct s].
  apply bind_refines_k. intros ? s4 [= _ <-].
  apply Hnext.
  - unfold idle. destruct s3 as [w l []]. simpl in *. by rewrite He3, Ht3.
  - unfold queue_bound in *. by destruct s3 as [w l []].
Qed.

Lemma next_in_line_refines (serve1 serve2 : option loc → Callback → M unit) s :
  idle s → queue_bound h s →
  (∀ el cb s1, idle s1 → queue_bound h s1 → (script_depth cb ≤ h)%nat →
               refines_at s1 (serve1 el cb) (serve2 el cb)) →
  refines_at s (Fifo.next_in_line serve1) (Fifo.next_in_line serve2).
Proof.
  intros (Hl & He & Ht) Hq Hserve. unfold Fifo.next_in_line.
  apply bind_refines_k. intros ? ? [= <- <-].
  unfold queue_bound in Hq.
  destruct (Stem.renderQueue (this s)) as [|[el cb] rest] eqn:Eq;
    [apply refines_at_refl|].
  apply bind_refines_k. intros ? s1 [= _ <-].
  apply Forall_cons in Hq as [Hcb Hrest].
  apply Hserve; [|by destruct s as [w l []]|done].
  unfold idle. by destruct s as [w l []].
Qed.

Lemma call_back_post cb d t s a s' :
  (script_depth cb ≤ h)%nat → held h t s → Stem._enabled (this s) = true →
  Fifo.call_back cb d s = Ok a s' →
  held h t s' ∧ Stem._enabled (this s') = true.
Proof.
  intros Hcb Hs He H. split.
  - by eapply call_back_held.
  - by eapply call_back_enabled.
Qed.

(** More fuel does not change what the cycles do. *)
Lemma cycle_S n : ∀ el cb context u s,
  idle s → queue_bound h s → (script_depth cb ≤ h)%nat →
  refines_at s (Fifo.cycle C budget n el cb context u)
    (Fifo.cycle C budget (S n) el cb context u).
Proof.
  induction n as [|n IH]; intros el cb context u s Hs Hq Hcb;
    [apply refines_at_out_of_fuel|].
  change (refines_at s
    (Fifo.start_cycle C budget el cb context u
       (Fifo.flush C budget (Fifo.complete C Fifo.call_back
          (Fifo.next_in_line (λ element cb0,
             Fifo.cycle C budget n element cb0 default_context
               default_updateOwnwer)))))
    (Fifo.start_cycle C budget el cb context u
       (Fifo.flush C budget (Fifo.complete C Fifo.call_back
          (Fifo.next_in_line (λ element cb0,
             Fifo.cycle C budget (S n) element cb0 default_context
               default_updateOwnwer)))))).
  apply start_cycle_refines; [apply Hs|done..|]. intros s1 Hs1 Hb1.
  apply flush_refines; [done..|]. intros bc s2 Hs2 Hbc.
  apply complete_refines; [done| |intros; by eapply call_back_post|].
  { intros. apply refines_at_refl. }
  intros s3 Hs3 Hq3. apply next_in_line_refines; [done..|].
  intros el' cb' s4 Hs4 Hq4 Hcb'. by apply IH.
Qed.

Lemma cycle_le n n' el cb context u s :
  (n ≤ n')%nat →
  idle s → queue_bound h s → (script_depth cb ≤ h)%nat →
  refines_at s (Fifo.cycle C budget n el cb context u)
    (Fifo.cycle C budget n' el cb context u).
Proof.
  intros Hle Hs Hq Hcb. induction Hle as [|n' Hle IH];
    [apply refines_at_refl|].
  eapply refines_at_trans; [exact IH|]. by apply cycle_S.
Qed.

(** [render] does what the cycles do. *)
Lemma render_refines_cycle depth : ∀ el cb context u s,
  idle s → queue_bound h s → (script_depth cb ≤ h)%nat →
  refines_at s (render C budget depth el cb context u)
    (Fifo.cycle C budget depth el cb context u).
Proof.
  induction (lt_wf depth) as [depth _ IH]. intros el cb context u s Hs Hq Hcb.
  destruct depth as [|d1]; [apply refines_at_out_of_fuel|].
  eapply refines_at_change_l; [by apply render_idle|].
  change (Fifo.cycle C budget (S d1) el cb context u)
    with (Fifo.start_cycle C budget el cb context u
       (Fifo.flush C budget (Fifo.complete C Fifo.call_back
          (Fifo.next_in_line (λ element cb0,
             Fifo.cycle C budget d1 element cb0 default_context
               default_updateOwnwer))))).
  apply start_cycle_refines; [apply Hs|done..|]. intros s1 Hs1 Hb1.
  destruct d1 as [|d2]; [apply refines_at_out_of_fuel|].
  rewrite renderAtAnimationFrame_S.
  apply flush_refines; [done..|]. intros bc s2 Hs2 Hbc.
  destruct d2 as [|d3]; [apply refines_at_out_of_fuel|].
  rewrite run_batchCallback_S.
  apply complete_refines; [done|intros; by apply invoke_locked| |].
  { intros d t s3 a s4 Hheld He H. eapply call_back_post; [done..|].
    rewrite <- H. symmetry. apply locked_calls; [apply Hheld|].
    right. by rewrite H. }
  intros s3 Hs3 Hq3.
  destruct d3 as [|d4]; [apply refines_at_out_of_fuel|].
  rewrite drainRenderQueue_S.
  apply next_in_line_refines; [done..|].
  intros el' cb' s4 Hs4 Hq4 Hcb'.
  eapply refines_at_trans; [apply IH; [lia|done..]|].
  apply cycle_le; [lia|done..].
Qed.

(** Every run of the cycles is a run of [render], given enough depth. *)
Lemma cycle_refines_render n : ∀ el cb context u s,
  idle s → queue_bound h s → (script_depth cb ≤ h)%nat →
  refines_at s (Fifo.cycle C budget n el cb context u)
    (render C budget (4 * n + 2 * h) el cb context u).
Proof.
  induction n as [|n IH]; intros el cb context u s Hs Hq Hcb;
    [apply refines_at_out_of_fuel|].
  replace (4 * S n + 2 * h)%nat with (S (S (S (S (4 * n + 2 * h))))) by lia.
  eapply refines_at_change_r; [by apply render_idle|].
  change (Fifo.cycle C budget (S n) el cb context u)
    with (Fifo.start_cycle C budget el cb context u
       (Fifo.flush C budget (Fifo.complete C Fifo.call_back
          (Fifo.next_in_line (λ element cb0,
             Fifo.cycle C budget n element cb0 default_context
               default_updateOwnwer))))).
  apply start_cycle_refines; [apply Hs|done..|]. intros s1 Hs1 Hb1.
  rewrite renderAtAnimationFrame_S.
  apply flush_refines; [done..|]. intros bc s2 Hs2 Hbc.
  rewrite run_batchCallback_S.
  apply complete_refines; [done| |intros; by eapply call_back_post|].
  { intros d s3 Hl3. apply refines_at_eq. apply invoke_enough; [done|lia]. }
  intros s3 Hs3 Hq3. rewrite drainRenderQueue_S.
  apply next_in_line_refines; [done..|].
  intros el' cb' s4 Hs4 Hq4 Hcb'. by apply IH.
Qed.

End Stages.

(** *** Reading the log of a run *)

Lemma run_phase_app p l1 l2 :
  run_phase p (l1 ++ l2)
  = match run_phase p l1 with
    | Some q => run_phase q l2
    | None => None
    end.
Proof.
  revert p. induction l1 as [|e l1 IH]; intros p; simpl; [done|].
  by destruct (phase_step p e).
Qed.


Lemma moves_refl p s : moves p p s s.
Proof. exists []. by rewrite app_nil_r. Qed.

Lemma moves_trans p q r s1 s2 s3 :
  moves p q s1 s2 → moves q r s2 s3 → moves p r s1 s3.
Proof.
  intros (l1 & L1 & R1) (l2 & L2 & R2). exists (l1 ++ l2).
  rewrite L2, L1, app_assoc. split; [done|]. by rewrite run_phase_app, R1.
Qed.





Lemma traces_bind {A B} p q r (m : M A) (k : A → M B) :
  traces p q m → (∀ a, traces q r (k a)) → traces p r (bind m k).
Proof.
  intros Hm Hk s. unfold bind. specialize (Hm s).
  destruct (m s) as [a s1|e s1| |]; try done.
  specialize (Hk a s1). destruct (k a s1) as [b s2|e s2| |]; try done.
  - by eapply moves_trans.
  - destruct Hk as [q' Hk]. exists q'. by eapply moves_trans.
Qed.




Lemma always_for_each_in {A} (R : State → State → Prop) (f : A → M unit) l :
  (∀ s, R s s) → (∀ s1 s2 s3, R s1 s2 → R s2 s3 → R s1 s3) →
  Forall (λ x, always R (f x)) l → always R (for_each f l).
Proof.
  intros Hrefl Htrans. induction 1 as [|x l Hx _ IH]; simpl.
  - by apply always_ret.
  - apply always_bind; [done|done|intros _; apply IH].
Qed.






Section Serial.
Context (C : Collaborators) (budget : nat).





(** Some bound on the nesting of all callbacks at hand. *)
Lemma queue_bound_exists cb s :
  ∃ h, queue_bound h s ∧ (script_depth cb ≤ h)%nat.
Proof.
  assert (H : ∀ q : list (option loc * Callback),
            ∃ h, Forall (λ r, (script_depth r.2 ≤ h)%nat) q).
  { induction q as [|r q [h IH]]; [by exists 0%nat|].
    exists (Nat.max (script_depth r.2) h). constructor; [lia|].
    eapply Forall_impl; [exact IH|]. simpl. intros; lia. }
  destruct (H (Stem.renderQueue (this s))) as [h Hh].
  exists (Nat.max (script_depth cb) h). split; [|lia].
  eapply Forall_impl; [exact Hh|]. simpl. intros; lia.
Qed.

End Serial.

(** The run on the stem of [Busy]: the two renders asked for by the
    callback of the first are served after its cleanup, in the order of
    their submission, each to its own cleanup. *)
Example busy_stem_serves_in_order :
  ∃ s',
    render Sample.collaborators 5 12 (Some 2%nat) Busy.script [] true
      Busy.state = Ok tt s'
    ∧ log s'
      = [ EvUpdateId; EvDiff (Some 1%nat) (Some 2%nat);
          EvAttach (Some 100%nat) 2; EvDidUpdate (Some 2%nat);
          EvCleanupTree (Some 1%nat); EvCallback Busy.script (Some 100%nat);
          EvUpdateId; EvDiff (Some 2%nat) (Some 3%nat);
          EvAttach (Some 100%nat) 3; EvDidUpdate (Some 3%nat);
          EvCleanupTree (Some 2%nat); EvCallback [] (Some 100%nat);
          EvUpdateId; EvDiff (Some 3%nat) (Some 4%nat);
          EvAttach (Some 100%nat) 4; EvDidUpdate (Some 4%nat);
          EvCleanupTree (Some 3%nat); EvCallback [] (Some 100%nat) ]
    ∧ Stem.lock (this s') = false
    ∧ Stem.renderQueue (this s') = []
    ∧ Stem.tree (this s') = Some 4%nat.
Proof. eexists. split; [vm_compute; reflexivity|]. by vm_compute. Qed.

(** ** How a render ends *)

Lemma hoare_bind {A B} (P : State → Prop) (m : M A) (k : A → M B)
    (Q' : A → State → Prop) (Q : B → State → Prop) (E : State → Prop) :
  hoare P m Q' E → (∀ a, hoare (Q' a) (k a) Q E) → hoare P (bind m k) Q E.
Proof.
  intros Hm Hk s HP. unfold bind. specialize (Hm s HP).
  destruct (m s) as [a s1| | |]; try done. by apply Hk.
Qed.

Lemma hoare_ret {A} (P : State → Prop) (a : A) (Q : A → State → Prop) E :
  (∀ s, P s → Q a s) → hoare P (ret a) Q E.
Proof. intros H s HP. by apply H. Qed.

Lemma hoare_modify (P : State → Prop) f (Q : unit → State → Prop) E :
  (∀ s, P s → Q tt (f s)) → hoare P (modify f) Q E.
Proof. intros H s HP. by apply H. Qed.

Lemma hoare_get_state (P : State → Prop) (Q : State → State → Prop) E :
  (∀ s, P s → Q s s) → hoare P get_state Q E.
Proof. intros H s HP. by apply H. Qed.

Lemma hoare_always {A} (R : State → State → Prop) (m : M A)
    (P : State → Prop) (Q : A → State → Prop) (E : State → Prop) :
  always R m →
  (∀ s s' a, P s → R s s' → Q a s') →
  (∀ s s', P s → R s s' → E s') →
  hoare P m Q E.
Proof.
  intros Hm HQ HE s HP. specialize (Hm s).
  destruct (m s); try done; eauto.
Qed.

Lemma hoare_false {A} (m : M A) (Q : A → State → Prop) E :
  hoare (λ _, False) m Q E.
Proof. by intros s []. Qed.

Lemma lock_kept_refl s : lock_kept s s.
Proof. done. Qed.

Lemma lock_kept_trans s1 s2 s3 :
  lock_kept s1 s2 → lock_kept s2 s3 → lock_kept s1 s3.
Proof. unfold lock_kept. congruence. Qed.




Lemma lock_kept_submit c : always lock_kept (Fifo.submit c).
Proof.
  revert c. apply Call_nested_ind.
  - intros el cb context u IH. simpl. unfold tree_dom, dom_of, say, modify_this.
    always_more lock_kept_refl lock_kept_trans
      ltac:(first
        [ by apply (always_for_each_in _ _ _ lock_kept_refl lock_kept_trans)
        | apply always_modify; by intros [? ? []] ]).
  - intros cb IH. simpl. unfold say, modify_this.
    always_more lock_kept_refl lock_kept_trans
      ltac:(first
        [ by apply (always_for_each_in _ _ _ lock_kept_refl lock_kept_trans)
        | apply always_modify; by intros [? ? []] ]).
Qed.


Section Endings.
Context (C : Collaborators) (budget : nat).








End Endings.


Lemma inside_cycle_not_callback e : inside_cycle e → not_callback e.
Proof. by destruct e. Qed.

Lemma logs_only_weaken (P Q : Event → Prop) s s' :
  (∀ e, P e → Q e) → logs_only P s s' → logs_only Q s s'.
Proof.
  intros HPQ (evs & L & F). exists evs. split; [done|].
  eapply Forall_impl; [exact F|exact HPQ].
Qed.

Lemma logs_only_emit (P : Event → Prop) s0 s e :
  P e → logs_only P s0 s → logs_only P s0 (emit e s).
Proof.
  intros He H. eapply logs_only_trans; [exact H|].
  exists [e]. split; [by destruct s|by repeat constructor].
Qed.

Section RenderNull.
Context (C : Collaborators) (budget : nat).

(** The lock is held, with or without an owned tree, and no callback has
    been called since [s0]. *)
Lemma steady_waiting s0 t s s' :
  steady s s' →
  locked s ∧ Stem.tree (this s) = t ∧ logs_only not_callback s0 s →
  locked s' ∧ Stem.tree (this s') = t ∧ logs_only not_callback s0 s'.
Proof.
  intros [(Hl & _ & Ht & _) Hlog] (Hs & Htree & Hs0). unfold locked.
  rewrite Hl, Ht. split; [done|]. split; [done|].
  eapply logs_only_trans; [exact Hs0|].
  eapply logs_only_weaken; [apply inside_cycle_not_callback|done].
Qed.

Lemma cycle_null_stays_locked n callback context s0 :
  hoare (λ s, s = s0) (Fifo.cycle C budget n None callback context true)
    (λ _ s', locked s' ∧ logs_only not_callback s0 s')
    (λ s', locked s' ∧ logs_only not_callback s0 s').
Proof.
  destruct n as [|n]; [by intros s _|].
  set (J := λ t s, locked s ∧ Stem.tree (this s) = t
                   ∧ logs_only not_callback s0 s).
  assert (Hmod : ∀ f t (E : State → Prop),
    (∀ th, Stem.lock (f th) = Stem.lock th) →
    (∀ th, Stem.tree (f th) = Stem.tree th) →
    hoare (J t) (modify_this f) (λ _, J t) E).
  { intros f t E Hl Ht. apply hoare_modify.
    intros [w l th] (H1 & H2 & H3). unfold J, locked in *. simpl in *.
    by rewrite Hl, Ht. }
  simpl. unfold Fifo.start_cycle.
  apply (hoare_bind _ _ _ (λ _ s, logs_only not_callback s0 s)).
  { apply hoare_modify. intros s ->.
    by apply logs_only_emit, logs_only_refl. }
  intros _.
  apply (hoare_bind _ _ _ (λ _ s, ∃ t, J t s)).
  { apply hoare_modify. intros [w l th] H. exists (Stem.tree th).
    destruct th. by repeat split. }
  intros _.
  apply (hoare_bind _ _ _ (λ _ s, ∃ t, J t s)).
  { apply (hoare_always steady _ _ _ _ (steady_patch C budget budget _ _)).
    - intros s s' _ [t Hs] Hst. exists t. by eapply steady_waiting.
    - intros s s' [t Hs] Hst.
      by destruct (steady_waiting s0 t s s' Hst Hs) as (? & _ & ?). }
  intros _.
  apply (hoare_bind _ _ _ (λ _ s, ∃ t, J t s)); [by apply hoare_get_state|].
  intros s3.
  apply (hoare_bind _ _ _ (λ _, J None)).
  { apply hoare_modify. intros [w l th] (t & H1 & H2 & H3).
    unfold J, locked in *. by destruct th. }
  intros _.
  apply (hoare_bind _ _ _ (λ _, J None)); [by apply Hmod; intros []|intros _].
  unfold Fifo.flush.
  apply (hoare_bind _ _ _ (λ _, J None)); [by apply hoare_get_state|intros s].
  destruct (Stem.batchs (this s)) as [|b0 bs].
  { apply hoare_ret. by intros s1 (? & _ & ?). }
  apply (hoare_bind _ _ _ (λ _, J None)).
  { apply (hoare_always steady _ _ _ _ (steady_update C budget _)).
    - intros s1 s' _ Hs Hst. by eapply steady_waiting.
    - intros s1 s' Hs Hst.
      by destruct (steady_waiting s0 None s1 s' Hst Hs) as (? & _ & ?). }
  intros _.
  apply (hoare_bind _ _ _ (λ _, J None)); [by apply Hmod; intros []|intros _].
  apply (hoare_bind _ _ _ (λ _, J None)); [by apply hoare_get_state|intros s'].
  apply (hoare_bind _ _ _ (λ _, J None)).
  2: { intros _. apply hoare_modify. intros [w l th] (H1 & _ & H3).
       unfold locked in *. by destruct th. }
  destruct (Stem.batchCallback (this s')) as [bc|]; [|by apply hoare_ret].
  unfold Fifo.complete.
  apply (hoare_bind _ _ _ (λ _, J None)).
  { apply hoare_modify. intros s1 (H1 & H2 & H3). unfold J, locked in *.
    split; [by destruct s1|]. split; [by destruct s1|].
    by apply logs_only_emit. }
  intros _.
  apply (hoare_bind _ _ _ (λ _, J None)).
  { apply hoare_modify. intros s1 (H1 & H2 & H3). unfold J, locked in *.
    split; [by destruct s1|]. split; [by destruct s1|].
    eapply logs_only_trans; [exact H3|]. exists [].
    split; [destruct s1; simpl; by rewrite app_nil_r|done]. }
  intros _.
  apply (hoare_bind _ _ _ (λ _ _, False)); [|intros d; apply hoare_false].
  intros s1 (H1 & H2 & H3). unfold tree_dom, dom_of, bind, get_state.
  rewrite H2. simpl. done.
Qed.

(** X2.  [render(null)] on an idle attached stem never reports back: with
    [updateOwnwer] true the owned tree is [null] when the completion reads
    [this.tree.dom], so no callback is ever called and, however the call
    ends, the lock is still held. *)
Theorem render_null_locks_the_stem depth callback context s :
  idle s →
  match render C budget depth None callback context true s with
  | Ok _ s' | Throw _ s' => locked s' ∧ logs_only not_callback s s'
  | OutOfFuel | Dangling => True
  end.
Proof.
  intros Hs.
  destruct (queue_bound_exists callback s) as (h & Hq & Hcb).
  pose proof (render_refines_cycle C budget h depth None callback context
                true s Hs Hq Hcb) as Href.
  pose proof (cycle_null_stays_locked depth callback context s s eq_refl)
    as Hc.
  unfold refines_at in Href.
  destruct (render C budget depth None callback context true s)
    as [a s'|e s'| |] eqn:E; try done; by rewrite Href in Hc.
Qed.

End RenderNull.

Lemma render_null_locks_the_stem_witness :
  ∃ s',
    render Sample.collaborators 5 5 None [CallRender (Some 2%nat) [] [] true]
      [] true Mounted.attached
    = Throw (TypeError "this.tree") s'
    ∧ locked s'
    ∧ logs_only not_callback Mounted.attached s'.
Proof.
  assert (Hidle : idle Mounted.attached)
    by (split; [done|split; [done|by eexists]]).
  pose proof (render_null_locks_the_stem Sample.collaborators 5 5
                [CallRender (Some 2%nat) [] [] true] [] Mounted.attached Hidle)
    as H.
  destruct (render Sample.collaborators 5 5 None
              [CallRender (Some 2%nat) [] [] true] [] true Mounted.attached)
    as [[] s'|e s'| |] eqn:E.
  - vm_compute in E. discriminate.
  - exists s'. split; [|exact H].
    vm_compute in E. by injection E as -> _.
  - vm_compute in E. discriminate.
  - vm_compute in E. discriminate.
Defined.

(** ** What a walk leaves behind *)

Lemma diffs_of_app evs1 evs2 :
  diffs_of (evs1 ++ evs2) = diffs_of evs1 ++ diffs_of evs2.
Proof.
  induction evs1 as [|e evs1 IH]; [done|]. destruct e; simpl; by rewrite ?IH.
Qed.

Lemma walked_refl s : walked s s.
Proof. exists [], []. by rewrite !app_nil_r. Qed.

Lemma walked_trans s1 s2 s3 : walked s1 s2 → walked s2 s3 → walked s1 s3.
Proof.
  intros (e1 & m1 & L1 & F1 & B1 & D1) (e2 & m2 & L2 & F2 & B2 & D2).
  exists (e1 ++ e2), (m1 ++ m2). rewrite L2, L1, B2, B1, !app_assoc.
  split; [done|]. split; [by apply Forall_app|]. split; [done|].
  by rewrite diffs_of_app, fmap_app, D1, D2.
Qed.

Lemma hushed_refl s : hushed s s.
Proof. done. Qed.

Lemma hushed_trans s1 s2 s3 : hushed s1 s2 → hushed s2 s3 → hushed s1 s3.
Proof. intros [? ?] [? ?]. split; congruence. Qed.

Lemma hushed_walked s s' : hushed s s' → walked s s'.
Proof. intros [Ht Hl]. exists [], []. by rewrite Ht, Hl, !app_nil_r. Qed.

Lemma quiet_walked s s' : quiet s s' → walked s s'.
Proof.
  intros [Ht (evs & Hl & F)]. exists evs, []. rewrite Ht, app_nil_r.
  split; [done|]. split.
  - eapply Forall_impl; [exact F|]. by intros e (? & ? & ->).
  - split; [done|]. clear Hl.
    induction F as [|e evs (? & ? & ->) _ IH]; [done|]. simpl. apply IH.
Qed.

Section WalkLeaves.
Context (C : Collaborators).

Lemma hushed_expand_frame L top rest fs context oe :
  keeps hushed (expand_frame C L top rest fs context oe).
Proof.
  unfold expand_frame, wants_children, createNextStackState, pair_children,
    shift_oldChildren, keyed_match, update_el.
  keeps_with hushed_refl hushed_trans
    ltac:(apply keeps_modify; by intros []).
Qed.

(** The visit of a pair: nothing at all for a pair absent on both sides,
    else one difference and one batch entry for it. *)
Lemma visit_pair_entry L top next context ne oe s r s' :
  visit_pair C L top next context ne oe s = Ok r s' →
  (r = None ∧ s' = s ∧ ne = None ∧ oe = None)
  ∨ ∃ b,
      log s' = log s ++ [EvDiff oe ne]
      ∧ Stem.batchs (this s') = Stem.batchs (this s) ++ [b]
      ∧ pair_of b = (oe, ne)
      ∧ Batch.isKeyedItem b = Frame.isKeyedItem next
      ∧ Batch.difference b = diff C (world s') oe ne
      ∧ (parent L = None → Batch.parent b = None).
Proof.
  unfold visit_pair, say, update_el, push_batch, read_world, invariant,
    children_slice.
  intros H.
  destruct ne as [n|]; destruct oe as [o|];
    try (left; by ok_inv); right.
  all: ok_inv.
  all: repeat match goal with
       | H : modify _ _ = Ok _ _ |- _ => injection H as _ <-
       | H : (λ s, Ok _ s) _ = Ok _ _ |- _ => injection H as <- <-
       end.
  all: eexists; simpl.
  all: repeat split; try reflexivity.
  all: intros Hp; try rewrite Hp in *; by ok_inv.
Qed.

Lemma visit_pair_walked L top next context ne oe :
  keeps walked (visit_pair C L top next context ne oe).
Proof.
  intros s r s' [(_ & -> & _)|(b & Hl & Hb & Hp & _)]%visit_pair_entry;
    [apply walked_refl|].
  exists [EvDiff oe ne], [b]. split; [done|]. split; [by repeat constructor|].
  split; [done|]. simpl. by rewrite Hp.
Qed.

Lemma walked_patch_iteration fuel L :
  keeps walked (patch_iteration C fuel L).
Proof.
  unfold patch_iteration, parse_frame.
  keeps_with walked_refl walked_trans
    ltac:(first
      [ apply visit_pair_walked
      | match goal with
        | |- keeps walked (expand_frame _ _ _ _ _ _ _) =>
          intros ? ? ? ?%hushed_expand_frame; by apply hushed_walked
        | |- keeps walked (patchComponent _ _ _ _ _) =>
          intros ? ? ? ?%quiet_patchComponent; by apply quiet_walked
        end ]).
Qed.

Lemma walked_patch_loop turns fuel : ∀ L,
  keeps walked (patch_loop C turns fuel L).
Proof.
  induction turns as [|turns IH]; intros L; simpl;
    keeps_with walked_refl walked_trans
      ltac:(first [apply walked_patch_iteration | apply IH]);
    done.
Qed.

Lemma walk_event_steps :
  ∀ turns fuel newTree context,
    always (logs_only walk_event) (patch C turns fuel newTree context).
Proof.
  assert (Hleaf : ∀ f, (∀ s, log (f s) = log s) →
                       always (logs_only walk_event) (modify f)).
  { intros f Hf. by apply logs_only_same_log. }
  assert (Hcall : ∀ A (f : World → A * World),
            always (logs_only walk_event) (call_world_ret f)).
  { intros A f. apply logs_only_call_world_ret. }
  assert (Hremount : ∀ fuel context newElement,
    always (logs_only walk_event) (remount_loop C fuel context newElement)).
  { induction fuel as [|fuel IH]; intros context [n|]; simpl;
      unfold instantiate;
      always_more (logs_only_refl walk_event) (logs_only_trans walk_event)
        ltac:(first [apply IH | apply Hcall | by apply logs_only_say]). }
  assert (Hreuse : ∀ fuel context newElement oldElement,
    always (logs_only walk_event)
      (reuse_loop C fuel context newElement oldElement)).
  { induction fuel as [|fuel IH]; intros context [n|] oldElement; simpl;
      unfold instantiate, update_el;
      always_more (logs_only_refl walk_event) (logs_only_trans walk_event)
        ltac:(first [ apply IH | apply Hcall | by apply logs_only_say
                    | apply Hleaf; by intros [] ]). }
  assert (Hiter : ∀ fuel L,
    always (logs_only walk_event) (patch_iteration C fuel L)).
  { intros fuel L.
    unfold patch_iteration, parse_frame, patchComponent, visit_pair,
      expand_frame, wants_children, createNextStackState, pair_children,
      shift_oldChildren, keyed_match, invariant, push_batch, children_slice,
      update_el.
    always_more (logs_only_refl walk_event) (logs_only_trans walk_event)
      ltac:(first [ apply Hremount | apply Hreuse | by apply logs_only_say
                  | apply Hleaf; by intros [] ]). }
  intros turns fuel newTree context. unfold patch.
  apply (always_bind _ (logs_only_trans walk_event));
    [apply Hleaf; by intros []|intros _].
  apply (always_bind _ (logs_only_trans walk_event));
    [apply always_get_state, logs_only_refl|intros s0].
  generalize (mkLocals [0%nat]
     (makeInitialStackState context newTree (Stem.tree (this s0))) None).
  induction turns as [|turns IH]; intros L; simpl;
    always_more (logs_only_refl walk_event) (logs_only_trans walk_event)
      ltac:(first [apply Hiter | apply IH]).
Qed.

(** X3.  What a walk does besides reading.  Of the calls the log records
    (calls on native nodes, the building and the cleanup of trees,
    lifecycle hooks, callbacks, component instantiation and [diff]) a walk
    makes only [instantiateComponent] and [diff], whether it returns or
    throws: no native node is touched, no hook and no callback runs.  Its
    other calls ([isComponent], [getComponentRenderedTree],
    [stripComponent], the assertion) are queries, which the log does not
    record.  The stem keeps its lock, its owned tree, its queue and its
    pending completion.  When the walk returns, the batch list is, entry
    for entry and in order, the list of the pairs it handed to [diff];
    whatever batch was pending before is gone. *)
Theorem walk_batches_what_it_diffs turns fuel newTree context s :
  match patch C turns fuel newTree context s with
  | Ok _ s' =>
    stem_kept s s'
    ∧ ∃ evs, log s' = log s ++ evs ∧ Forall walk_event evs
             ∧ pair_of <$> Stem.batchs (this s') = diffs_of evs
  | Throw _ s' =>
    stem_kept s s'
    ∧ ∃ evs, log s' = log s ++ evs ∧ Forall walk_event evs
  | OutOfFuel | Dangling => True
  end.
Proof.
  pose proof (walk_event_steps turns fuel newTree context s) as Hall.
  pose proof (steady_patch C turns fuel newTree context s) as Hsteady.
  destruct (patch C turns fuel newTree context s) as [[] s'|e s'| |] eqn:E;
    [|by destruct Hsteady|done|done].
  destruct Hsteady as [Hkept _]. split; [exact Hkept|].
  unfold patch in E.
  apply bind_inv_Ok in E as (u & s1 & [= _ <-] & E).
  apply bind_inv_Ok in E as (s0 & s2 & [= <- <-] & E).
  apply walked_patch_loop in E as (evs & more & Hl & F & Hb & Hd).
  exists evs. split; [done|]. split; [done|].
  rewrite Hb. simpl. by rewrite Hd.
Qed.

End WalkLeaves.

(** ** The entry of the root pair *)

Section RootEntry.
Context (C : Collaborators).

(** The first turn of a walk: the root pair is skipped, and the walk is
    over, or its entry is pushed, without a parent and not keyed. *)
Lemma first_turn fuel context newTree oldTree s L1 s1 :
  patch_iteration C fuel
    (mkLocals [0%nat] (makeInitialStackState context newTree oldTree) None) s
  = Ok L1 s1 →
  (stack L1 = [] ∧ Stem.batchs (this s1) = Stem.batchs (this s))
  ∨ ∃ b, Stem.batchs (this s1) = Stem.batchs (this s) ++ [b]
         ∧ Batch.parent b = None ∧ Batch.isKeyedItem b = false.
Proof.
  unfold patch_iteration. simpl. unfold bind at 1, frame_at. simpl.
  unfold parse_frame. intros H.
  apply bind_inv_Ok in H as (r & s2 & Hparse & H).
  apply bind_inv_Ok in Hparse as ([[context' ne] oe] & s3 & Hexp & Hvisit).
  apply quiet_patchComponent in Hexp as [Hthis _]. simpl in Hvisit.
  apply visit_pair_entry in Hvisit
    as [(-> & -> & _)|(b & _ & Hb & _ & Hk & _ & Hp)].
  - left. injection H as <- <-. by rewrite Hthis.
  - right. exists b. destruct r as [[[fs c] o]|].
    + apply hushed_expand_frame in H as [-> _]. rewrite Hb, Hthis.
      split; [done|]. split; [by apply Hp|done].
    + injection H as <- <-. rewrite Hb, Hthis.
      split; [done|]. split; [by apply Hp|done].
Qed.

(** X4.  The first entry of the batch list a walk returns, the entry of
    the root pair, never has a parent and is never keyed. *)
Theorem root_entry_has_no_parent turns fuel newTree context s s' b :
  patch C turns fuel newTree context s = Ok tt s' →
  head (Stem.batchs (this s')) = Some b →
  Batch.parent b = None ∧ Batch.isKeyedItem b = false.
Proof.
  unfold patch. intros H Hb.
  apply bind_inv_Ok in H as (u & s1 & [= _ <-] & H).
  apply bind_inv_Ok in H as (s0 & s2 & [= <- <-] & H).
  destruct turns as [|turns]; [done|]. simpl in H.
  apply bind_inv_Ok in H as (L1 & s1 & Hturn & H).
  apply first_turn in Hturn as [[Hstack Hsame]|(b0 & Hb0 & Hp & Hk)].
  - destruct turns; simpl in H; rewrite Hstack in H; injection H as <-;
      rewrite Hsame in Hb; by destruct s.
  - apply walked_patch_loop in H as (_ & more & _ & _ & Hmore & _).
    rewrite Hmore, Hb0 in Hb. destruct s; simpl in Hb.
    by injection Hb as <-.
Qed.

Lemma patchComponent_hosts fuel context n o s :
  isComponent C (world s) n = false →
  isComponent C (world s) o = false →
  patchComponent C fuel context (Some n) (Some o) s
  = Ok (context, Some n, Some o) s.
Proof.
  intros Hn Ho. unfold patchComponent, read_world, bind, ret. simpl.
  by rewrite Hn, Ho.
Qed.

Lemma apply_batch_root_replacement fuel b :
  isNewElement C (Batch.difference b) = false →
  isRemoveElement C (Batch.difference b) = false →
  isReplaceElement C (Batch.difference b) = true →
  Batch.parent b = None →
  never_returns (apply_batch C fuel b).
Proof.
  intros Hnew Hremove Hreplace Hparent. unfold apply_batch.
  rewrite Hnew, Hremove, Hreplace, Hparent.
  apply never_returns_bind_l, never_returns_bind_r. intros _.
  apply never_returns_bind_l.
  apply (replaceElement_without_parent C).
Qed.

Section Render.
Context (budget : nat).

(** X5.  A root of another kind is never rendered to the end.  When the
    owned tree and the new tree are host elements whose difference [diff]
    classifies as a replacement, [render] does not return: the entry of
    the root pair has no parent, and the applier dereferences it. *)
Theorem root_replacement_never_completes depth n t te callback context
    updateOwnwer s :
  idle s →
  Stem.tree (this s) = Some t →
  heap (world s) !! t = Some te →
  is_Some (heap (world s) !! n) →
  isComponent C (world s) n = false →
  isComponent C (world s) t = false →
  let d :=
    diff C (world (inherit_stem (Some n) (El._stem te) s)) (Some t) (Some n) in
  isNewElement C d = false →
  isRemoveElement C d = false →
  isReplaceElement C d = true →
  ∀ r s',
    render C budget depth (Some n) callback context updateOwnwer s ≠ Ok r s'.
Proof.
  intros Hs Htree Hte Hn Hcn Hct d Hnew Hremove Hreplace r s' H.
  destruct depth as [|depth]; [done|].
  rewrite render_idle in H by done. unfold Fifo.start_cycle in H.
  apply bind_inv_Ok in H as (u1 & s1 & [= _ <-] & H).
  apply bind_inv_Ok in H as (u2 & s2 & [= _ <-] & H).
  apply bind_inv_Ok in H as (u3 & s3 & Hpatch & H).
  assert (Hbatch : ∃ b more,
    Stem.batchs (this s3) = b :: more
    ∧ Batch.parent b = None ∧ Batch.difference b = d).
  { unfold patch in Hpatch.
    apply bind_inv_Ok in Hpatch as (u & s4 & [= _ <-] & Hpatch).
    apply bind_inv_Ok in Hpatch as (s0 & s5 & [= <- <-] & Hpatch).
    destruct budget as [|turns]; [done|]. simpl in Hpatch.
    apply bind_inv_Ok in Hpatch as (L1 & s6 & Hturn & Hloop).
    unfold patch_iteration in Hturn. simpl in Hturn.
    unfold bind at 1, frame_at in Hturn. simpl in Hturn.
    unfold parse_frame in Hturn.
    destruct s as [w l th]. simpl in *. rewrite Htree in Hturn.
    apply bind_inv_Ok in Hturn as (rv & s7 & Hvisit & Hexpand).
    erewrite bind_Ok in Hvisit by (by apply patchComponent_hosts).
    cbv beta iota in Hvisit.
    rewrite (visit_pair_old C _ 0%nat _ context (Some n) t te) in Hvisit;
      [|done|by intros ? [= <-]|done].
    destruct (truthy (El.dom te)); [|done].
    injection Hvisit as <- <-.
    apply hushed_expand_frame in Hexpand as [Hthis _].
    apply walked_patch_loop in Hloop as (_ & more & _ & _ & Hmore & _).
    rewrite Hmore, Hthis. simpl. by eexists _, _. }
  destruct Hbatch as (b & more & Hb & Hparent & Hdiff).
  apply bind_inv_Ok in H as (s3' & s4 & [= <- <-] & H).
  apply bind_inv_Ok in H as (u5 & s5 & H5 & H).
  apply bind_inv_Ok in H as (u6 & s6 & [= _ <-] & H).
  assert (Hb5 : Stem.batchs (this s5) = b :: more).
  { destruct updateOwnwer; injection H5 as _ <-; [|done].
    by destruct s3 as [? ? []]. }
  destruct depth as [|depth]; [done|].
  rewrite renderAtAnimationFrame_S in H. unfold Fifo.flush in H.
  apply bind_inv_Ok in H as (s6' & s7 & [= <- <-] & H).
  assert (Hb6 : Stem.batchs
            (this (set_this (Stem.set_batchCallback
               (Some (mkBatchCallback (Stem.tree (this s3)) callback))
               (this s5)) s5)) = b :: more).
  { by destruct s5 as [? ? []]. }
  rewrite Hb6 in H.
  apply bind_inv_Ok in H as (u7 & s8 & Hupdate & _).
  unfold update in Hupdate. simpl in Hupdate.
  apply bind_inv_Ok in Hupdate as (u8 & s9 & Happly & _).
  subst d.
  by eapply (apply_batch_root_replacement budget b); [rewrite Hdiff..|done|].
Qed.

End Render.
End RootEntry.

Lemma root_entry_has_no_parent_witness :
  ∃ b,
    head (Stem.batchs (this FamilyWalk.final)) = Some b
    ∧ Batch.newElement b = Some 20%nat
    ∧ Batch.parent b = None
    ∧ Batch.isKeyedItem b = false.
Proof.
  eexists. split; [reflexivity|]. split; [reflexivity|].
  apply (root_entry_has_no_parent Sample.collaborators 10 5 (Some 20%nat) []
           Family.attached FamilyWalk.final); reflexivity.
Defined.

Lemma root_replacement_never_completes_witness :
  ∃ e s',
    render Sample.collaborators 5 5 (Some 3%nat) [] [] true Scene.attached
    = Throw e s'.
Proof.
  destruct (render Sample.collaborators 5 5 (Some 3%nat) [] [] true
              Scene.attached) as [r s'|e s'| |] eqn:E.
  - exfalso.
    refine (root_replacement_never_completes Sample.collaborators 5 5 3 1
              (Sample.element "div" None [] (Some 100%nat)) [] [] true
              Scene.attached _ _ _ _ _ _ _ _ _ r s' E);
      try reflexivity.
    + split; [done|split; [done|by eexists]].
    + by eexists.
  - by exists e, s'.
  - vm_compute in E. discriminate.
  - vm_compute in E. discriminate.
Defined.

(** ** The stem outside a cycle *)

Lemma bind_bind {A B D} (m : M A) (f : A → M B) (g : B → M D) s :
  bind (bind m f) g s = bind m (λ x, bind (f x) g) s.
Proof. unfold bind. by destruct (m s). Qed.

Section Outside.
Context (C : Collaborators) (budget : nat).

(** X6.  The first render of an unattached stem attaches: the native tree
    is built by [fastCreateDomTree] with an empty context, whatever context
    the caller passed, the tree is owned if [updateOwnwer] says so, and the
    callback is called at once with the node that was built.  Nothing is
    diffed, nothing is queued and the lock is not taken. *)
Theorem first_render_attaches depth el callback context (updateOwnwer : bool)
    s :
  Stem._enabled (this s) = true →
  Stem.lock (this s) = false →
  Stem.tree (this s) = None →
  let built := fastCreateDomTree C [] el el (world s) in
  let s1 :=
    set_this (if updateOwnwer then Stem.set_tree el (this s) else this s)
      (emit (EvFastCreateDomTree [] el el built.1)
         (set_world built.2 (emit EvUpdateId s))) in
  render C budget (S depth) el callback context updateOwnwer s
  = invoke C budget depth callback (Some built.1) s1
  ∧ Stem.lock (this s1) = false
  ∧ Stem.batchs (this s1) = Stem.batchs (this s)
  ∧ Stem.renderQueue (this s1) = Stem.renderQueue (this s)
  ∧ Stem.tree (this s1) = (if updateOwnwer then el else None).
Proof.
  intros He Hl Ht built s1. split.
  - simpl render. unfold bind at 1, get_state at 1. rewrite He, Hl, Ht.
    simpl. unfold attach_tree, build_tree, call_world_ret, say, modify, bind,
      ret, modify_this, modify.
    simpl. subst s1 built.
    destruct (fastCreateDomTree C [] el el (world s)) as [d w].
    by destruct updateOwnwer.
  - subst s1. destruct s as [? ? []]. simpl in *.
    by destruct updateOwnwer.
Qed.

(** X7.  Unsafe update zones do not nest.  When a zone entered inside
    another zone returns, reconciliation is enabled again, also for the rest
    of the outer zone: a render call that follows the inner zone is handled
    as outside any zone (here, with the lock held, it is queued) and not
    bypassed. *)
Theorem unsafe_zones_do_not_nest depth inner el callback context updateOwnwer
    s s1 :
  Stem.lock (this s) = true →
  let outer :=
    [CallEnterUnsafeUpdateZone inner;
     CallRender el callback context updateOwnwer] in
  let s0 :=
    emit (EvCallback outer None)
      (set_this (Stem.set_enabled false (this s)) s) in
  enterUnsafeUpdateZone C budget (S depth) inner s0 = Ok tt s1 →
  Stem._enabled (this s1) = true
  ∧ enterUnsafeUpdateZone C budget (S (S (S depth))) outer s
    = Ok tt (enqueue el callback s1).
Proof.
  intros Hl outer s0 Hinner.
  assert (Hl1 : Stem.lock (this s1) = true).
  { pose proof (lock_kept_submit (CallEnterUnsafeUpdateZone inner) s0) as Hk.
    rewrite <- (proj1 (locked_calls C budget (S depth))
                  (CallEnterUnsafeUpdateZone inner) s0) in Hk.
    - unfold run_call in Hk. rewrite Hinner in Hk. rewrite Hk.
      subst s0. by destruct s as [? ? []].
    - subst s0. by destruct s as [? ? []].
    - right. unfold run_call. by rewrite Hinner. }
  assert (He1 : Stem._enabled (this s1) = true).
  { rewrite enterUnsafeUpdateZone_S in Hinner.
    apply bind_inv_Ok in Hinner as (u1 & s2 & _ & Hinner).
    apply bind_inv_Ok in Hinner as (u2 & s3 & _ & [= <-]).
    by destruct s3 as [? ? []]. }
  split; [done|].
  rewrite enterUnsafeUpdateZone_S, invoke_S.
  erewrite bind_Ok by reflexivity.
  rewrite bind_bind. erewrite bind_Ok by reflexivity.
  simpl for_each. rewrite bind_bind.
  erewrite bind_Ok by (unfold run_call; exact Hinner).
  rewrite bind_bind.
  erewrite bind_Ok by (unfold run_call; by apply render_locked).
  unfold bind, ret, modify_this, modify. f_equal.
  unfold enqueue. destruct s1 as [w l []]. simpl in *. by subst.
Qed.

(** X8.  An exception in an unsafe update zone leaves reconciliation
    disabled for good: there is no [finally] around the body.  On a stem
    without an owned tree the first render call of a zone throws the
    [TypeError] of [this.tree.dom]; [_enabled] stays false, and every later
    render call, inside a zone or not, throws the same error and changes
    nothing. *)
Theorem zone_exception_disables_the_stem depth el callback context
    updateOwnwer rest s :
  Stem.tree (this s) = None →
  let body := CallRender el callback context updateOwnwer :: rest in
  let s0 :=
    emit (EvCallback body None)
      (set_this (Stem.set_enabled false (this s)) s) in
  enterUnsafeUpdateZone C budget (S (S (S depth))) body s
  = Throw (TypeError "this.tree") s0
  ∧ Stem._enabled (this s0) = false
  ∧ ∀ d el' callback' context' updateOwnwer',
      render C budget (S d) el' callback' context' updateOwnwer' s0
      = Throw (TypeError "this.tree") s0.
Proof.
  intros Ht body s0.
  assert (Hrender : ∀ d el' callback' context' updateOwnwer',
    render C budget (S d) el' callback' context' updateOwnwer' s0
    = Throw (TypeError "this.tree") s0).
  { intros d el' callback' context' updateOwnwer'.
    assert (He0 : Stem._enabled (this s0) = false).
    { subst s0. by destruct s as [? ? []]. }
    assert (Ht0 : Stem.tree (this s0) = None).
    { subst s0. destruct s as [? ? []]. by simpl in *. }
    rewrite render_disabled by done.
    unfold tree_dom, dom_of, bind, get_state. by rewrite Ht0. }
  split; [|split; [subst s0; by destruct s as [? ? []]|done]].
  rewrite enterUnsafeUpdateZone_S, invoke_S.
  erewrite bind_Ok by reflexivity.
  rewrite bind_bind. erewrite bind_Ok by reflexivity.
  simpl for_each. rewrite bind_bind.
  apply bind_Throw.
  exact (Hrender depth el callback context updateOwnwer).
Qed.

End Outside.

Lemma first_render_attaches_witness :
  ∃ s',
    render Sample.collaborators 5 9 (Some 2%nat)
      [CallRender (Some 1%nat) [] [] true] [("theme", "dark")] true Fresh.state
    = Ok tt s'
    ∧ firstn 3 (log s')
      = [EvUpdateId; EvFastCreateDomTree [] (Some 2%nat) (Some 2%nat) 0;
         EvCallback [CallRender (Some 1%nat) [] [] true] (Some 0%nat)].
Proof.
  destruct (first_render_attaches Sample.collaborators 5 8 (Some 2%nat)
              [CallRender (Some 1%nat) [] [] true] [("theme", "dark")] true
              Fresh.state eq_refl eq_refl eq_refl) as (-> & _).
  vm_compute. by eexists.
Defined.

Lemma unsafe_zones_do_not_nest_witness :
  ∃ s1,
    Stem._enabled (this s1) = true
    ∧ enterUnsafeUpdateZone Sample.collaborators 5 4
        [CallEnterUnsafeUpdateZone [];
         CallRender (Some 2%nat) [] [] true] Locked.state
      = Ok tt (enqueue (Some 2%nat) [] s1).
Proof.
  eexists.
  apply (unsafe_zones_do_not_nest Sample.collaborators 5 1 [] (Some 2%nat) []
           [] true Locked.state); [reflexivity|vm_compute; reflexivity].
Defined.

Lemma zone_exception_disables_the_stem_witness :
  ∃ s0,
    enterUnsafeUpdateZone Sample.collaborators 5 3
      [CallRender (Some 2%nat) [] [] true] Fresh.state
    = Throw (TypeError "this.tree") s0
    ∧ Stem._enabled (this s0) = false
    ∧ render Sample.collaborators 5 1 (Some 3%nat) [] [] true s0
      = Throw (TypeError "this.tree") s0.
Proof.
  destruct (zone_exception_disables_the_stem Sample.collaborators 5 0
              (Some 2%nat) [] [] true [] Fresh.state eq_refl)
    as (Hzone & Hoff & Hlater).
  eexists. split; [exact Hzone|]. split; [exact Hoff|].
  exact (Hlater 0%nat (Some 3%nat) [] [] true).
Defined.

(** ** Entries of the batch applier *)

Section Entries.
Context (C : Collaborators).

(** X9.  A removal entry: "will unmount" is invoked on the old element
    first; then the old native node is removed from its own parent node
    (not from the node of the entry's parent element) and the old element
    stops being a subtree root.  When the old native node has no parent
    node the entry throws a [TypeError], after the hook has run. *)
Theorem removal_unmounts_then_detaches fuel b o oe od odn s :
  isNewElement C (Batch.difference b) = false →
  isRemoveElement C (Batch.difference b) = true →
  Batch.oldElement b = Some o →
  let w1 := invokeWillUnmount C (Some o) (world s) in
  let s1 := set_world w1 (emit (EvWillUnmount (Some o)) s) in
  heap w1 !! o = Some oe →
  El.dom oe = Some od →
  nodes w1 !! od = Some odn →
  match parentNode odn with
  | None =>
    apply_batch C fuel b s
    = Throw (TypeError "oldElement.dom.parentNode") s1
  | Some p =>
    isCreateChildren C (Batch.difference b) = false →
    ∃ s',
      apply_batch C fuel b s = Ok tt s'
      ∧ log s' = log s ++ [EvWillUnmount (Some o); EvRemoveChild p od]
      ∧ heap (world s') = alter (El.set_stem None) o (heap w1)
      ∧ this s' = this s
  end.
Proof.
  intros Hnew Hremove Hold w1 s1 Ho Hdom Hod. subst s1 w1.
  unfold apply_batch. rewrite Hnew, Hremove, Hold. cbv zeta beta iota.
  unfold willUnmount, call_world, say, dom_of.
  do 7 (rewrite ?bind_bind;
        erewrite bind_Ok
          by first [ reflexivity
                   | unfold deref; simpl; by rewrite Ho
                   | unfold deref_node; simpl; by rewrite Hod
                   | rewrite Hdom; reflexivity ]).
  destruct (parentNode odn) as [p|]; [|done].
  intros Hcreate. rewrite Hcreate.
  unfold dom_removeChild, modify_nodes, say, update_el.
  do 5 (rewrite ?bind_bind; erewrite bind_Ok by reflexivity).
  eexists. split; [reflexivity|]. simpl.
  split; [by rewrite <- app_assoc|done].
Qed.

End Entries.

Lemma removal_unmounts_then_detaches_witness :
  ∃ s',
    apply_batch Sample.collaborators 5 Mounted.removal Mounted.attached
    = Ok tt s'
    ∧ log s' = [EvWillUnmount (Some 1%nat); EvRemoveChild 100 101]
    ∧ heap (world s') = alter (El.set_stem None) 1%nat Mounted.heap0
    ∧ this s' = this Mounted.attached.
Proof.
  exact (removal_unmounts_then_detaches Sample.collaborators 5 Mounted.removal
           1 (Sample.element "div" None [] (Some 101%nat)) 101
           (mkNode 1 [] (Some 100%nat)) Mounted.attached
           eq_refl eq_refl eq_refl eq_refl eq_refl eq_refl eq_refl).
Defined.

(** ** Component expansion *)

Section Expansion.
Context (C : Collaborators).

Lemma remount_loop_mounts fuel : ∀ context newElement s r s',
  remount_loop C fuel context newElement s = Ok r s' →
  logs_only is_mount s s'
  ∧ this s' = this s
  ∧ (r.2 = None
     ∨ ∃ n', r.2 = Some n' ∧ isComponent C (world s') n' = false).
Proof.
  induction fuel as [|fuel IH]; intros context [n|] s r s' H; simpl in H.
  - unfold read_world, bind in H.
    destruct (isComponent C (world s) n) eqn:Hc; [done|].
    injection H as <- <-. split; [apply logs_only_refl|]. split; [done|].
    right. by exists n.
  - injection H as <- <-. split; [apply logs_only_refl|]. split; [done|].
    by left.
  - unfold read_world in H. unfold bind at 1 in H.
    destruct (isComponent C (world s) n) eqn:Hc.
    + apply bind_inv_Ok in H as ([ne' context'] & s1 & Hinst & H).
      apply IH in H as (Hlog & Hthis & Hend).
      unfold instantiate, say, call_world_ret, modify, bind in Hinst.
      simpl in Hinst.
      destruct (instantiateComponent C context n None (world s)) as [x w].
      injection Hinst as _ <-.
      split; [|split; [by rewrite Hthis|done]].
      eapply logs_only_trans; [|exact Hlog].
      exists [EvInstantiateComponent n None]. split; [done|].
      repeat constructor. by exists n.
    + injection H as <- <-. split; [apply logs_only_refl|]. split; [done|].
      right. by exists n.
  - injection H as <- <-. split; [apply logs_only_refl|]. split; [done|].
    by left.
Qed.

(** X10.  A component rendered over an element of another type is
    mounted from scratch: every call of [instantiateComponent] is made
    without an old element, so no instance of the old side is handed over,
    and of the calls the log records [patchComponent] makes no other.  The
    stem is not touched.  The old element comes back as it was, stripped if
    it is a component itself; and what comes back as the new element is no
    component any more. *)
Theorem component_of_another_type_is_remounted fuel context n o ne oe s r s' :
  isComponent C (world s) n = true →
  heap (world s) !! n = Some ne →
  heap (world s) !! o = Some oe →
  El.type oe ≠ El.type ne →
  patchComponent C fuel context (Some n) (Some o) s = Ok r s' →
  logs_only is_mount s s'
  ∧ this s' = this s
  ∧ r.2 = (if isComponent C (world s') o
           then stripComponent C (world s') (Some o) else Some o)
  ∧ (r.1.2 = None
     ∨ ∃ n', r.1.2 = Some n' ∧ isComponent C (world s') n' = false).
Proof.
  intros Hc Hn Ho Htype H. unfold patchComponent in H.
  apply bind_inv_Ok in H as ([[context1 ne1] oe1] & s1 & Hloop & H).
  unfold read_world in Hloop. unfold bind at 1 in Hloop. rewrite Hc in Hloop.
  unfold deref in Hloop. unfold bind at 1 2 3 in Hloop.
  rewrite Ho, Hn in Hloop. unfold ret at 1 in Hloop.
  rewrite bool_decide_eq_true_2 in Hloop by done.
  apply bind_inv_Ok in Hloop as ([context2 ne2] & s2 & Hloop & [= <- <- <- <-]).
  apply remount_loop_mounts in Hloop as (Hlog & Hthis & Hend).
  unfold read_world, bind, ret in H.
  destruct (isComponent C (world s2) o) eqn:Hco;
    injection H as <- <-; simpl; by rewrite ?Hco.
Qed.

End Expansion.

Lemma component_of_another_type_is_remounted_witness :
  ∃ s',
    patchComponent Widget.collaborators 5 [] (Some 5%nat) (Some 1%nat)
      Widget.attached
    = Ok ([], Some 7%nat, Some 1%nat) s'
    ∧ log s' = [EvInstantiateComponent 5 None; EvInstantiateComponent 6 None]
    ∧ logs_only is_mount Widget.attached s'.
Proof.
  destruct (patchComponent Widget.collaborators 5 [] (Some 5%nat) (Some 1%nat)
              Widget.attached) as [r s'|e s'| |] eqn:E;
    try (vm_compute in E; discriminate).
  destruct (component_of_another_type_is_remounted Widget.collaborators 5 []
              5 1
              (El.mk (ComponentClass 7) None [Some 6%nat] None None false None
                 None None)
              (Sample.element "div" None [] (Some 100%nat))
              Widget.attached r s' eq_refl eq_refl eq_refl) as (Hlog & _);
    [done|exact E|].
  exists s'. vm_compute in E. injection E as <- <-.
  split; [reflexivity|]. split; [reflexivity|exact Hlog].
Defined.

(** ** The frame of a child *)

Section ChildFrame.
Context (C : Collaborators).

Lemma pair_children_pops ps prev fs s r s' prevF nq :
  fs !! prev = Some prevF →
  Frame.newChildren prevF = Some nq →
  pair_children C ps prev fs s = Ok r s' →
  r.1.1.1 = (shift nq).1.
Proof.
  intros Hprev Hnq H. unfold pair_children in H.
  apply bind_inv_Ok in H as (prevF' & s1 & [Hprev' ->]%frame_at_inv & H).
  rewrite Hprev in Hprev'. injection Hprev' as <-.
  rewrite Hnq in H.
  apply bind_inv_Ok in H as (nq' & s1 & [[= <-] ->]%non_null_inv & H).
  destruct (shift nq) as [newChild rest]. simpl.
  destruct ps as [p|]; ok_inv; done.
Qed.

(** The matcher writes no field of an element but [_keymap]. *)
Lemma pair_children_fields ps prev fs s r s' l e' :
  pair_children C ps prev fs s = Ok r s' →
  heap (world s') !! l = Some e' →
  ∃ e, heap (world s) !! l = Some e
       ∧ El._unmounted e' = El._unmounted e
       ∧ El._stem e' = El._stem e
       ∧ El._ownerElement e' = El._ownerElement e.
Proof.
  intros [Hw|(pn & pne & nc & nce & _ & Hpn & _ & _ & _ & Hw)]%pair_children_world
    He'.
  - rewrite Hw in He'. by exists e'.
  - rewrite Hw in He'. simpl in He'.
    destruct (decide (l = pn)) as [->|Hne].
    + rewrite lookup_alter_eq, Hpn in He'. injection He' as <-.
      by exists pne.
    + rewrite lookup_alter_ne in He' by done. by exists e'.
Qed.

(** X11.  The frame the matcher returns for a child (lines 243-266) is a
    fresh, unparsed frame in the given context.  A new child marked
    [_unmounted] is dropped from it: the frame carries no new element, so
    the old child it was paired with is diffed against nothing.  A new child
    that is a subtree root (it has a [_stem]) becomes the root of its frame;
    any other frame inherits the root of the frame it comes from.  A new
    child without an owner element gets the owner of the new element of that
    frame; one that has an owner keeps it. *)
Theorem child_frame_root_and_owner context ps prev oe fs s child fs' s'
    prevF nq :
  fs !! prev = Some prevF →
  Frame.newChildren prevF = Some nq →
  createNextStackState C context ps prev oe fs s = Ok (child, fs') s' →
  Frame.context child = context
  ∧ Frame.parsed child = false
  ∧ Frame.newChildren child = None
  ∧ Frame.oldChildren child = None
  ∧ Frame.difference child = None
  ∧ match (shift nq).1 with
    | None =>
      Frame.newElement child = None ∧ Frame.root child = Frame.root prevF
    | Some nc =>
      ∃ nce,
        heap (world s) !! nc = Some nce
        ∧ if El._unmounted nce then
            Frame.newElement child = None
            ∧ Frame.root child = Frame.root prevF
          else
            Frame.newElement child = Some nc
            ∧ Frame.root child
              = (if truthy (El._stem nce) then Some nc else Frame.root prevF)
            ∧ ∃ nce',
                heap (world s') !! nc = Some nce'
                ∧ match El._ownerElement nce with
                  | Some owner => El._ownerElement nce' = Some owner
                  | None =>
                    ∃ pn pne,
                      Frame.newElement prevF = Some pn
                      ∧ heap (world s) !! pn = Some pne
                      ∧ El._ownerElement nce' = El._ownerElement pne
                  end
    end.
Proof.
  intros Hprev Hnq H. unfold createNextStackState in H.
  apply bind_inv_Ok in H as (prevF' & s0 & [Hprev' ->]%frame_at_inv & H).
  rewrite Hprev in Hprev'. injection Hprev' as <-.
  apply bind_inv_Ok in H as ([[[newChild oldChild] keyed] fs1] & s1 & Hpair & H).
  pose proof (pair_children_pops _ _ _ _ _ _ _ _ Hprev Hnq Hpair) as Hpop.
  simpl in Hpop. rewrite <- Hpop.
  pose proof (λ l e', pair_children_fields _ _ _ _ _ _ l e' Hpair) as Hfields.
  apply bind_inv_Ok in H as ([newChild' root'] & s2 & Hun & H).
  apply bind_inv_Ok in H as (u & s3 & Hown & [= <- <- <-]).
  simpl. do 5 (split; [done|]).
  destruct newChild as [nc|].
  - apply bind_inv_Ok in Hun as (nce1 & s4 & [Hnce1 ->]%deref_inv & Hun).
    destruct (Hfields nc nce1 Hnce1) as (nce & Hnce & Hu & Hst & Ho).
    exists nce. split; [done|]. rewrite <- Hu, <- Hst.
    destruct (El._unmounted nce1).
    + injection Hun as <- <- <-. done.
    + assert (newChild' = Some nc
              ∧ root' = (if truthy (El._stem nce1) then Some nc
                         else Frame.root prevF) ∧ s2 = s1) as (-> & -> & ->).
      { destruct (truthy (El._stem nce1)); by injection Hun as <- <- <-. }
      split; [done|]. split; [done|].
      apply bind_inv_Ok in Hown as (nce2 & s4 & [Hnce2 ->]%deref_inv & Hown).
      rewrite Hnce1 in Hnce2. injection Hnce2 as <-. rewrite <- Ho.
      destruct (El._ownerElement nce1) as [owner|] eqn:Eo; simpl in Hown.
      * injection Hown as _ <-. exists nce1. by rewrite Eo.
      * apply bind_inv_Ok in Hown as (pn & s4 & [Hpn ->]%non_null_inv & Hown).
        apply bind_inv_Ok in Hown as (pne1 & s4 & [Hpne1 ->]%deref_inv & Hown).
        unfold update_el in Hown. injection Hown as _ <-. simpl.
        destruct (Hfields pn pne1 Hpne1) as (pne & Hpne & _ & _ & Hpo).
        rewrite lookup_alter_eq, Hnce1. simpl.
        eexists. split; [done|]. exists pn, pne. simpl. by rewrite <- Hpo.
  - injection Hun as <- <- <-. done.
Qed.

End ChildFrame.

Lemma child_frame_root_and_owner_witness :
  ∃ child fs' s',
    createNextStackState Sample.collaborators [] (Some 0%nat) 0 (Some 10%nat) [Keyed.frame0]
      Family.attached
    = Ok (child, fs') s'
    ∧ Frame.newElement child = Some 21%nat
    ∧ Frame.root child = Some 20%nat
    ∧ Frame.parsed child = false.
Proof.
  destruct (createNextStackState Sample.collaborators [] (Some 0%nat) 0 (Some 10%nat)
              [Keyed.frame0] Family.attached) as [[child fs'] s'|e s'| |] eqn:E;
    try (vm_compute in E; discriminate).
  destruct (child_frame_root_and_owner Sample.collaborators [] (Some 0%nat) 0
              (Some 10%nat)
              [Keyed.frame0] Family.attached child fs' s' Keyed.frame0
              [Some 21%nat] eq_refl eq_refl E)
    as (_ & Hparsed & _ & _ & _ & nce & Hnce & Hcase).
  vm_compute in Hnce. injection Hnce as <-.
  destruct Hcase as (Hnew & Hroot & _).
  exists child, fs', s'. by repeat split.
Defined.

(** ** The calls of [updateElement] *)

Lemma logged_nil s : logged [] s = s.
Proof. unfold logged. rewrite app_nil_r. by destruct s. Qed.

Lemma logged_logged evs1 evs2 s :
  logged evs2 (logged evs1 s) = logged (evs1 ++ evs2) s.
Proof. unfold logged. simpl. by rewrite app_assoc. Qed.

Lemma for_each_say {A} (f : A → Event) (l : list A) s :
  for_each (λ x, say (f x)) l s = Ok tt (logged (f <$> l) s).
Proof.
  revert s. induction l as [|x l IH]; intros s; simpl.
  - by rewrite logged_nil.
  - unfold bind, say at 1, modify. rewrite IH.
    unfold logged. simpl. by rewrite <- app_assoc.
Qed.

Lemma for_each_app {A} (f : A → M unit) l1 l2 s :
  for_each f (l1 ++ l2) s = bind (for_each f l1) (λ _, for_each f l2) s.
Proof.
  revert s. induction l1 as [|x l1 IH]; intros s; simpl; [done|].
  unfold bind in *. destruct (f x s); done.
Qed.

Section Attributes.
Context (C : Collaborators).

Lemma root_event_handler_Ok root h s s0 :
  handler_of C (world s) root = Some h →
  world s0 = world s →
  root_event_handler (stripComponent C (world s) root) s0 = Ok h s0.
Proof.
  unfold handler_of, root_event_handler. intros H Hw.
  destruct (stripComponent C (world s) root) as [r|]; [|done].
  destruct (heap (world s) !! r) as [re|] eqn:Hr; [|done].
  destruct (El._stem re) as [st|] eqn:Hst; [|done].
  unfold bind, deref, get_state. simpl. rewrite Hw, Hr, Hst. simpl.
  by rewrite Hw, H.
Qed.

(** The loop of [updateElement] over entries whose handler, where one is
    needed, is [h]. *)
Lemma update_loop root domElement d h s (F : AttrEntry → M unit) :
  domElement = Some d →
  (∀ a s0, world s0 = world s →
     (needs_handler C a = true → handler_of C (world s) root = Some h) →
     F a s0 = Ok tt (logged (attr_calls C h d a) s0)) →
  ∀ l s0,
    world s0 = world s →
    (∀ a, a ∈ l → needs_handler C a = true →
          handler_of C (world s) root = Some h) →
    for_each F l s0 = Ok tt (logged (l ≫= attr_calls C h d) s0).
Proof.
  intros -> HF. induction l as [|a l IH]; intros s0 Hw Hh; simpl.
  - by rewrite logged_nil.
  - unfold bind. rewrite HF; [|done|intros; apply (Hh a); [by left|done]].
    rewrite IH; [|done|intros b ?; apply Hh; by right].
    by rewrite logged_logged.
Qed.

Lemma apply_entry root d h s a s0 :
  world s0 = world s →
  (needs_handler C a = true → handler_of C (world s) root = Some h) →
  match attr_state a with
  | NEW | REPLACED =>
    if DOMEvents C (attr_key a) then
      h <- root_event_handler (stripComponent C (world s) root);;
      say (EvReplaceEvent h (Some d) (toLowerCase (slice2 (attr_key a)))
             (attr_value a))
    else
      d <- non_null "domElement" (Some d);;
      say (EvSetProperty d (attr_key a) (attr_value a))
  | STYLE_CHANGED =>
    for_each (λ kv, say (EvSetStyle (Some d) (fst kv) (snd kv)))
      (enumerate (attr_value a))
  | REMOVED =>
    if DOMEvents C (attr_key a) then
      h <- root_event_handler (stripComponent C (world s) root);;
      say (EvRemoveEvent h (Some d) (toLowerCase (slice2 (attr_key a))))
    else
      d <- non_null "domElement" (Some d);;
      say (EvRemoveAttribute d (attr_key a))
  | UNCHANGED => ret tt
  end s0 = Ok tt (logged (attr_calls C h d a) s0).
Proof.
  intros Hw Hh. unfold attr_calls, needs_handler in *.
  destruct (attr_state a);
    try destruct (DOMEvents C (attr_key a));
    try (by rewrite logged_nil);
    try (erewrite bind_Ok by (by apply root_event_handler_Ok; auto));
    try done.
  all: apply for_each_say.
Qed.

(** X12.  For a new element that has a native node, [updateElement]
    applies the entries of a difference in their order and touches neither
    the elements nor the stem.  A new or replaced attribute is set as a
    property of the native node, a removed one by [removeAttribute]; an
    event goes through the event handler of the root's stem, under its name
    without the first two characters, in lower case; a changed style calls
    [setStyle] once for each property [for ... in] visits on the value:
    each property of an object, each index of a string with the character
    there, none for a number, a boolean, [null] or [undefined].  The handler
    is looked up only for an event entry. *)
Theorem attributes_are_applied_in_order diff root n ne d h s :
  heap (world s) !! n = Some ne →
  El.dom ne = Some d →
  (∀ a, a ∈ attr diff → needs_handler C a = true →
        handler_of C (world s) root = Some h) →
  updateElement C diff root (Some n) s
  = Ok tt (logged (attr diff ≫= attr_calls C h d) s).
Proof.
  intros Hn Hd Hh. unfold updateElement, dom_of.
  do 3 (rewrite ?bind_bind;
        erewrite bind_Ok
          by first [reflexivity | unfold deref; by rewrite Hn]).
  erewrite bind_Ok by reflexivity. rewrite Hd.
  eapply (update_loop root (Some d) d h s); [done| |done|done].
  intros a s0 Hw Ha. by apply apply_entry.
Qed.

(** X13.  [updateElement] is not atomic.  When an event entry meets a root
    that has no stem, the call throws the [TypeError] of
    [strippedRoot._stem.getEventHandler()]; the entries before it have been
    applied, those after it are not. *)
Theorem event_entry_without_stem_throws diff root n ne d r re pre a post s :
  heap (world s) !! n = Some ne →
  El.dom ne = Some d →
  stripComponent C (world s) root = Some r →
  heap (world s) !! r = Some re →
  El._stem re = None →
  attr diff = pre ++ a :: post →
  Forall (λ x, needs_handler C x = false) pre →
  needs_handler C a = true →
  updateElement C diff root (Some n) s
  = Throw (TypeError "strippedRoot._stem")
      (logged (pre ≫= attr_calls C 0 d) s).
Proof.
  intros Hn Hd Hr Hre Hst Hattr Hpre Ha. unfold updateElement, dom_of.
  do 3 (rewrite ?bind_bind;
        erewrite bind_Ok
          by first [reflexivity | unfold deref; by rewrite Hn]).
  erewrite bind_Ok by reflexivity. rewrite Hd, Hattr, for_each_app.
  erewrite bind_Ok.
  2: { eapply (update_loop root (Some d) d 0%nat s); [done| |done|].
       - intros b s0 Hw Hb. by apply apply_entry.
       - intros b Hb Hneeds. rewrite Forall_forall in Hpre.
         by rewrite (Hpre b Hb) in Hneeds. }
  simpl for_each. apply bind_Throw.
  unfold needs_handler in Ha.
  assert (Hthrow : ∀ (k : nat → M unit) s0,
    world s0 = world s →
    (h <- root_event_handler (stripComponent C (world s) root);; k h) s0
    = Throw (TypeError "strippedRoot._stem") s0).
  { intros k s0 Hw. rewrite Hr. unfold root_event_handler, bind, deref.
    simpl. rewrite Hw, Hre. simpl. by rewrite Hst. }
  destruct (attr_state a); try done; rewrite Ha; by apply Hthrow.
Qed.

End Attributes.

Lemma attributes_are_applied_in_order_witness :
  updateElement Sample.collaborators Wired.changes (Some 1%nat) (Some 1%nat)
    Wired.state
  = Ok tt
      (logged
         [EvSetProperty 100 "id" (JsString "main");
          EvReplaceEvent 7 (Some 100%nat) "click" (JsScalar "listener");
          EvSetStyle (Some 100%nat) "color" "red";
          EvSetStyle (Some 100%nat) "width" "1px";
          EvSetStyle (Some 100%nat) "0" "t";
          EvSetStyle (Some 100%nat) "1" "o";
          EvSetStyle (Some 100%nat) "2" "p";
          EvRemoveAttribute 100 "title"] Wired.state).
Proof.
  exact (attributes_are_applied_in_order Sample.collaborators Wired.changes
           (Some 1%nat) 1
           (El.mk (HostTag "div") None [] (Some 100%nat) (Some 0%nat) false
              None None None) 100 7 Wired.state eq_refl eq_refl
           (λ _ _ _, eq_refl)).
Defined.

Lemma event_entry_without_stem_throws_witness :
  updateElement Sample.collaborators Wired.listener (Some 1%nat) (Some 1%nat)
    Scene.attached
  = Throw (TypeError "strippedRoot._stem")
      (logged [EvSetProperty 100 "id" (JsString "main")] Scene.attached).
Proof.
  refine (event_entry_without_stem_throws Sample.collaborators Wired.listener
            (Some 1%nat) 1 (Sample.element "div" None [] (Some 100%nat)) 100
            1 (Sample.element "div" None [] (Some 100%nat))
            [mkAttr "id" (JsString "main") NEW]
            (mkAttr "onClick" (JsScalar "listener") NEW)
            [mkAttr "title" (JsString "hint") NEW]
            Scene.attached eq_refl eq_refl eq_refl eq_refl eq_refl eq_refl _
            eq_refl).
  by repeat constructor.
Defined.

(** ** Replay in submission order *)




















Section InOrder.
Context (C : Collaborators) (budget : nat).



End InOrder.

Section Replay.
Context (C : Collaborators) (budget : nat).


End Replay.


(** First in, first out on the requests of [Relay]: 5, asked for by the
    callback of 3, comes after 4. *)
Example relay_order :
  serve_order 9 [(Some 2%nat, Relay.script)]
  = [ (Some 2%nat, Relay.script); (Some 3%nat, Relay.then5);
      (Some 4%nat, []); (Some 5%nat, []) ].
Proof. reflexivity. Qed.

